(** * ORT: a shallow embedding of the TypeScript codec

    The development follows the three source files of [typescript/src]:
    [value.ts] (the value model), [parser.ts] (text to value) and
    [generator.ts] (value to text).

    Conventions of the embedding.
    - A JavaScript string is a [string] of code units below 256; the
      source iterates strings with [for (const ch of s)], which is a walk
      over the characters of such a string.
    - A JavaScript number is modelled by the decimal it prints as (see
      [Js.number]); rounding a literal to binary64 is outside the model and
      the negative zero is identified with zero.
    - A JavaScript object is the list of its own enumerable properties in
      the order [Object.entries] lists them.  Where the source reads a
      property that may be inherited ([obj[key]] in [getOrDefault]), the
      prototype chain is a parameter of the model.
    - A numeric key of [get] and [set] is an integer.
    - A function that throws returns [Throw e]; [OrtParseError] is a
      record. *)

From Stdlib Require Import String Ascii List ZArith NArith Lia Bool Arith.
From Stdlib Require Import DecimalString DecimalN DecimalNat.
Import ListNotations.
Open Scope string_scope.
Set Warnings "-register-all".

(** ** Strings: the built-in string methods the source calls *)

Module Str.

Definition LF : ascii := "010"%char.
Definition TAB : ascii := "009"%char.
Definition CR : ascii := "013"%char.
Definition VT : ascii := "011"%char.
Definition FF : ascii := "012"%char.
Definition NBSP : ascii := "160"%char.
Definition BACKSLASH : ascii := "\"%char.

Definition str1 (c : ascii) : string := String c "".

(** White space and line terminators, as [trim] and [Number] see them. *)
Definition isWhite (c : ascii) : bool :=
  (c =? TAB)%char || (c =? LF)%char || (c =? VT)%char || (c =? FF)%char
  || (c =? CR)%char || (c =? " ")%char || (c =? NBSP)%char.

Fixpoint trimStart (s : string) : string :=
  match s with
  | "" => ""
  | String c s' => if isWhite c then trimStart s' else s
  end.

Fixpoint trimEnd (s : string) : string :=
  match s with
  | "" => ""
  | String c s' =>
      match trimEnd s' with
      | "" => if isWhite c then "" else str1 c
      | r => String c r
      end
  end.

Definition trim (s : string) : string := trimEnd (trimStart s).

Definition isEmpty (s : string) : bool :=
  match s with "" => true | _ => false end.

(** [s.startsWith(c)], [s.endsWith(c)], [s.includes(c)], [s.indexOf(c)]
    for a one-character needle, the only use the source makes of them. *)
Definition startsWith (c : ascii) (s : string) : bool :=
  match s with String d _ => (d =? c)%char | "" => false end.

Fixpoint endsWith (c : ascii) (s : string) : bool :=
  match s with
  | "" => false
  | String d "" => (d =? c)%char
  | String _ s' => endsWith c s'
  end.

Fixpoint includes (c : ascii) (s : string) : bool :=
  match s with
  | "" => false
  | String d s' => (d =? c)%char || includes c s'
  end.

Fixpoint indexOf (c : ascii) (s : string) : option nat :=
  match s with
  | "" => None
  | String d s' =>
      if (d =? c)%char then Some 0
      else match indexOf c s' with Some i => Some (S i) | None => None end
  end.

Fixpoint drop (n : nat) (s : string) : string :=
  match n, s with
  | S n', String _ s' => drop n' s'
  | _, _ => s
  end.

Fixpoint take (n : nat) (s : string) : string :=
  match n, s with
  | S n', String c s' => String c (take n' s')
  | _, _ => ""
  end.

(** [s.substring(a, b)] for [a <= b]. *)
Definition substring (a b : nat) (s : string) : string :=
  take (b - a) (drop a s).

(** [s.substring(1, s.length - 1)]. *)
Definition inner (s : string) : string :=
  substring 1 (String.length s - 1) s.

(** [s.replace(/:$/, '')]. *)
Fixpoint dropFinalColon (s : string) : string :=
  match s with
  | "" => ""
  | String c "" => if (c =? ":")%char then "" else s
  | String c s' => String c (dropFinalColon s')
  end.

(** [s.split(c)] for a one-character separator. *)
Fixpoint split (c : ascii) (s : string) : list string :=
  match s with
  | "" => [""]
  | String d s' =>
      if (d =? c)%char then "" :: split c s'
      else match split c s' with
           | h :: t => String d h :: t
           | [] => [str1 d]
           end
  end.

(** [parts.join(sep)]. *)
Definition join (sep : string) (parts : list string) : string :=
  String.concat sep parts.

Fixpoint repeatChar (c : ascii) (n : nat) : string :=
  match n with 0 => "" | S n' => String c (repeatChar c n') end.

Definition ofNat (n : nat) : string :=
  NilZero.string_of_uint (Nat.to_uint n).

End Str.
Import Str.

(** ** Numbers: [Number(text)], [isNaN] and [String(number)] *)

Module Js.

(** A number is NaN, an infinity, or the decimal [m / 10^scale].  The
    decimal is kept canonical: [scale = 0] or the last digit of [m] is
    not zero.  It is kept exactly: the rounding of the language to a
    double, with its overflow to an infinity and underflow to zero, is
    left out, so that [Number] gives the number of the language for the
    texts whose decimal a double holds, and tells [NaN] from a number
    for every text. *)
Inductive number : Type :=
| NaN
| Infinity (negative : bool)
| Dec (m : Z) (scale : nat).

Definition isNaN (x : number) : bool :=
  match x with NaN => true | _ => false end.

Definition number_eqb (x y : number) : bool :=
  match x, y with
  | NaN, NaN => true
  | Infinity a, Infinity b => Bool.eqb a b
  | Dec m s, Dec m' s' => (m =? m')%Z && (s =? s')%nat
  | _, _ => false
  end.

Fixpoint canon (m : Z) (scale : nat) : number :=
  match scale with
  | 0 => Dec m 0
  | S k => if (m mod 10 =? 0)%Z then canon (m / 10) k else Dec m scale
  end.

Definition isDigit (c : ascii) : bool :=
  let n := nat_of_ascii c in ((48 <=? n) && (n <=? 57))%nat.

Definition digitVal (c : ascii) : option N :=
  let n := N_of_ascii c in
  if isDigit c then Some (n - 48)%N
  else if ((97 <=? n) && (n <=? 102))%N then Some (n - 87)%N
  else if ((65 <=? n) && (n <=? 70))%N then Some (n - 55)%N
  else None.

(** The longest prefix of digits, and what follows it. *)
Fixpoint spanDigits (s : string) : string * string :=
  match s with
  | "" => ("", "")
  | String c s' =>
      if isDigit c then let (d, r) := spanDigits s' in (String c d, r)
      else ("", s)
  end.

(** The value of a non-empty numeral in the given base; [None] when a
    character is not a digit of that base. *)
Fixpoint numeralFrom (base acc : N) (s : string) : option N :=
  match s with
  | "" => Some acc
  | String c s' =>
      match digitVal c with
      | Some d => if (d <? base)%N then numeralFrom base (acc * base + d) s'
                  else None
      | None => None
      end
  end.

Definition numeral (base : N) (s : string) : option N :=
  match s with "" => None | _ => numeralFrom base 0 s end.

(** [0x..], [0o..] and [0b..] literals. *)
Definition nonDecimal (s : string) : option N :=
  match s with
  | String "0" (String p r) =>
      if ((p =? "x") || (p =? "X"))%char then numeral 16 r
      else if ((p =? "o") || (p =? "O"))%char then numeral 8 r
      else if ((p =? "b") || (p =? "B"))%char then numeral 2 r
      else None
  | _ => None
  end.

(** The exponent part: nothing, or [e] or [E], an optional sign, digits. *)
Definition exponentPart (s : string) : option Z :=
  match s with
  | "" => Some 0%Z
  | String c r =>
      if ((c =? "e") || (c =? "E"))%char then
        match r with
        | String "+" d => option_map Z.of_N (numeral 10 d)
        | String "-" d => option_map (fun n => (- Z.of_N n)%Z) (numeral 10 d)
        | _ => option_map Z.of_N (numeral 10 r)
        end
      else None
  end.

(** [digits * 10^(e - fracLen)], signed. *)
Definition mkDec (negative : bool) (digits : N) (fracLen : nat) (e : Z)
  : number :=
  let m := if negative then (- Z.of_N digits)%Z else Z.of_N digits in
  let sh := (e - Z.of_nat fracLen)%Z in
  if (0 <=? sh)%Z then Dec (m * 10 ^ sh) 0
  else canon m (Z.to_nat (- sh)).

Definition unsignedDecimal (negative : bool) (s : string) : number :=
  if (s =? "Infinity")%string then Infinity negative
  else
    let (ip, r1) := spanDigits s in
    let (fp, r2) :=
      match r1 with
      | String "." r => let (f, r') := spanDigits r in (Some f, r')
      | _ => (None, r1)
      end in
    let fdigits := match fp with Some f => f | None => "" end in
    if isEmpty ip && isEmpty fdigits then NaN
    else
      match numeralFrom 10 0 (ip ++ fdigits), exponentPart r2 with
      | Some n, Some e => mkDec negative n (String.length fdigits) e
      | _, _ => NaN
      end.

(** [Number(s)] on a string. *)
Definition Number (s : string) : number :=
  let t := trim s in
  if isEmpty t then Dec 0 0
  else
    match nonDecimal t with
    | Some n => Dec (Z.of_N n) 0
    | None =>
        match t with
        | String "+" r => unsignedDecimal false r
        | String "-" r => unsignedDecimal true r
        | _ => unsignedDecimal false t
        end
    end.

Definition digitsOf (n : N) : string :=
  NilZero.string_of_uint (N.to_uint n).

Fixpoint stripZeros (s : string) : string :=
  match s with
  | "" => ""
  | String c s' =>
      match stripZeros s' with
      | "" => if (c =? "0")%char then "" else str1 c
      | r => String c r
      end
  end.

(** [String(x)]: the digits [ds] of the number without trailing zeros,
    their count [k], and [n] the position of the decimal point. *)
Definition toString (x : number) : string :=
  match x with
  | NaN => "NaN"
  | Infinity false => "Infinity"
  | Infinity true => "-Infinity"
  | Dec m scale =>
      if (m =? 0)%Z then "0"
      else
        let all := digitsOf (Z.abs_N m) in
        let ds := stripZeros all in
        let k := Z.of_nat (String.length ds) in
        let n := (Z.of_nat (String.length all) - Z.of_nat scale)%Z in
        (if (m <? 0)%Z then "-" else "") ++
        (if ((k <=? n) && (n <=? 21))%Z then
           ds ++ repeatChar "0" (Z.to_nat (n - k))
         else if ((0 <? n) && (n <=? 21))%Z then
           take (Z.to_nat n) ds ++ "." ++ drop (Z.to_nat n) ds
         else if ((-6 <? n) && (n <=? 0))%Z then
           "0." ++ repeatChar "0" (Z.to_nat (- n)) ++ ds
         else
           let e := (n - 1)%Z in
           take 1 ds ++ (if (k =? 1)%Z then "" else "." ++ drop 1 ds)
           ++ "e" ++ (if (e <? 0)%Z then "-" else "+")
           ++ digitsOf (Z.abs_N e))
  end.

End Js.
Import Js.

(** ** value.ts: the value model *)

Module Value.

(** [OrtValueType]: the payload of an [OrtValue], and also the native data
    [toNative] returns and the constructor accepts. *)
Inductive value : Type :=
| VNull
| VBool (b : bool)
| VNum (n : number)
| VStr (s : string)
| VArr (items : list value)
| VObj (entries : list (string * value)).

Definition entries := list (string * value).

(** An array index in the sense of the language: the canonical decimal
    form of an integer below [2^32 - 1].  Such keys are listed first by
    [Object.keys], in ascending order. *)
Definition arrayIndex (k : string) : option N :=
  match numeral 10 k with
  | Some n => if (digitsOf n =? k)%string && (n <? 4294967295)%N
              then Some n else None
  | None => None
  end.

(** Plain objects, whatever their properties hold. *)
Section Objects.

Context {A : Type}.

(** [obj[k]] on own properties; [None] is [undefined]. *)
Fixpoint objGet (k : string) (obj : list (string * A)) : option A :=
  match obj with
  | [] => None
  | (k', v) :: rest => if (k' =? k)%string then Some v else objGet k rest
  end.

Definition hasKey (k : string) (obj : list (string * A)) : bool :=
  match objGet k obj with Some _ => true | None => false end.

Fixpoint replaceKey (k : string) (v : A) (obj : list (string * A))
  : list (string * A) :=
  match obj with
  | [] => []
  | (k', v') :: rest =>
      if (k' =? k)%string then (k, v) :: rest
      else (k', v') :: replaceKey k v rest
  end.

(** Where a new index key [n] goes: before the first key that is not an
    index or is a larger one. *)
Fixpoint insertIndex (n : N) (k : string) (v : A) (obj : list (string * A))
  : list (string * A) :=
  match obj with
  | [] => [(k, v)]
  | (k', v') :: rest =>
      match arrayIndex k' with
      | Some n' => if (n' <? n)%N then (k', v') :: insertIndex n k v rest
                   else (k, v) :: obj
      | None => (k, v) :: obj
      end
  end.

(** The assignment [obj[k] = v].  An existing property keeps its place;
    a new one goes last, or among the index keys when it is one.
    Assigning to ["__proto__"] creates no own property. *)
Definition objSet (k : string) (v : A) (obj : list (string * A))
  : list (string * A) :=
  if (k =? "__proto__")%string then obj
  else if hasKey k obj then replaceKey k v obj
  else match arrayIndex k with
       | Some n => insertIndex n k v obj
       | None => (obj ++ [(k, v)])%list
       end.

(** [result = {}; for (const [k, v] of entries) result[k] = v]. *)
Definition fromEntries (es : list (string * A)) : list (string * A) :=
  fold_left (fun acc kv => objSet (fst kv) (snd kv) acc) es [].

Definition keysOf (obj : list (string * A)) : list string := map fst obj.

End Objects.

(** [normalize]: the deep copy the constructor stores in [_value]. *)
Fixpoint normalize (v : value) : value :=
  match v with
  | VArr items => VArr (map normalize items)
  | VObj es => VObj (fromEntries (map (fun kv => (fst kv, normalize (snd kv))) es))
  | _ => v
  end.

(** [createOrtValue(x)] and [new OrtValue(x)]: an [OrtValue] is
    represented by its [_value]. *)
Definition createOrtValue (x : value) : value := normalize x.

Fixpoint toNative (v : value) : value :=
  match v with
  | VArr items => VArr (map toNative items)
  | VObj es => VObj (fromEntries (map (fun kv => (fst kv, toNative (snd kv))) es))
  | _ => v
  end.

Definition isNull (v : value) : bool :=
  match v with VNull => true | _ => false end.
Definition isArray (v : value) : bool :=
  match v with VArr _ => true | _ => false end.
Definition isObject (v : value) : bool :=
  match v with VObj _ => true | _ => false end.

Definition asArray (v : value) : option (list value) :=
  match v with VArr items => Some (map createOrtValue items) | _ => None end.

(** [obj[key]] reads an own property of [obj] or, when there is none,
    what the prototype chain of [obj] holds under the key: a value, or a
    function (the methods of the built-in prototypes).  A payload is made
    from [{}] by assignments, so that its chain is [Object.prototype]
    unless an assignment to [__proto__] has put another object, or
    [null], in its place.  The chain is a parameter: what it answers for
    each key. *)
Inductive property : Type :=
| DataProperty (v : value)
| FunctionProperty.

Definition prototype : Type := string -> option property.

(** The methods of [Object.prototype]. *)
Definition objectPrototypeMethods : list string :=
  ["constructor"; "hasOwnProperty"; "isPrototypeOf"; "propertyIsEnumerable";
   "toLocaleString"; "toString"; "valueOf"; "__defineGetter__";
   "__defineSetter__"; "__lookupGetter__"; "__lookupSetter__"].

(** [Object.prototype], the chain of a plain object.  Its accessor
    [__proto__] gives the prototype of the receiver, here
    [Object.prototype] itself: an object without enumerable properties. *)
Definition ObjectPrototype : prototype :=
  fun key =>
    if (key =? "__proto__")%string then Some (DataProperty (VObj []))
    else if existsb (String.eqb key) objectPrototypeMethods
    then Some FunctionProperty
    else None.

(** [obj[key]]; [None] is [undefined]. *)
Definition propGet (proto : prototype) (key : string) (obj : entries)
  : option property :=
  match objGet key obj with
  | Some v => Some (DataProperty v)
  | None => proto key
  end.

(** [x ?? defaultValue]. *)
Definition orDefault (x : option property) (d : value) : property :=
  match x with
  | None | Some (DataProperty VNull) => DataProperty d
  | Some p => p
  end.

(** What a call gives: it returns, or [normalize] throws its
    [TypeError]. *)
Inductive completion : Type :=
| Returns (v : value)
| ThrowsTypeError (message : string).

(** [new OrtValue(x)] on what a property read gave: the last case of
    [normalize] throws on a function. *)
Definition newOrtValueOf (x : property) : completion :=
  match x with
  | DataProperty v => Returns (createOrtValue v)
  | FunctionProperty => ThrowsTypeError "Unsupported type for OrtValue: function"
  end.

(** [getOrDefault] on a receiver whose payload has the chain [proto]. *)
Definition getOrDefault (proto : prototype) (this : value) (key : string)
    (defaultValue : value) : completion :=
  match this with
  | VObj obj => newOrtValueOf (orDefault (propGet proto key obj) defaultValue)
  | _ => newOrtValueOf (DataProperty defaultValue)
  end.

End Value.
Import Value.

(** ** generator.ts *)

Module Generator.

Definition escapeChar (ch : ascii) : string :=
  if (ch =? "(")%char then "\("
  else if (ch =? ")")%char then "\)"
  else if (ch =? "[")%char then "\["
  else if (ch =? "]")%char then "\]"
  else if (ch =? ",")%char then "\,"
  else if (ch =? BACKSLASH)%char then "\\"
  else if (ch =? LF)%char then "\n"
  else if (ch =? TAB)%char then "\t"
  else if (ch =? CR)%char then "\r"
  else str1 ch.

Fixpoint escape (s : string) : string :=
  match s with
  | "" => ""
  | String ch s' => escapeChar ch ++ escape s'
  end.

(** [generateValue(value, inline)]; the source never reads [inline] here.
    The array case is [`[${generateArrayContent(value, true)}]`] and the
    object case is [generateInlineObject(value)], both written in place. *)
Fixpoint generateValue (v : value) (inline : bool) : string :=
  match v with
  | VNull => ""
  | VBool b => if b then "true" else "false"
  | VNum n => toString n
  | VStr s => escape s
  | VArr [] => "[]"
  | VArr items =>
      "[" ++ join "," (map (fun x => generateValue x true) items) ++ "]"
  | VObj [] => "()"
  | VObj es =>
      "(" ++ join ","
               (map (fun kv => fst kv ++ ":" ++ generateValue (snd kv) true) es)
          ++ ")"
  end.

Definition generateArrayContent (arr : list value) (inline : bool) : string :=
  match arr with
  | [] => "[]"
  | _ =>
      let values := map (fun v => generateValue v inline) arr in
      if inline then join "," values else "[" ++ join "," values ++ "]"
  end.

Definition generateInlineObject (obj : entries) : string :=
  "(" ++ join ","
           (map (fun kv => fst kv ++ ":" ++ generateValue (snd kv) true) obj)
      ++ ")".

(** Insertion sort under the code-unit order, for [keys.sort()]. *)
Fixpoint insertSorted (k : string) (l : list string) : list string :=
  match l with
  | [] => [k]
  | h :: t => if String.leb k h then k :: l else h :: insertSorted k t
  end.

Definition sortKeys (l : list string) : list string :=
  fold_right insertSorted [] l.

Definition keysEqb (a b : list string) : bool :=
  if list_eq_dec string_dec a b then true else false.

(** [JSON.stringify(keys) !== JSON.stringify(firstKeys)] compares the two
    sorted key lists. *)
Definition isUniformObjectArray (arr : list value) : bool :=
  match arr with
  | [] => false
  | VObj first :: rest =>
      let firstKeys := sortKeys (keysOf first) in
      forallb (fun item =>
                 match item with
                 | VObj es => keysEqb (sortKeys (keysOf es)) firstKeys
                 | _ => false
                 end) rest
  | _ :: _ => false
  end.

(** [generateHeaderFields(keys, obj)] with [keys = Object.keys(obj)]: one
    part per property, in order.  The recursion is on the object value. *)
Fixpoint headerFieldsOf (v : value) : string :=
  match v with
  | VObj es =>
      join ","
        (map (fun kv =>
                match snd kv with
                | VObj _ => fst kv ++ "(" ++ headerFieldsOf (snd kv) ++ ")"
                | _ => fst kv
                end) es)
  | _ => ""
  end.

Definition generateHeaderFields (obj : entries) : string :=
  headerFieldsOf (VObj obj).

Definition generateHeader (firstObj : entries) : string :=
  generateHeaderFields firstObj ++ ":".

(** [generateObjectFieldValue(value, keys, currentKey, parent)]; only
    [value] is read. *)
Fixpoint generateObjectFieldValue (v : value) : string :=
  match v with
  | VNull => ""
  | VObj [] => "()"
  | VObj es =>
      "(" ++ join "," (map (fun kv => generateObjectFieldValue (snd kv)) es)
          ++ ")"
  | VArr [] => "[]"
  | VArr items => "[" ++ generateArrayContent items true ++ "]"
  | _ => generateValue v true
  end.

(** [item[k]] for a row. *)
Definition fieldOf (k : string) (item : value) : option value :=
  match item with VObj es => objGet k es | _ => None end.

Definition generateRow (keys : list string) (item : value) : string :=
  join ","
    (map (fun k => match fieldOf k item with
                   | Some x => generateObjectFieldValue x
                   | None => ""
                   end) keys).

Definition firstEntries (arr : list value) : entries :=
  match arr with VObj es :: _ => es | _ => [] end.

Definition generateObjectArray (key : string) (arr : list value) : string :=
  match arr with
  | [] => key ++ ":" ++ str1 LF ++ "[]"
  | _ =>
      let first := firstEntries arr in
      let keys := keysOf first in
      join (str1 LF)
        ((key ++ ":" ++ generateHeader first) :: map (generateRow keys) arr)
  end.

Definition generateTopLevelObjectArray (arr : list value) : string :=
  match arr with
  | [] => ":[]"
  | _ =>
      let first := firstEntries arr in
      let keys := keysOf first in
      join (str1 LF)
        ((":" ++ generateHeader first) :: map (generateRow keys) arr)
  end.

Definition generateSimpleArray (key : string) (arr : list value) : string :=
  key ++ ":" ++ str1 LF ++ generateArrayContent arr false.

(** One block of [generateMultiObject], before the separator. *)
Definition generateBlock (key : string) (val : value) : string :=
  match createOrtValue val with
  | VArr [] => key ++ ":" ++ str1 LF ++ "[]"
  | VArr items =>
      let arrList := map toNative (map createOrtValue items) in
      if isUniformObjectArray arrList
      then trimEnd (generateObjectArray key arrList)
      else trimEnd (generateSimpleArray key arrList)
  | _ => key ++ ":" ++ str1 LF ++ generateValue val false
  end.

Fixpoint generateMultiObject (obj : entries) : string :=
  match obj with
  | [] => ""
  | [(key, val)] => generateBlock key val ++ str1 LF
  | (key, val) :: rest =>
      generateBlock key val ++ str1 LF ++ str1 LF ++ generateMultiObject rest
  end.

Definition generateOrt (value : value) : string :=
  match value with
  | VObj _ =>
      match toNative value with
      | VObj [(key, val)] =>
          match createOrtValue val with
          | VArr [] => key ++ ":" ++ str1 LF ++ "[]"
          | VArr items =>
              let arrList := map toNative (map createOrtValue items) in
              if isUniformObjectArray arrList
              then generateObjectArray key arrList
              else generateSimpleArray key arrList
          | _ => key ++ ":" ++ str1 LF ++ generateValue val false
          end
      | VObj objNative => generateMultiObject objNative
      | _ => ""
      end
  | VArr items =>
      let arrList := map toNative (map createOrtValue items) in
      if isUniformObjectArray arrList
      then generateTopLevelObjectArray arrList
      else ":" ++ generateArrayContent arrList false
  | _ => generateValue (toNative value) false
  end.

(** [generate] of [index.ts]. *)
Definition generate (x : value) : string := generateOrt (createOrtValue x).

End Generator.
Import Generator.

(** ** parser.ts *)

Module Parser.

Record OrtParseError : Type := mkError {
  lineNum : nat;
  line : string;
  message : string
}.

(** What a call produces: a result, a thrown [OrtParseError], or nothing
    because the recursion budget of the model ran out. *)
Inductive outcome (A : Type) : Type :=
| Ok (a : A)
| Throw (e : OrtParseError)
| OutOfFuel.
Arguments Ok {A} a.
Arguments Throw {A} e.
Arguments OutOfFuel {A}.

Definition bind {A B : Type} (m : outcome A) (f : A -> outcome B)
  : outcome B :=
  match m with
  | Ok a => f a
  | Throw e => Throw e
  | OutOfFuel => OutOfFuel
  end.

Notation "x <- m ;; k" := (bind m (fun x => k))
  (at level 61, m at next level, right associativity).

Inductive Field : Type :=
| createField (name : string) (nestedFields : list Field).

Definition name (f : Field) : string :=
  match f with createField n _ => n end.
Definition nestedFields (f : Field) : list Field :=
  match f with createField _ fs => fs end.

Definition isNestedField (field : Field) : bool :=
  (0 <? List.length (nestedFields field))%nat.

(** A line the scan passes over: blank, or a comment. *)
Definition isSkipped (line : string) : bool :=
  isEmpty line || startsWith "#" line.

Definition isHeader (line : string) : bool :=
  let trimmed := trim line in
  if startsWith ":" trimmed then true
  else
    let parts := split ":" trimmed in
    (2 <=? List.length parts)%nat && isEmpty (last parts "x").

Definition parseHeader (line : string) (lineNum : nat)
  : outcome (option string * string) :=
  if startsWith ":" line then
    Ok (None, dropFinalColon (drop 1 line))
  else
    match indexOf ":" line with
    | None => Throw (mkError lineNum line "Invalid header format")
    | Some colonIndex =>
        let key := trim (substring 0 colonIndex line) in
        let fields := trim (dropFinalColon (drop (colonIndex + 1) line)) in
        Ok (Some key, fields)
    end.

(** The inner [while] of [parseFields]: collects the text up to the
    parenthesis that closes the group; returns it with the text left. *)
Fixpoint scanNested (chars : string) (nestedDepth : Z) (nestedStr : string)
  : string * string :=
  match chars with
  | "" => (nestedStr, "")
  | String c rest =>
      let d := if (c =? "(")%char then (nestedDepth + 1)%Z
               else if (c =? ")")%char then (nestedDepth - 1)%Z
               else nestedDepth in
      if (0 <? d)%Z then scanNested rest d (nestedStr ++ str1 c)
      else (nestedStr, rest)
  end.

Definition pushField (field : string) (result : list Field) : list Field :=
  if isEmpty field then result else (result ++ [createField field []])%list.

(** The outer [while] of [parseFields], from the character at [chars] on.
    The call on the nested text is the same loop started afresh. *)
Fixpoint parseFieldsLoop (fuel : nat) (line : string) (lineNum : nat)
    (chars : string) (result : list Field) (current : string) (depth : Z)
  : outcome (list Field) :=
  match fuel with
  | 0 => OutOfFuel
  | S fuel' =>
      match chars with
      | "" => Ok (pushField (trim current) result)
      | String ch rest =>
          if (ch =? "(")%char then
            if (depth =? 0)%Z then
              let fieldName := trim current in
              let (nestedStr, rest') := scanNested rest 1 "" in
              nested <- (if isEmpty nestedStr then Ok []
                         else parseFieldsLoop fuel' line lineNum nestedStr
                                [] "" 0%Z) ;;
              parseFieldsLoop fuel' line lineNum rest'
                (result ++ [createField fieldName nested])%list "" depth
            else
              parseFieldsLoop fuel' line lineNum rest result
                (current ++ str1 ch) (depth + 1)%Z
          else if (ch =? ")")%char then
            if (depth - 1 <? 0)%Z then
              Throw (mkError lineNum line "Unmatched closing parenthesis")
            else
              parseFieldsLoop fuel' line lineNum rest result
                (current ++ str1 ch) (depth - 1)%Z
          else if (ch =? ",")%char then
            if (depth =? 0)%Z then
              parseFieldsLoop fuel' line lineNum rest
                (pushField (trim current) result) "" depth
            else
              parseFieldsLoop fuel' line lineNum rest result
                (current ++ str1 ch) depth
          else
            parseFieldsLoop fuel' line lineNum rest result
              (current ++ str1 ch) depth
      end
  end.

Definition parseFields (fieldsStr line : string) (lineNum : nat)
  : outcome (list Field) :=
  if isEmpty fieldsStr then Ok []
  else parseFieldsLoop (S (String.length fieldsStr)) line lineNum
         fieldsStr [] "" 0%Z.

(** The loop shared, letter for letter, by [parseDataValues], [parseArray]
    and [splitPairs]: what one character does to the piece being read and
    to the two depth counters. *)
Inductive action : Type :=
| Keep (escaped : bool) (depth bracketDepth : Z)
| Cut.

Definition scanChar (ch : ascii) (escaped : bool) (depth bracketDepth : Z)
  : action :=
  if escaped then Keep false depth bracketDepth
  else if (ch =? BACKSLASH)%char then Keep true depth bracketDepth
  else if (ch =? "(")%char then Keep false (depth + 1)%Z bracketDepth
  else if (ch =? ")")%char then Keep false (depth - 1)%Z bracketDepth
  else if (ch =? "[")%char then Keep false depth (bracketDepth + 1)%Z
  else if (ch =? "]")%char then Keep false depth (bracketDepth - 1)%Z
  else if (ch =? ",")%char then
    if ((depth =? 0) && (bracketDepth =? 0))%Z then Cut
    else Keep false depth bracketDepth
  else Keep false depth bracketDepth.

Fixpoint parseDataValuesLoop (chars : string) (values : list string)
    (current : string) (escaped : bool) (depth bracketDepth : Z)
  : list string :=
  match chars with
  | "" => (values ++ [current])%list
  | String ch rest =>
      match scanChar ch escaped depth bracketDepth with
      | Keep e d b =>
          parseDataValuesLoop rest values (current ++ str1 ch) e d b
      | Cut =>
          parseDataValuesLoop rest (values ++ [current])%list "" escaped
            depth bracketDepth
      end
  end.

Definition parseDataValues (line : string) : list string :=
  parseDataValuesLoop line [] "" false 0%Z 0%Z.

Fixpoint splitPairsLoop (chars : string) (pairs : list string)
    (current : string) (escaped : bool) (depth bracketDepth : Z)
  : list string :=
  match chars with
  | "" =>
      let currentStr := trim current in
      if isEmpty currentStr then pairs else (pairs ++ [currentStr])%list
  | String ch rest =>
      match scanChar ch escaped depth bracketDepth with
      | Keep e d b => splitPairsLoop rest pairs (current ++ str1 ch) e d b
      | Cut =>
          splitPairsLoop rest (pairs ++ [current])%list "" escaped
            depth bracketDepth
      end
  end.

Definition splitPairs (s : string) : list string :=
  splitPairsLoop s [] "" false 0%Z 0%Z.

Fixpoint unescapeLoop (s : string) (escaped : bool) : string :=
  match s with
  | "" => ""
  | String ch rest =>
      if escaped then
        String (if (ch =? "n")%char then LF
                else if (ch =? "t")%char then TAB
                else if (ch =? "r")%char then CR
                else ch)
               (unescapeLoop rest false)
      else if (ch =? BACKSLASH)%char then unescapeLoop rest true
      else String ch (unescapeLoop rest false)
  end.

Definition unescape (s : string) : string := unescapeLoop s false.

(** The last case of [parseValue]: a scalar. *)
Definition parseScalar (trimmed : string) : value :=
  let unescaped := unescape trimmed in
  let num := Number unescaped in
  if negb (isNaN num) then createOrtValue (VNum num)
  else if (unescaped =? "true")%string then createOrtValue (VBool true)
  else if (unescaped =? "false")%string then createOrtValue (VBool false)
  else createOrtValue (VStr unescaped).

(** [parseValue], [parseArray] and [parseInlineObject] call one another;
    here the call back to [parseValue] is the parameter [parseValue'].
    Their [line] and [lineNum] arguments are only handed on and never
    read, none of the three throws: the model leaves them out. *)
Section ParseValue.

Variable parseValue' : string -> outcome value.

Fixpoint parseArrayLoop (chars : string) (result : list value)
    (current : string) (escaped : bool) (depth bracketDepth : Z)
  : outcome value :=
  match chars with
  | "" =>
      let currentStr := trim current in
      if isEmpty currentStr then Ok (createOrtValue (VArr result))
      else
        value <- parseValue' currentStr ;;
        Ok (createOrtValue (VArr (result ++ [toNative value])%list))
  | String ch rest =>
      match scanChar ch escaped depth bracketDepth with
      | Keep e d b => parseArrayLoop rest result (current ++ str1 ch) e d b
      | Cut =>
          value <- parseValue' current ;;
          parseArrayLoop rest (result ++ [toNative value])%list "" escaped
            depth bracketDepth
      end
  end.

Definition parseArray (s : string) : outcome value :=
  if isEmpty (trim s) then Ok (createOrtValue (VArr []))
  else parseArrayLoop s [] "" false 0%Z 0%Z.

Fixpoint parsePairs (pairs : list string) (obj : entries) : outcome value :=
  match pairs with
  | [] => Ok (createOrtValue (VObj obj))
  | pr :: rest =>
      match indexOf ":" pr with
      | Some colonIndex =>
          let key := trim (substring 0 colonIndex pr) in
          let valueStr := trim (drop (colonIndex + 1) pr) in
          value <- parseValue' valueStr ;;
          parsePairs rest (objSet key (toNative value) obj)
      | None => parsePairs rest obj
      end
  end.

Definition parseInlineObject (s : string) : outcome value :=
  if isEmpty (trim s) then Ok (createOrtValue (VObj []))
  else parsePairs (splitPairs s) [].

Definition parseValueBody (s : string) : outcome value :=
  let trimmed := trim s in
  if isEmpty trimmed then Ok (createOrtValue VNull)
  else if (trimmed =? "[]")%string then Ok (createOrtValue (VArr []))
  else if (trimmed =? "()")%string then Ok (createOrtValue (VObj []))
  else if startsWith "[" trimmed && endsWith "]" trimmed then
    parseArray (inner trimmed)
  else if startsWith "(" trimmed && endsWith ")" trimmed then
    parseInlineObject (inner trimmed)
  else Ok (parseScalar trimmed).

End ParseValue.

Fixpoint parseValueF (fuel : nat) (s : string) : outcome value :=
  match fuel with
  | 0 => OutOfFuel
  | S fuel' => parseValueBody (parseValueF fuel') s
  end.

(** Every nested call is on a text at least two characters shorter. *)
Definition parseValue (s : string) : outcome value :=
  parseValueF (S (String.length s)) s.

Definition arityError (lineNum : nat) (line : string) (what : string)
    (expected actual : nat) : OrtParseError :=
  mkError lineNum line
    ("Expected " ++ ofNat expected ++ what ++ " but got " ++ ofNat actual).

Fixpoint parseFieldValue (field : Field) (valueStr line : string)
    (lineNum : nat) {struct field} : outcome value :=
  match field with
  | createField _ nested =>
      if negb (isNestedField field) then parseValue valueStr
      else
        let trimmed := trim valueStr in
        if isEmpty trimmed then Ok (createOrtValue VNull)
        else if (trimmed =? "()")%string then Ok (createOrtValue (VObj []))
        else if startsWith "[" trimmed && endsWith "]" trimmed then
          parseValue trimmed
        else if negb (startsWith "(" trimmed) || negb (endsWith ")" trimmed)
        then parseValue trimmed
        else
          let values := parseDataValues (inner trimmed) in
          if negb (List.length values =? List.length nested)%nat then
            Throw (arityError lineNum line " nested values"
                     (List.length nested) (List.length values))
          else
            (fix fill (fs : list Field) (vs : list string) (obj : entries)
               : outcome value :=
               match fs, vs with
               | nestedField :: fs', valueStr :: vs' =>
                   value <- parseFieldValue nestedField valueStr line
                              lineNum ;;
                   fill fs' vs' (objSet (name nestedField) (toNative value) obj)
               | _, _ => Ok (createOrtValue (VObj obj))
               end) nested values []
  end.

(** The [for j] loop of [parseDataLines] that fills one record. *)
Fixpoint fillRecord (fields : list Field) (values : list string)
    (line : string) (lineNum : nat) (obj : entries) : outcome entries :=
  match fields, values with
  | field :: fields', valueStr :: values' =>
      value <- parseFieldValue field valueStr line lineNum ;;
      fillRecord fields' values' line lineNum
        (objSet (name field) (toNative value) obj)
  | _, _ => Ok obj
  end.

(** The [for i] loop of [parseDataLines]; [rest] is [lines] from index
    [i] on. *)
Fixpoint parseDataLinesLoop (rest : list string) (i : nat)
    (fields : list Field) (count processed : nat) (result : list value)
  : outcome value :=
  match rest with
  | [] => Ok (createOrtValue (VArr result))
  | raw :: rest' =>
      if (count <=? processed)%nat then Ok (createOrtValue (VArr result))
      else
        let line := trim raw in
        if isSkipped line then
          parseDataLinesLoop rest' (S i) fields count processed result
        else
          let lineNum := i + 1 in
          if (List.length fields =? 0)%nat then parseValue line
          else
            let values := parseDataValues line in
            if negb (List.length values =? List.length fields)%nat then
              Throw (arityError lineNum line " values"
                       (List.length fields) (List.length values))
            else
              obj <- fillRecord fields values line lineNum [] ;;
              parseDataLinesLoop rest' (S i) fields count (S processed)
                (result ++ [VObj obj])%list
  end.

Definition parseDataLines (lines : list string) (startIdx : nat)
    (fields : list Field) (count : nat) : outcome value :=
  parseDataLinesLoop (skipn startIdx lines) startIdx fields count 0 [].

(** The counting loop of [parseSection]; [rest] is [lines] after the
    header. *)
Fixpoint countDataLines (rest : list string) (dataLines : nat) : nat :=
  match rest with
  | [] => dataLines
  | raw :: rest' =>
      let l := trim raw in
      if isSkipped l then countDataLines rest' dataLines
      else if includes ":" l && isHeader l then dataLines
      else countDataLines rest' (S dataLines)
  end.

Definition parseSection (lines : list string) (startIdx : nat)
  : outcome (option string * list Field * nat) :=
  let line := trim (nth startIdx lines "") in
  let lineNum := startIdx + 1 in
  let dataLines := countDataLines (skipn (startIdx + 1) lines) 0 in
  h <- parseHeader line lineNum ;;
  fields <- parseFields (snd h) line lineNum ;;
  Ok (fst h, fields, dataLines).

(** The [while] loop of [parseOrt]. *)
Fixpoint parseOrtLoop (fuel : nat) (lines : list string) (lineIdx : nat)
    (result : entries) : outcome value :=
  match fuel with
  | 0 => OutOfFuel
  | S fuel' =>
      if (List.length lines <=? lineIdx)%nat then
        Ok (createOrtValue (VObj result))
      else
        let line := trim (nth lineIdx lines "") in
        if isSkipped line then parseOrtLoop fuel' lines (S lineIdx) result
        else if includes ":" line then
          sec <- parseSection lines lineIdx ;;
          let '(key, fields, dataLines) := sec in
          match key with
          | Some key =>
              values <- parseDataLines lines (lineIdx + 1) fields dataLines ;;
              parseOrtLoop fuel' lines (lineIdx + (dataLines + 1))
                (objSet key (toNative values) result)
          | None =>
              values <- parseDataLines lines (lineIdx + 1) fields dataLines ;;
              if (0 <? List.length fields)%nat && (dataLines =? 1)%nat then
                match asArray values with
                | Some [x] => Ok x
                | _ => Ok values
                end
              else Ok values
          end
        else parseOrtLoop fuel' lines (S lineIdx) result
  end.

(** Every turn of the loop moves [lineIdx] forward, so one more turn than
    there are lines is enough. *)
Definition parseOrt (content : string) : outcome value :=
  let lines := split LF content in
  parseOrtLoop (S (List.length lines)) lines 0 [].

(** [parse] of [index.ts]. *)
Definition parse (content : string) : outcome value := parseOrt content.

End Parser.
Import Parser.

Definition lines (l : list string) : string := join (str1 LF) l.

(** ** value.ts on a store: [normalize], [get] and [set] with sharing

    Arrays, plain objects and [OrtValue] instances are cells of a store
    and the values that refer to them hold their addresses, so that two
    values can share a cell.  A new cell goes at the end of the store. *)

Module Store.

Definition loc := nat.

Inductive jsval : Type :=
| JNull
| JBool (b : bool)
| JNum (n : number)
| JStr (s : string)
| JRef (l : loc).

Inductive cell : Type :=
| CArr (items : list jsval)
| CObj (props : list (string * jsval))
| COrt (payload : jsval).

Definition heap := list cell.

Definition alloc (h : heap) (c : cell) : heap * jsval :=
  ((h ++ [c])%list, JRef (List.length h)).

Fixpoint update {A : Type} (l : list A) (i : nat) (x : A) : list A :=
  match l, i with
  | [], _ => []
  | _ :: t, 0 => x :: t
  | y :: t, S i' => y :: update t i' x
  end.

Inductive jsError : Type :=
| TypeError (msg : string)
| Error (msg : string).

(** What a method call produces; [NoFuel] when the recursion budget of
    the model ran out. *)
Inductive res (A : Type) : Type :=
| Ret (a : A)
| Raise (e : jsError)
| NoFuel.
Arguments Ret {A} a.
Arguments Raise {A} e.
Arguments NoFuel {A}.

(** A key of [get] and [set]: a string, or a number.  The numbers of the
    model are the integers: [NaN] and the fractions, for which both
    bounds tests of [get] and [set] are false, are left out. *)
Inductive key : Type :=
| KStr (s : string)
| KNum (i : Z).

Section Normalize.

(** [new OrtValue(v)._value] for the elements, the parameter [norm]. *)
Variable norm : heap -> jsval -> option (heap * jsval).

(** [value.map(v => new OrtValue(v)._value)]. *)
Fixpoint normalizeItems (items : list jsval) (h : heap) (acc : list jsval)
  : option (heap * list jsval) :=
  match items with
  | [] => Some (h, acc)
  | v :: rest =>
      match norm h v with
      | Some (h', v') => normalizeItems rest h' (acc ++ [v'])%list
      | None => None
      end
  end.

(** [for (const [k, v] of Object.entries(value)) result[k] = ...]. *)
Fixpoint normalizeProps (props : list (string * jsval)) (h : heap)
    (result : list (string * jsval)) : option (heap * list (string * jsval)) :=
  match props with
  | [] => Some (h, result)
  | (k, v) :: rest =>
      match norm h v with
      | Some (h', v') => normalizeProps rest h' (objSet k v' result)
      | None => None
      end
  end.

End Normalize.

(** [normalize(value)].  An array or a plain object is copied into a new
    cell; an [OrtValue] instance gives its own [_value], not a copy.
    The [OrtValue] objects made for the elements are dropped at once and
    get no cell. *)
Fixpoint normalize (fuel : nat) (h : heap) (value : jsval)
  : option (heap * jsval) :=
  match value with
  | JRef l =>
      match fuel with
      | 0 => None
      | S fuel' =>
          match nth_error h l with
          | Some (CArr items) =>
              match normalizeItems (normalize fuel') items h [] with
              | Some (h', items') => Some (alloc h' (CArr items'))
              | None => None
              end
          | Some (COrt payload) => Some (h, payload)
          | Some (CObj props) =>
              match normalizeProps (normalize fuel') props h [] with
              | Some (h', result) => Some (alloc h' (CObj result))
              | None => None
              end
          | None => None
          end
      end
  | _ => Some (h, value)
  end.

(** [new OrtValue(value)]: the address of the new instance. *)
Definition newOrtValue (fuel : nat) (h : heap) (value : jsval)
  : res (heap * loc) :=
  match normalize fuel h value with
  | Some (h', v) => Ret ((h' ++ [COrt v])%list, List.length h')
  | None => NoFuel
  end.

Definition showKey (k : key) : string :=
  match k with KStr s => s | KNum i => toString (Dec i 0) end.

(** The cell [this._value] refers to, when it is an array or an object. *)
Definition payloadCell (h : heap) (this : loc) : option (loc * cell) :=
  match nth_error h this with
  | Some (COrt (JRef o)) =>
      match nth_error h o with
      | Some (COrt _) | None => None
      | Some c => Some (o, c)
      end
  | _ => None
  end.

Definition outOfBounds (i : Z) (items : list jsval) : bool :=
  ((i <? 0) || (Z.of_nat (List.length items) <=? i))%Z.

Definition get (fuel : nat) (h : heap) (this : loc) (k : key)
  : res (heap * loc) :=
  match k, payloadCell h this with
  | KStr s, Some (_, CObj props) =>
      match objGet s props with
      | None => Raise (Error ("Key not found: " ++ s))
      | Some v => newOrtValue fuel h v
      end
  | KStr s, _ =>
      Raise (TypeError ("Cannot index non-object with string key: " ++ s))
  | KNum i, Some (_, CArr items) =>
      if outOfBounds i items then
        Raise (Error ("Index out of bounds: " ++ showKey k))
      else newOrtValue fuel h (nth (Z.to_nat i) items JNull)
  | KNum i, _ =>
      Raise (TypeError ("Cannot index non-array with number: " ++ showKey k))
  end.

Definition set (fuel : nat) (h : heap) (this : loc) (k : key) (value : jsval)
  : res heap :=
  match k, payloadCell h this with
  | KStr s, Some (o, CObj props) =>
      match normalize fuel h value with
      | Some (h', v') => Ret (update h' o (CObj (objSet s v' props)))
      | None => NoFuel
      end
  | KStr s, _ => Raise (TypeError ("Cannot set key on non-object: " ++ s))
  | KNum i, Some (o, CArr items) =>
      if outOfBounds i items then
        Raise (Error ("Index out of bounds: " ++ showKey k))
      else
        match normalize fuel h value with
        | Some (h', v') =>
            Ret (update h' o (CArr (update items (Z.to_nat i) v')))
        | None => NoFuel
        end
  | KNum i, _ =>
      Raise (TypeError ("Cannot set index on non-array: " ++ showKey k))
  end.

(** A run of [set] calls on one receiver; a call that throws leaves the
    store as it was. *)
Fixpoint setAll (h : heap) (this : loc) (calls : list (nat * key * jsval))
  : heap :=
  match calls with
  | [] => h
  | (fuel, k, value) :: rest =>
      match set fuel h this k value with
      | Ret h' => setAll h' this rest
      | _ => setAll h this rest
      end
  end.

(** The tree a stored value stands for; [None] when it is not a finite
    tree of arrays and plain objects within [fuel] levels. *)
Section Reify.

Variable rec : jsval -> option value.

Fixpoint reifyItems (items : list jsval) : option (list value) :=
  match items with
  | [] => Some []
  | v :: rest =>
      match rec v, reifyItems rest with
      | Some t, Some ts => Some (t :: ts)
      | _, _ => None
      end
  end.

Fixpoint reifyProps (props : list (string * jsval)) : option entries :=
  match props with
  | [] => Some []
  | (k, v) :: rest =>
      match rec v, reifyProps rest with
      | Some t, Some ts => Some ((k, t) :: ts)
      | _, _ => None
      end
  end.

End Reify.

Fixpoint reify (fuel : nat) (h : heap) (v : jsval) : option value :=
  match v with
  | JNull => Some VNull
  | JBool b => Some (VBool b)
  | JNum n => Some (VNum n)
  | JStr s => Some (VStr s)
  | JRef l =>
      match fuel with
      | 0 => None
      | S fuel' =>
          match nth_error h l with
          | Some (CArr items) =>
              option_map VArr (reifyItems (reify fuel' h) items)
          | Some (CObj props) =>
              option_map VObj (reifyProps (reify fuel' h) props)
          | _ => None
          end
      end
  end.

(** The value [this.get(k)] reads, when the key or index is there. *)
Definition stored (h : heap) (this : loc) (k : key) : option jsval :=
  match k, payloadCell h this with
  | KStr s, Some (_, CObj props) => objGet s props
  | KNum i, Some (_, CArr items) =>
      if outOfBounds i items then None
      else Some (nth (Z.to_nat i) items JNull)
  | _, _ => None
  end.

End Store.

(** * Notions used in the statements *)

(** The characters [escape] puts a backslash before. *)
Definition needsBackslash (ch : ascii) : bool :=
  (ch =? "(")%char || (ch =? ")")%char || (ch =? "[")%char
  || (ch =? "]")%char || (ch =? ",")%char || (ch =? BACKSLASH)%char.

(** ** Objects: the order of own properties *)

(** [keyBefore k k'] : in an object, [k] may come before [k']. *)
Definition keyBefore (k k' : string) : Prop :=
  match arrayIndex k, arrayIndex k' with
  | Some n, Some n' => (n < n')%N
  | None, Some _ => False
  | _, None => True
  end.

(** The entries of an object as the language keeps them: no key twice,
    no own ["__proto__"], index keys first and ascending. *)
Fixpoint jsOrdered (es : entries) : Prop :=
  match es with
  | [] => True
  | (k, _) :: rest =>
      k <> "__proto__" /\ ~ In k (keysOf rest)
      /\ Forall (keyBefore k) (keysOf rest) /\ jsOrdered rest
  end.

(** A value all of whose objects are so ordered. *)
Fixpoint wf (v : value) : Prop :=
  match v with
  | VArr items =>
      (fix all (l : list value) : Prop :=
         match l with [] => True | x :: l' => wf x /\ all l' end) items
  | VObj es =>
      jsOrdered es
      /\ (fix all (l : entries) : Prop :=
            match l with [] => True | kv :: l' => wf (snd kv) /\ all l' end) es
  | _ => True
  end.

(** ** Sections of a document *)

(** The trimmed text of line [i]. *)
Definition lineAt (ls : list string) (i : nat) : string :=
  trim (nth i ls "").

(** A line the top-level scan steps over: blank, a comment, or without a
    colon. *)
Definition passedOver (line : string) : bool :=
  isSkipped line || negb (includes ":" line).

(** The data lines of a section, read in one pass: the lines after the
    header that are neither blank nor comments, up to the next header,
    each with its index and trimmed. *)
Fixpoint sectionRows (rest : list string) (i : nat) : list (nat * string) :=
  match rest with
  | [] => []
  | raw :: rest' =>
      let l := trim raw in
      if isSkipped l then sectionRows rest' (S i)
      else if includes ":" l && isHeader l then []
      else (i, l) :: sectionRows rest' (S i)
  end.

(** What one data line of a tabular section becomes. *)
Definition parseRow (fields : list Field) (row : nat * string)
  : outcome value :=
  let values := parseDataValues (snd row) in
  if negb (List.length values =? List.length fields)%nat then
    Throw (arityError (fst row + 1) (snd row) " values"
             (List.length fields) (List.length values))
  else
    obj <- fillRecord fields values (snd row) (fst row + 1) [] ;;
    Ok (VObj obj).

Fixpoint parseRows (fields : list Field) (rows : list (nat * string))
    (result : list value) : outcome (list value) :=
  match rows with
  | [] => Ok result
  | row :: rows' =>
      v <- parseRow fields row ;;
      parseRows fields rows' (result ++ [v])%list
  end.

(** The states the [while] loop of [parseOrt] goes through. *)
Inductive reaches (ls : list string) : nat -> entries -> Prop :=
| reach_start : reaches ls 0 []
| reach_pass i r :
    reaches ls i r -> i < List.length ls ->
    passedOver (lineAt ls i) = true ->
    reaches ls (S i) r
| reach_section i r key fields n values :
    reaches ls i r -> i < List.length ls ->
    passedOver (lineAt ls i) = false ->
    parseSection ls i = Ok (Some key, fields, n) ->
    parseDataLines ls (i + 1) fields n = Ok values ->
    reaches ls (i + (n + 1)) (objSet key (toNative values) r).

(** An error of the "Expected N ... but got M" kind, raised for the line
    numbered [n] with trimmed text [l]. *)
Definition isArityError (n : nat) (l : string) (e : OrtParseError) : Prop :=
  exists what expected actual, e = arityError n l what expected actual.

(** ** Tuples with the wrong number of values *)

(** A tuple for a nested field: text in parentheses, other than [()]. *)
Definition isTuple (valueStr : string) : Prop :=
  startsWith "(" (trim valueStr) = true
  /\ endsWith ")" (trim valueStr) = true
  /\ trim valueStr <> "()".

(** [cellMismatch l n field valueStr expected actual]: the text given
    for the nested field is a tuple in which a tuple, this one or one
    inside it, has [actual] values for [expected] nested fields, every
    value that stands before it being parsed.  [cellsMismatch] is the
    same for a list of fields and the values given for them. *)
Inductive cellMismatch (l : string) (n : nat)
  : Field -> string -> nat -> nat -> Prop :=
| mismatch_here field valueStr :
    isNestedField field = true -> isTuple valueStr ->
    List.length (parseDataValues (inner (trim valueStr)))
    <> List.length (nestedFields field) ->
    cellMismatch l n field valueStr
      (List.length (nestedFields field))
      (List.length (parseDataValues (inner (trim valueStr))))
| mismatch_inside field valueStr expected actual :
    isNestedField field = true -> isTuple valueStr ->
    List.length (parseDataValues (inner (trim valueStr)))
    = List.length (nestedFields field) ->
    cellsMismatch l n (nestedFields field)
      (parseDataValues (inner (trim valueStr))) expected actual ->
    cellMismatch l n field valueStr expected actual
with cellsMismatch (l : string) (n : nat)
  : list Field -> list string -> nat -> nat -> Prop :=
| mismatch_first field fields valueStr values expected actual :
    cellMismatch l n field valueStr expected actual ->
    cellsMismatch l n (field :: fields) (valueStr :: values) expected actual
| mismatch_later field fields valueStr values v expected actual :
    parseFieldValue field valueStr l n = Ok v ->
    cellsMismatch l n fields values expected actual ->
    cellsMismatch l n (field :: fields) (valueStr :: values) expected actual.

Scheme cellMismatch_ind' := Induction for cellMismatch Sort Prop
  with cellsMismatch_ind' := Induction for cellsMismatch Sort Prop.

(** ** Uniform arrays and well-nested text *)



(** Text in which every unescaped bracket is matched.  With
    [commas = false] no unescaped comma stands outside the groups. *)
Inductive nested : bool -> string -> Prop :=
| nested_nil commas : nested commas ""
| nested_plain commas c s :
    needsBackslash c = false -> nested commas s -> nested commas (String c s)
| nested_comma s : nested true s -> nested true (String "," s)
| nested_escape commas c s :
    nested commas s -> nested commas (String BACKSLASH (String c s))
| nested_paren commas m s :
    nested true m -> nested commas s ->
    nested commas ("(" ++ m ++ ")" ++ s)
| nested_bracket commas m s :
    nested true m -> nested commas s ->
    nested commas ("[" ++ m ++ "]" ++ s).

(** The state of the scan after [s] when no character of [s] cuts. *)
Fixpoint keeps (s : string) (e : bool) (d b : Z) : option (bool * Z * Z) :=
  match s with
  | "" => Some (e, d, b)
  | String ch rest =>
      match scanChar ch e d b with
      | Keep e' d' b' => keeps rest e' d' b'
      | Cut => None
      end
  end.



(** What [parseArray] does with the pieces of its text: each but the last
    is parsed as it is, the last one trimmed and parsed unless empty. *)
Fixpoint parseItems (rec : string -> outcome value) (pieces : list string)
    (result : list value) : outcome value :=
  match pieces with
  | [] => Ok (createOrtValue (VArr result))
  | [p] =>
      if isEmpty (trim p) then Ok (createOrtValue (VArr result))
      else
        v <- rec (trim p) ;;
        Ok (createOrtValue (VArr (result ++ [toNative v])%list))
  | p :: rest =>
      v <- rec p ;;
      parseItems rec rest (result ++ [toNative v])%list
  end.

(** What [splitPairs] does with the last piece. *)
Definition trimLast (pieces : list string) : list string :=
  (removelast pieces
   ++ (if isEmpty (trim (last pieces "")) then [] else [trim (last pieces "")]))%list.

(** ** Top-level commas *)

(** Whether the character that follows [s] is escaped, [escaped] telling
    it for the first character of [s]: a backslash that is not itself
    escaped escapes the next character, and only that one. *)
Fixpoint escapedAfter (s : string) (escaped : bool) : bool :=
  match s with
  | "" => escaped
  | String ch rest =>
      escapedAfter rest (if escaped then false else (ch =? BACKSLASH)%char)
  end.

(** The number of occurrences of [c] in [s] that are not escaped. *)
Fixpoint unescapedCount (c : ascii) (s : string) (escaped : bool) : Z :=
  match s with
  | "" => 0
  | String ch rest =>
      if escaped then unescapedCount c rest false
      else ((if (ch =? c)%char then 1 else 0)
            + unescapedCount c rest (ch =? BACKSLASH)%char)%Z
  end.

(** The two depths after the text [s]: the unescaped opening characters
    of a kind less the closing ones.  Each counts its own kind only, and
    can be negative. *)
Definition parenDepth (s : string) : Z :=
  (unescapedCount "(" s false - unescapedCount ")" s false)%Z.

Definition bracketDepth (s : string) : Z :=
  (unescapedCount "[" s false - unescapedCount "]" s false)%Z.

(** A top-level comma: [ch], read after the text [before], is a comma
    that is not escaped and stands at depth 0 of both kinds. *)
Definition topLevelComma (before : string) (ch : ascii) : bool :=
  (ch =? ",")%char && negb (escapedAfter before false)
  && (parenDepth before =? 0)%Z && (bracketDepth before =? 0)%Z.

(** [rest], read after [before], cut at its top-level commas; [current]
    is the piece begun. *)
Fixpoint cutAtTopLevel (before rest current : string) : list string :=
  match rest with
  | "" => [current]
  | String ch rest' =>
      if topLevelComma before ch
      then current :: cutAtTopLevel (before ++ str1 ch) rest' ""
      else cutAtTopLevel (before ++ str1 ch) rest' (current ++ str1 ch)
  end.

Definition topLevelPieces (s : string) : list string :=
  cutAtTopLevel "" s "".

(** ** The store *)

(** [extends h h']: [h'] is [h] with new cells after it. *)
Definition extends (h h' : Store.heap) : Prop :=
  exists ext, h' = (h ++ ext)%list.

(** The [OrtValue] at [sub] holds nothing of the first [size] cells: its
    [_value] is a primitive, or refers to an array or object cell at
    address [size] or later. *)
Definition detached (size : nat) (h : Store.heap) (sub : Store.loc) : Prop :=
  size <= sub
  /\ exists p, nth_error h sub = Some (Store.COrt p)
               /\ match p with
                  | Store.JRef o =>
                      size <= o
                      /\ exists c, nth_error h o = Some c
                                   /\ forall q, c <> Store.COrt q
                  | _ => True
                  end.

(** ** Values that survive a round trip *)

(** Every character of [s] passes the test [p]. *)
Fixpoint allChars (p : ascii -> bool) (s : string) : bool :=
  match s with
  | "" => true
  | String c s' => p c && allChars p s'
  end.

(** A character of a key inside an inline object: none of the six
    escaped ones, no colon, no line feed. *)
Definition keyChar (c : ascii) : bool :=
  negb (needsBackslash c) && negb (c =? ":")%char && negb (c =? LF)%char.

(** A key the inline form can carry: not empty, no white space at its
    ends, only [keyChar]s. *)
Definition plainKey (k : string) : Prop :=
  k <> "" /\ trim k = k /\ allChars keyChar k = true.

(** A value whose literal form [parseValue] reads back.  A number must
    print to a text that [Number] reads as the same number; a string
    must not be empty, must not read as a number or a boolean, and its
    escaped text must have no white space at its ends; an array must not
    end with [null]; the keys of an object must be plain and in the
    language's order. *)
Fixpoint literal (v : value) : Prop :=
  match v with
  | VNull => True
  | VBool _ => True
  | VNum n => isNaN n = false /\ Number (toString n) = n
  | VStr s =>
      s <> "" /\ trim (escape s) = escape s /\ isNaN (Number s) = true
      /\ s <> "true" /\ s <> "false"
  | VArr items =>
      (fix all (l : list value) : Prop :=
         match l with [] => True | x :: l' => literal x /\ all l' end) items
      /\ last items (VBool true) <> VNull
  | VObj es =>
      jsOrdered es
      /\ (fix all (l : entries) : Prop :=
            match l with
            | [] => True
            | kv :: l' => (plainKey (fst kv) /\ literal (snd kv)) /\ all l'
            end) es
  end.

(** The characters of the text of a number. *)
Definition numChar (c : ascii) : bool := includes c "0123456789.+-eInfity".

(** The first and the last character of a text are not white space. *)
Definition headOK (s : string) : Prop :=
  match s with String c _ => isWhite c = false | "" => False end.

Definition lastOK (s : string) : Prop :=
  exists a c, s = a ++ str1 c /\ isWhite c = false.

(** Neither an array nor an object. *)
Definition isScalar (v : value) : bool :=
  match v with VArr _ | VObj _ => false | _ => true end.

(** ** Sections written by the generator *)

(** A key of the top-level object that a header line can carry: not
    empty, no white space at its ends, without colon or line feed, not
    starting like a comment. *)
Definition sectionKey (k : string) : Prop :=
  k <> "" /\ trim k = k /\ includes ":" k = false /\ includes LF k = false
  /\ startsWith "#" k = false.

(** A value the generator writes in the literal form on the line after
    its key and the parser reads back from there: a literal value other
    than [null]; a string must not start with [#] or [:] nor end with
    [:]; an array must not be one the generator writes as a table. *)
Definition sectionValue (x : value) : Prop :=
  literal x /\ x <> VNull
  /\ match x with
     | VStr s =>
         startsWith "#" s = false /\ startsWith ":" s = false
         /\ endsWith ":" s = false
     | VArr items => isUniformObjectArray items = false
     | _ => True
     end.

(** ** Tables written by the generator *)

(** The fields that the header written for the object [v] declares. *)
Fixpoint fieldsOf (v : value) : list Field :=
  match v with
  | VObj es => map (fun kv => createField (fst kv) (fieldsOf (snd kv))) es
  | _ => []
  end.

(** Every field name of a header, at every depth, is a plain key. *)
Fixpoint plainField (f : Field) : Prop :=
  match f with
  | createField nm nested =>
      plainKey nm
      /\ (fix all (l : list Field) : Prop :=
            match l with [] => True | g :: l' => plainField g /\ all l' end)
           nested
  end.

Definition plainFields (fs : list Field) : Prop := Forall plainField fs.

(** [cell x fs]: the value [x] can stand under a field whose nested
    fields are [fs].  An object with properties must have exactly the
    keys [fs] names, in that order, with values that can stand under
    them, and must not be a single property holding [null]; any other
    value must be literal. *)
Fixpoint cell (x : value) (fs : list Field) : Prop :=
  match x with
  | VObj es =>
      match es with
      | [] => True
      | _ :: _ =>
          jsOrdered es
          /\ (fix cells (es : entries) (fs : list Field) : Prop :=
                match es, fs with
                | [], [] => True
                | kv :: es', f :: fs' =>
                    fst kv = name f /\ cell (snd kv) (nestedFields f)
                    /\ cells es' fs'
                | _, _ => False
                end) es fs
          /\ match es with [(_, VNull)] => False | _ => True end
      end
  | _ => literal x
  end.

(** The first value of a row must not make the line a comment or a
    header, nor may the last one. *)
Definition firstCell (x : value) : Prop :=
  match x with
  | VStr s => startsWith "#" s = false /\ startsWith ":" s = false
  | _ => True
  end.

Definition lastCell (x : value) : Prop :=
  match x with VStr s => endsWith ":" s = false | _ => True end.

(** A row of the table whose header declares [fs]. *)
Definition row (fs : list Field) (r : value) : Prop :=
  match r with
  | VObj es =>
      es <> [] /\ cell r fs
      /\ firstCell (hd VNull (map snd es))
      /\ lastCell (last (map snd es) VNull)
  | _ => False
  end.

(** An array the generator writes as a table and the parser reads back:
    the rows are objects with the keys of the first one in the same
    order, the field names are plain, and every row fits the header. *)
Definition table (rows : list value) : Prop :=
  match rows with
  | first :: _ =>
      plainFields (fieldsOf first) /\ Forall (row (fieldsOf first)) rows
  | [] => False
  end.

(** The text of a row, and the lines of a table. *)
Definition rowText (r : value) : string :=
  match r with
  | VObj es => join "," (map (fun kv => generateObjectFieldValue (snd kv)) es)
  | _ => ""
  end.

Definition tableLines (start : string) (rows : list value) : list string :=
  (start ++ ":" ++ headerFieldsOf (hd VNull rows) ++ ":") :: map rowText rows.

(** ** Documents *)

(** A value of a top-level key that is read back: a literal section
    value, or an array written as a table. *)
Definition section (x : value) : Prop :=
  match x with
  | VArr rows => sectionValue x \/ table rows
  | _ => sectionValue x
  end.

(** The lines of the block the generator writes for a key. *)
Definition blockLines (k : string) (x : value) : list string :=
  match x with
  | VArr rows =>
      if isUniformObjectArray rows then tableLines k rows
      else [k ++ ":"; generateValue x false]
  | _ => [k ++ ":"; generateValue x false]
  end.

(** The lines of a document of several blocks: an empty line after each. *)
Definition documentLines (es : entries) : list string :=
  flat_map (fun kv => blockLines (fst kv) (snd kv) ++ [""])%list es.

(** The values [parse (generate v)] gives back: an object whose keys can
    head a section and whose values are sections, or a table of two rows
    or more. *)
Definition document (v : value) : Prop :=
  match v with
  | VObj es =>
      jsOrdered es
      /\ Forall (fun kv => sectionKey (fst kv) /\ section (snd kv)) es
  | VArr rows => table rows /\ 2 <= List.length rows
  | _ => False
  end.

(** ** Errors *)

(** The error [e] is about line [j] of [ls] (counted from 0): it carries
    the number [j + 1] and the trimmed text of the line. *)
Definition raisedAt (ls : list string) (j : nat) (e : OrtParseError) : Prop :=
  j < List.length ls /\ lineNum e = j + 1 /\ line e = trim (nth j ls "").

(** The three messages of the parser that a document can bring about. *)
Definition knownMessage (m : string) : Prop :=
  m = "Unmatched closing parenthesis"
  \/ (exists expected actual,
        m = "Expected " ++ ofNat expected ++ " values but got " ++ ofNat actual)
  \/ (exists expected actual,
        m = "Expected " ++ ofNat expected ++ " nested values but got "
            ++ ofNat actual).

(** The same outcome one line further down: an error carries the next
    line number. *)
Definition later {A : Type} (o : outcome A) : outcome A :=
  match o with
  | Throw e => Throw (mkError (S (lineNum e)) (line e) (message e))
  | _ => o
  end.

Example Number_30 : Number "30" = Dec 30 0. Proof. reflexivity. Qed.

Example Number_Alice : Number "Alice" = NaN. Proof. reflexivity. Qed.

Example Number_frac : Number " -12.50e1 " = Dec (-125) 0. Proof. reflexivity. Qed.

Example Number_frac2 : Number ".5" = Dec 5 1. Proof. reflexivity. Qed.

Example Number_hex : Number "0x1f" = Dec 31 0. Proof. reflexivity. Qed.

Example Number_bad : Number "1e" = NaN. Proof. reflexivity. Qed.

Example Number_bad2 : Number "1.2.3" = NaN. Proof. reflexivity. Qed.

Example Number_dot : Number "." = NaN. Proof. reflexivity. Qed.

Example Number_5dot : Number "5." = Dec 5 0. Proof. reflexivity. Qed.

Example toString_1 : toString (Dec 1500 0) = "1500". Proof. reflexivity. Qed.

Example toString_2 : toString (Dec (-15) 1) = "-1.5". Proof. reflexivity. Qed.

Example toString_3 : toString (Dec 15 9) = "1.5e-8". Proof. reflexivity. Qed.

Example toString_4 : toString (Dec 15 4) = "0.0015". Proof. reflexivity. Qed.

Example toString_5 : toString (Dec (10^22) 0) = "1e+22". Proof. reflexivity. Qed.

Example parse_scenario1 :
  parseOrt (lines [":name,age:"; "Alice,30"])
  = Ok (VObj [("name", VStr "Alice"); ("age", VNum (Dec 30 0))]).
Proof. vm_compute. reflexivity. Qed.

Example parse_scenario2 :
  parseOrt (lines [":name,age:"; "Alice,30"; "Bob,25"])
  = Ok (VArr [VObj [("name", VStr "Alice"); ("age", VNum (Dec 30 0))];
              VObj [("name", VStr "Bob"); ("age", VNum (Dec 25 0))]]).
Proof. vm_compute. reflexivity. Qed.

Example parse_scenario3 :
  parseOrt (lines ["people:name,addr(street,city):"; "Alice,(Main St,NYC)"])
  = Ok (VObj [("people", VArr [VObj [("name", VStr "Alice"); ("addr", VObj [("street", VStr "Main St"); ("city", VStr "NYC")])]])]).
Proof. vm_compute. reflexivity. Qed.

Example parse_scenario4 :
  parseOrt (lines ["tags:"; "[a,b,c]"])
  = Ok (VObj [("tags", VArr [VStr "a"; VStr "b"; VStr "c"])]).
Proof. vm_compute. reflexivity. Qed.

Example gen_scenario5 :
  generateOrt (VObj [("a", VNum (Dec 1 0)); ("b", VArr [VObj [("x", VNum (Dec 1 0)); ("y", VNum (Dec 2 0))]; VObj [("x", VNum (Dec 3 0)); ("y", VNum (Dec 4 0))]])])
  = lines ["a:"; "1"; ""; "b:x,y:"; "1,2"; "3,4"; ""].
Proof. vm_compute. reflexivity. Qed.

(** * Properties *)

(** ** Strings *)

Lemma append_nil_r (s : string) : s ++ "" = s.
Proof. induction s; simpl; congruence. Qed.

Lemma append_assoc (a b c : string) : (a ++ b) ++ c = a ++ (b ++ c).
Proof. induction a; simpl; congruence. Qed.

Lemma length_append (a b : string) :
  String.length (a ++ b) = String.length a + String.length b.
Proof. induction a; simpl; congruence. Qed.

(** ** Escaping *)

Lemma escapeChar_table (ch : ascii) :
  escapeChar ch =
  if needsBackslash ch then String BACKSLASH (str1 ch)
  else if (ch =? LF)%char then "\n"
  else if (ch =? TAB)%char then "\t"
  else if (ch =? CR)%char then "\r"
  else str1 ch.
Proof.
  unfold escapeChar, needsBackslash.
  repeat match goal with
         | |- context [(ch =? ?c)%char] =>
             destruct (Ascii.eqb_spec ch c); [subst; reflexivity |]
         end.
  reflexivity.
Qed.

Lemma unescapeLoop_escapeChar (ch : ascii) (rest : string) :
  unescapeLoop (escapeChar ch ++ rest) false
  = String ch (unescapeLoop rest false).
Proof.
  unfold escapeChar.
  repeat match goal with
         | |- context [if (ch =? ?c)%char then _ else _] =>
             destruct (Ascii.eqb_spec ch c); [subst; reflexivity |]
         end.
  simpl. destruct (Ascii.eqb_spec ch BACKSLASH); [contradiction | reflexivity].
Qed.

Lemma unescape_escaped (s : string) : unescape (escape s) = s.
Proof.
  unfold unescape. induction s as [| ch s IH]; [reflexivity |].
  simpl. rewrite unescapeLoop_escapeChar. now rewrite IH.
Qed.

(** C3.  The parser's [unescape] undoes the generator's [escape] on every
    string; [escape] works character by character, it puts a backslash
    before exactly the six characters ( ) [ ] , \ and writes line feed,
    tab and carriage return as the two characters \n, \t and \r. *)
Theorem unescape_escape :
  (forall s : string, unescape (escape s) = s)
  /\ (forall (ch : ascii) (s : string),
        escape (String ch s) =
        (if needsBackslash ch then String BACKSLASH (str1 ch)
         else if (ch =? LF)%char then "\n"
         else if (ch =? TAB)%char then "\t"
         else if (ch =? CR)%char then "\r"
         else str1 ch) ++ escape s).
Proof.
  split.
  - apply unescape_escaped.
  - intros ch s. simpl. now rewrite escapeChar_table.
Qed.

Example escape_scenario6 :
  escape ("a,b" ++ str1 LF ++ "c") = "a\,b\nc"
  /\ unescape "a\,b\nc" = "a,b" ++ str1 LF ++ "c".
Proof. split; reflexivity. Qed.

(** ** The value model *)

(** C10.  When the receiver is an object and [key] is one of its own
    properties holding [null], [getOrDefault] returns the normalized
    default, whatever the prototype chain of the payload.  An object that
    lacks the key gives the same when its chain has nothing under the
    key.  It does not when the key names a method that a plain object
    inherits from [Object.prototype], such as [constructor]: there the
    call throws a [TypeError], and the stored [null] is told from the
    absent key. *)
Theorem getOrDefault_stored_null :
  forall (obj obj' : entries) (key : string) (d : value),
    objGet key obj = Some VNull ->
    objGet key obj' = None ->
    (forall proto, getOrDefault proto (VObj obj) key d
                   = Returns (createOrtValue d))
    /\ (forall proto, proto key = None ->
                      getOrDefault proto (VObj obj') key d
                      = Returns (createOrtValue d))
    /\ (In key objectPrototypeMethods ->
        getOrDefault ObjectPrototype (VObj obj') key d
        = ThrowsTypeError "Unsupported type for OrtValue: function").
Proof.
  intros obj obj' key d H H'. unfold getOrDefault, propGet.
  rewrite H, H'. split; [reflexivity |]. split.
  - intros proto Hp. now rewrite Hp.
  - intros Hin. unfold ObjectPrototype.
    destruct (String.eqb_spec key "__proto__") as [-> | _].
    + exfalso. revert Hin. cbn [objectPrototypeMethods In].
      intuition discriminate.
    + assert (E : existsb (String.eqb key) objectPrototypeMethods = true).
      { apply existsb_exists. exists key. split; [assumption |].
        apply String.eqb_refl. }
      now rewrite E.
Qed.

Lemma getOrDefault_stored_null_witness :
  getOrDefault ObjectPrototype
    (VObj [("constructor", VNull); ("b", VBool true)]) "constructor"
    (VNum (Dec 7 0))
  = Returns (VNum (Dec 7 0))
  /\ getOrDefault ObjectPrototype (VObj [("b", VBool true)]) "a"
       (VNum (Dec 7 0))
     = Returns (VNum (Dec 7 0))
  /\ getOrDefault ObjectPrototype (VObj [("b", VBool true)]) "constructor"
       (VNum (Dec 7 0))
     = ThrowsTypeError "Unsupported type for OrtValue: function".
Proof.
  pose proof (getOrDefault_stored_null
                [("constructor", VNull); ("b", VBool true)]
                [("b", VBool true)] "constructor" (VNum (Dec 7 0))
                eq_refl eq_refl) as (H1 & _ & H3).
  pose proof (getOrDefault_stored_null
                [("a", VNull)] [("b", VBool true)] "a" (VNum (Dec 7 0))
                eq_refl eq_refl) as (_ & H2 & _).
  split; [apply H1 |]. split; [now apply H2 |].
  apply H3. cbn [objectPrototypeMethods In]. now left.
Defined.

Lemma wf_arr (items : list value) : wf (VArr items) <-> Forall wf items.
Proof.
  simpl. induction items as [| x l IH]; simpl.
  - split; auto.
  - rewrite IH. split; [intros [? ?]; auto | intros H; inversion H; auto].
Qed.

Lemma wf_obj (es : entries) :
  wf (VObj es) <-> jsOrdered es /\ Forall (fun kv => wf (snd kv)) es.
Proof.
  simpl. apply and_iff_compat_l.
  induction es as [| x l IH]; simpl.
  - split; auto.
  - rewrite IH. split; [intros [? ?]; auto | intros H; inversion H; auto].
Qed.

Lemma value_ind' (P : value -> Prop) :
  P VNull -> (forall b, P (VBool b)) -> (forall n, P (VNum n)) ->
  (forall s, P (VStr s)) ->
  (forall items, Forall P items -> P (VArr items)) ->
  (forall es, Forall (fun kv => P (snd kv)) es -> P (VObj es)) ->
  forall v, P v.
Proof.
  intros Hnull Hbool Hnum Hstr Harr Hobj.
  fix IH 1.
  intros [| b | n | s | items | es];
    [apply Hnull | apply Hbool | apply Hnum | apply Hstr | |].
  - apply Harr. induction items as [| x l IHl]; constructor.
    + apply IH.
    + exact IHl.
  - apply Hobj. induction es as [| [k x] l IHl]; constructor.
    + apply IH.
    + exact IHl.
Qed.

(** [toNative] and [normalize] are the same deep copy. *)
Lemma toNative_normalize (v : value) : toNative v = normalize v.
Proof. reflexivity. Qed.

Lemma arrayIndex_digits (k : string) (n : N) :
  arrayIndex k = Some n -> k = digitsOf n.
Proof.
  unfold arrayIndex. destruct (numeral 10 k) as [m |]; [| discriminate].
  destruct (String.eqb_spec (digitsOf m) k) as [E | E]; simpl; [| discriminate].
  destruct (m <? 4294967295)%N; [| discriminate].
  intros H. inversion H. subst. reflexivity.
Qed.

Lemma objGet_None (k : string) (obj : entries) :
  objGet k obj = None <-> ~ In k (keysOf obj).
Proof.
  induction obj as [| [k' v] rest IH]; simpl.
  - tauto.
  - destruct (String.eqb_spec k' k) as [E | E].
    + split; [discriminate | intros H; exfalso; auto].
    + rewrite IH. tauto.
Qed.

Lemma hasKey_false (k : string) (obj : entries) :
  hasKey k obj = false <-> ~ In k (keysOf obj).
Proof.
  unfold hasKey. rewrite <- objGet_None.
  destruct (objGet k obj); split; congruence.
Qed.

Lemma keysOf_app (a b : entries) :
  keysOf (a ++ b)%list = (keysOf a ++ keysOf b)%list.
Proof. apply map_app. Qed.

Lemma keysOf_replaceKey (k : string) (v : value) (obj : entries) :
  keysOf (replaceKey k v obj) = keysOf obj.
Proof.
  induction obj as [| [k' v'] rest IH]; simpl; [reflexivity |].
  destruct (String.eqb_spec k' k); simpl; congruence.
Qed.

Lemma jsOrdered_keys (a b : entries) :
  keysOf a = keysOf b -> jsOrdered a -> jsOrdered b.
Proof.
  revert b. induction a as [| [k v] a IH]; intros [| [k' v'] b] E; simpl in *;
    try discriminate; auto.
  injection E as Ek Er. subst k'. intros (H1 & H2 & H3 & H4).
  unfold keysOf in *. rewrite <- Er. repeat split; auto.
Qed.

Lemma jsOrdered_app_l (a b : entries) : jsOrdered (a ++ b)%list -> jsOrdered a.
Proof.
  induction a as [| [k v] a IH]; simpl; [auto |].
  rewrite keysOf_app. intros (H1 & H2 & H3 & H4).
  apply Forall_app in H3. rewrite in_app_iff in H2.
  repeat split; tauto.
Qed.

Lemma jsOrdered_snoc (a : entries) (k : string) (v : value) :
  jsOrdered (a ++ [(k, v)])%list <->
  jsOrdered a /\ k <> "__proto__" /\ ~ In k (keysOf a)
  /\ Forall (fun k' => keyBefore k' k) (keysOf a).
Proof.
  induction a as [| [k' v'] a IH]; simpl.
  - split; [intros (? & ? & ? & ?) | intros (? & ? & ? & ?)]; repeat split; auto.
  - rewrite keysOf_app, IH. simpl. rewrite in_app_iff, Forall_app. simpl.
    split.
    + intros (H1 & H2 & (H3 & H3') & H4 & H5 & H6 & H7).
      inversion H3'; subst.
      repeat split; auto; try tauto.
      intros [E | E]; [subst; tauto | tauto].
    + intros ((H1 & H2 & H3 & H4) & H5 & H6 & H7).
      inversion H7; subst.
      repeat split; auto; try tauto.
      intros [E | [E | []]]; [tauto | subst; tauto].
Qed.

Lemma insertIndex_last (n : N) (k : string) (v : value) (a : entries) :
  arrayIndex k = Some n ->
  Forall (fun k' => keyBefore k' k) (keysOf a) ->
  insertIndex n k v a = (a ++ [(k, v)])%list.
Proof.
  intros Hk. induction a as [| [k' v'] a IH]; simpl; [reflexivity |].
  intros H. inversion H as [| ? ? Hb Hrest]; subst.
  unfold keyBefore in Hb. rewrite Hk in Hb.
  destruct (arrayIndex k') as [n' |]; [| contradiction].
  apply N.ltb_lt in Hb. rewrite Hb. now rewrite IH.
Qed.

Lemma objSet_last (k : string) (v : value) (a : entries) :
  jsOrdered (a ++ [(k, v)])%list -> objSet k v a = (a ++ [(k, v)])%list.
Proof.
  rewrite jsOrdered_snoc. intros (Ha & Hp & Hin & Hb).
  unfold objSet. apply String.eqb_neq in Hp. rewrite Hp.
  apply hasKey_false in Hin. rewrite Hin.
  destruct (arrayIndex k) as [n |] eqn:E; [| reflexivity].
  now apply insertIndex_last.
Qed.

Lemma fold_objSet_ordered (es acc : entries) :
  jsOrdered (acc ++ es)%list ->
  fold_left (fun a kv => objSet (fst kv) (snd kv) a) es acc = (acc ++ es)%list.
Proof.
  revert acc. induction es as [| [k v] es IH]; intros acc H; simpl.
  - now rewrite app_nil_r.
  - assert (E : (acc ++ (k, v) :: es = (acc ++ [(k, v)]) ++ es)%list)
      by now rewrite <- app_assoc.
    rewrite E in H |- *. rewrite objSet_last.
    + now apply IH.
    + now apply jsOrdered_app_l in H.
Qed.

Lemma fromEntries_ordered (es : entries) : jsOrdered es -> fromEntries es = es.
Proof. intros H. unfold fromEntries. now rewrite fold_objSet_ordered. Qed.

Lemma normalize_wf_id (v : value) : wf v -> normalize v = v.
Proof.
  induction v as [| | | | items IH | es IH] using value_ind'; auto.
  - rewrite wf_arr. intros H. simpl. f_equal.
    rewrite <- (map_id items) at 2. apply map_ext_Forall.
    rewrite Forall_forall in *. auto.
  - rewrite wf_obj. intros [Ho Hv]. simpl. f_equal.
    assert (E : map (fun kv => (fst kv, normalize (snd kv))) es = es).
    { rewrite <- (map_id es) at 2. apply map_ext_Forall.
      rewrite Forall_forall in *. intros [k x] Hin. simpl.
      f_equal. apply (IH _ Hin). apply (Hv _ Hin). }
    rewrite E. now apply fromEntries_ordered.
Qed.

Lemma toNative_wf_id (v : value) : wf v -> toNative v = v.
Proof. rewrite toNative_normalize. apply normalize_wf_id. Qed.

Lemma keysOf_insertIndex n k (v : value) a x :
  In x (keysOf (insertIndex n k v a)) <-> x = k \/ In x (keysOf a).
Proof.
  induction a as [| [k' v'] a IH]; simpl.
  - intuition.
  - destruct (arrayIndex k') as [n' |]; [destruct (n' <? n)%N |]; simpl;
      try rewrite IH; intuition.
Qed.

Lemma insertIndex_ordered n k (v : value) a :
  arrayIndex k = Some n -> k <> "__proto__" -> ~ In k (keysOf a) ->
  jsOrdered a -> jsOrdered (insertIndex n k v a).
Proof.
  intros Hk Hp. induction a as [| [k' v'] a IH]; simpl.
  - intros _ _. repeat split; auto.
  - intros Hin (H1 & H2 & H3 & H4).
    assert (Hne : k' <> k) by tauto.
    assert (Hin' : ~ In k (keysOf a)) by tauto.
    destruct (arrayIndex k') as [n' |] eqn:Ek'.
    + destruct (n' <? n)%N eqn:Elt.
      * simpl. split; [assumption |]. split; [| split].
        -- rewrite keysOf_insertIndex. intros [E | E]; [subst; tauto | tauto].
        -- apply Forall_forall. intros x Hx. apply keysOf_insertIndex in Hx.
           destruct Hx as [-> | Hx].
           ++ unfold keyBefore. rewrite Ek', Hk. now apply N.ltb_lt.
           ++ rewrite Forall_forall in H3. auto.
        -- apply IH; tauto.
      * simpl. split; [assumption |]. split; [tauto |]. split;
          [| repeat split; assumption].
        apply N.ltb_ge in Elt.
        assert (n <> n').
        { intros ->. apply arrayIndex_digits in Hk, Ek'. subst. tauto. }
        constructor.
        -- unfold keyBefore. rewrite Hk, Ek'. lia.
        -- rewrite Forall_forall in *. intros x Hx. specialize (H3 x Hx).
           unfold keyBefore in *. rewrite Ek' in H3. rewrite Hk.
           destruct (arrayIndex x); auto. lia.
    + simpl. split; [assumption |]. split; [tauto |]. split;
        [| repeat split; assumption].
      constructor.
      * unfold keyBefore. now rewrite Hk, Ek'.
      * rewrite Forall_forall in *. intros x Hx. specialize (H3 x Hx).
        unfold keyBefore in *. rewrite Ek' in H3. rewrite Hk.
        destruct (arrayIndex x); auto. contradiction.
Qed.

Lemma objSet_ordered k (v : value) a : jsOrdered a -> jsOrdered (objSet k v a).
Proof.
  intros H. unfold objSet.
  destruct (String.eqb_spec k "__proto__") as [Ep | Ep]; [assumption |].
  destruct (hasKey k a) eqn:Eh.
  - eapply jsOrdered_keys; [| exact H]. symmetry. apply keysOf_replaceKey.
  - apply hasKey_false in Eh.
    destruct (arrayIndex k) as [n |] eqn:Ek.
    + now apply insertIndex_ordered.
    + apply jsOrdered_snoc. repeat split; auto.
      apply Forall_forall. intros x _. unfold keyBefore. rewrite Ek.
      destruct (arrayIndex x); exact I.
Qed.

Lemma fold_objSet_jsOrdered (es acc : entries) :
  jsOrdered acc ->
  jsOrdered (fold_left (fun a kv => objSet (fst kv) (snd kv) a) es acc).
Proof.
  revert acc. induction es as [| [k v] es IH]; simpl; auto.
  intros acc H. apply IH. now apply objSet_ordered.
Qed.

Lemma fromEntries_jsOrdered (es : entries) : jsOrdered (fromEntries es).
Proof. apply fold_objSet_jsOrdered. exact I. Qed.

(** Every value stored by [objSet] is the new one or was there. *)
Lemma objSet_values (P : value -> Prop) k v a :
  P v -> Forall (fun kv => P (snd kv)) a ->
  Forall (fun kv => P (snd kv)) (objSet k v a).
Proof.
  intros Hv Ha. unfold objSet.
  destruct (k =? "__proto__")%string; [assumption |].
  destruct (hasKey k a).
  - induction a as [| [k' v'] a IH]; simpl; [constructor |].
    inversion Ha; subst.
    destruct (k' =? k)%string; constructor; auto.
  - destruct (arrayIndex k) as [n |].
    + induction a as [| [k' v'] a IH]; simpl; [repeat constructor; auto |].
      inversion Ha; subst.
      destruct (arrayIndex k') as [n' |]; [destruct (n' <? n)%N |];
        repeat constructor; auto.
    + apply Forall_app. split; [assumption | repeat constructor; auto].
Qed.

Lemma fold_objSet_values (P : value -> Prop) es acc :
  Forall (fun kv => P (snd kv)) acc ->
  Forall (fun kv => P (snd kv)) es ->
  Forall (fun kv => P (snd kv))
    (fold_left (fun a kv => objSet (fst kv) (snd kv) a) es acc).
Proof.
  revert acc. induction es as [| [k v] es IH]; simpl; auto.
  intros acc Hacc H. inversion H; subst. apply IH; auto.
  now apply objSet_values.
Qed.

Lemma fromEntries_values (P : value -> Prop) es :
  Forall (fun kv => P (snd kv)) es ->
  Forall (fun kv => P (snd kv)) (fromEntries es).
Proof. intros H. apply fold_objSet_values; auto. Qed.

Lemma normalize_wf (v : value) : wf (normalize v).
Proof.
  induction v as [| | | | items IH | es IH] using value_ind'; simpl normalize;
    try exact I.
  - apply wf_arr. apply Forall_map. exact IH.
  - apply wf_obj. split; [apply fromEntries_jsOrdered |].
    apply fromEntries_values. apply Forall_map. simpl. exact IH.
Qed.

Lemma createOrtValue_wf (v : value) : wf (createOrtValue v).
Proof. apply normalize_wf. Qed.

Lemma toNative_wf (v : value) : wf (toNative v).
Proof. apply normalize_wf. Qed.

Lemma createOrtValue_id (v : value) : wf v -> createOrtValue v = v.
Proof. apply normalize_wf_id. Qed.

(** ** The parser returns well-formed values *)

#[local] Arguments createOrtValue : simpl never.
#[local] Arguments toNative : simpl never.
#[local] Arguments normalize : simpl never.

Lemma parseArrayLoop_wf rec chars result current e d b v :
  parseArrayLoop rec chars result current e d b = Ok v -> wf v.
Proof.
  revert result current e d b.
  induction chars as [| ch rest IH]; intros result current e d b; simpl.
  - destruct (isEmpty (trim current)).
    + intros H. inversion H. apply createOrtValue_wf.
    + destruct (rec (trim current)); simpl; try discriminate.
      intros H. inversion H. apply createOrtValue_wf.
  - destruct (scanChar ch e d b); [apply IH |].
    destruct (rec current); simpl; try discriminate. apply IH.
Qed.

Lemma parsePairs_wf rec pairs obj v :
  parsePairs rec pairs obj = Ok v -> wf v.
Proof.
  revert obj. induction pairs as [| p rest IH]; intros obj; simpl.
  - intros H. inversion H. apply createOrtValue_wf.
  - destruct (indexOf ":" p); [| apply IH].
    destruct (rec _); simpl; try discriminate. apply IH.
Qed.

Lemma parseValueBody_wf rec s v : parseValueBody rec s = Ok v -> wf v.
Proof.
  unfold parseValueBody, parseArray, parseInlineObject, parseScalar.
  repeat match goal with
         | |- context [if ?c then _ else _] => destruct c
         end;
    try (intros H; inversion H; apply createOrtValue_wf).
  - apply parseArrayLoop_wf.
  - apply parsePairs_wf.
Qed.

Lemma parseValueF_wf fuel s v : parseValueF fuel s = Ok v -> wf v.
Proof. destruct fuel; simpl; [discriminate | apply parseValueBody_wf]. Qed.

Lemma parseValue_wf s v : parseValue s = Ok v -> wf v.
Proof. apply parseValueF_wf. Qed.

Lemma parseFieldValue_wf field valueStr line lineNum v :
  parseFieldValue field valueStr line lineNum = Ok v -> wf v.
Proof.
  destruct field as [nm nested]. simpl.
  repeat match goal with
         | |- context [if ?c then _ else _] => destruct c
         end;
    try apply parseValue_wf;
    try (intros H; inversion H; apply createOrtValue_wf).
  generalize (parseDataValues (inner (trim valueStr))) as vs.
  generalize (@nil (string * value)) as obj.
  induction nested as [| f fs IH]; intros obj vs.
  - intros H; inversion H; apply createOrtValue_wf.
  - destruct vs as [| x vs]; [intros H; inversion H; apply createOrtValue_wf |].
    destruct (parseFieldValue f x line lineNum); simpl; try discriminate.
    apply IH.
Qed.

Lemma countDataLines_rows rest i n :
  countDataLines rest n = n + List.length (sectionRows rest i).
Proof.
  revert i n. induction rest as [| raw rest IH]; intros i n; simpl; [lia |].
  destruct (isSkipped (trim raw)); [apply IH |].
  destruct (includes ":" (trim raw) && isHeader (trim raw)); simpl; [lia |].
  rewrite (IH (S i)). lia.
Qed.

Lemma parseDataLinesLoop_rows rest i fields processed result :
  fields <> [] ->
  parseDataLinesLoop rest i fields
    (processed + List.length (sectionRows rest i)) processed result
  = (rs <- parseRows fields (sectionRows rest i) result ;;
     Ok (createOrtValue (VArr rs))).
Proof.
  intros Hf. revert i processed result.
  induction rest as [| raw rest IH]; intros i processed result; simpl;
    [reflexivity |].
  destruct (isSkipped (trim raw)) eqn:Es.
  - destruct (Nat.leb_spec (processed + List.length (sectionRows rest (S i)))
                processed) as [Hle | Hlt].
    + destruct (sectionRows rest (S i)); simpl in *; [reflexivity | lia].
    + apply IH.
  - destruct (includes ":" (trim raw) && isHeader (trim raw)) eqn:Eh; simpl.
    + rewrite Nat.add_0_r, Nat.leb_refl. reflexivity.
    + destruct (Nat.leb_spec (processed + S (List.length (sectionRows rest (S i))))
                  processed) as [Hle | Hlt]; [lia |].
      destruct fields as [| f0 fields0]; [contradiction |].
      unfold parseRow at 1. cbn [fst snd].
      change (Datatypes.length (f0 :: fields0) =? 0)%nat with false. cbv iota.
      destruct (negb _); [reflexivity |].
      destruct (fillRecord (f0 :: fields0) _ _ _ _) as [obj | e |];
        cbn [bind]; try reflexivity.
      replace (processed + S (List.length (sectionRows rest (S i))))
        with (S processed + List.length (sectionRows rest (S i))) by lia.
      apply IH.
Qed.

Lemma parseDataLines_rows ls i fields :
  fields <> [] ->
  parseDataLines ls (i + 1) fields (countDataLines (skipn (i + 1) ls) 0)
  = (rs <- parseRows fields (sectionRows (skipn (i + 1) ls) (i + 1)) [] ;;
     Ok (createOrtValue (VArr rs))).
Proof.
  intros Hf. unfold parseDataLines.
  rewrite (countDataLines_rows _ (i + 1)). now apply parseDataLinesLoop_rows.
Qed.

Lemma parseDataLinesLoop_single rest i processed result :
  parseDataLinesLoop rest i []
    (processed + List.length (sectionRows rest i)) processed result
  = match sectionRows rest i with
    | [] => Ok (createOrtValue (VArr result))
    | row :: _ => parseValue (snd row)
    end.
Proof.
  revert i. induction rest as [| raw rest IH]; intros i; simpl; [reflexivity |].
  destruct (isSkipped (trim raw)) eqn:Es.
  - destruct (Nat.leb_spec (processed + List.length (sectionRows rest (S i)))
                processed) as [Hle | Hlt].
    + destruct (sectionRows rest (S i)); simpl in *; [reflexivity | lia].
    + apply IH.
  - destruct (includes ":" (trim raw) && isHeader (trim raw)) eqn:Eh; simpl.
    + rewrite Nat.add_0_r, Nat.leb_refl. reflexivity.
    + destruct (Nat.leb_spec (processed + S (List.length (sectionRows rest (S i))))
                  processed) as [Hle | Hlt]; [lia | reflexivity].
Qed.

(** The loop from a state it reaches is the whole run. *)
Lemma reaches_run ls i r :
  reaches ls i r ->
  exists fuel, List.length ls < fuel + i
    /\ parseOrtLoop (S (List.length ls)) ls 0 [] = parseOrtLoop fuel ls i r.
Proof.
  induction 1 as [| i r Hr IH Hi Hp | i r key fields n values Hr IH Hi Hp Hs Hd].
  - exists (S (List.length ls)). split; [lia | reflexivity].
  - destruct IH as (fuel & Hf & E). destruct fuel as [| fuel]; [lia |].
    exists fuel. split; [lia |]. rewrite E. simpl.
    destruct (Nat.leb_spec (List.length ls) i); [lia |].
    unfold passedOver, lineAt in Hp.
    destruct (isSkipped _); [reflexivity |]. simpl in Hp.
    destruct (includes ":" _); [discriminate | reflexivity].
  - destruct IH as (fuel & Hf & E). destruct fuel as [| fuel]; [lia |].
    exists fuel. split; [lia |]. rewrite E. simpl.
    destruct (Nat.leb_spec (List.length ls) i); [lia |].
    unfold passedOver, lineAt in Hp.
    destruct (isSkipped _); [discriminate |]. simpl in Hp.
    destruct (includes ":" _); [| discriminate].
    rewrite Hs. simpl. rewrite Hd. reflexivity.
Qed.

Lemma startsWith_colon line :
  startsWith ":" line = true ->
  isSkipped line = false /\ includes ":" line = true.
Proof.
  destruct line as [| c rest]; simpl; [discriminate |].
  unfold isSkipped. simpl. intros H. rewrite H.
  apply Ascii.eqb_eq in H. subst. split; reflexivity.
Qed.

Lemma passedOver_false line :
  passedOver line = false ->
  isSkipped line = false /\ includes ":" line = true.
Proof.
  unfold passedOver. destruct (isSkipped line), (includes ":" line);
    simpl; intros; try discriminate; auto.
Qed.

Lemma fillRecord_wf fields values line lineNum obj0 obj :
  jsOrdered obj0 -> Forall (fun kv => wf (snd kv)) obj0 ->
  fillRecord fields values line lineNum obj0 = Ok obj ->
  jsOrdered obj /\ Forall (fun kv => wf (snd kv)) obj.
Proof.
  revert values obj0. induction fields as [| f fs IH]; intros values obj0 Ho Hv.
  - simpl. intros H. injection H as <-. auto.
  - destruct values as [| x values]; simpl.
    + intros H. injection H as <-. auto.
    + destruct (parseFieldValue f x line lineNum) as [v | |]; simpl;
        try discriminate.
      apply IH.
      * now apply objSet_ordered.
      * apply objSet_values; [apply toNative_wf | assumption].
Qed.

Lemma parseRow_wf fields row v : parseRow fields row = Ok v -> wf v.
Proof.
  unfold parseRow. destruct (negb _); [discriminate |].
  destruct (fillRecord _ _ _ _ _) as [obj | |] eqn:E; simpl; try discriminate.
  intros H. injection H as <-. apply wf_obj.
  eapply fillRecord_wf; [| | exact E]; simpl; auto.
Qed.

Lemma parseRows_wf fields rows result rs :
  Forall wf result -> parseRows fields rows result = Ok rs ->
  Forall wf rs
  /\ List.length rs = List.length result + List.length rows.
Proof.
  revert result. induction rows as [| row rows IH]; intros result Hr; simpl.
  - intros H. injection H as <-. split; [assumption | lia].
  - destruct (parseRow fields row) as [v | |] eqn:E; simpl; try discriminate.
    intros H. apply IH in H.
    + rewrite length_app in H. simpl in H. split; [tauto | lia].
    + apply Forall_app. split; [assumption |].
      constructor; [| constructor]. eapply parseRow_wf; eassumption.
Qed.

Lemma parseRows_app fields a b result :
  parseRows fields (a ++ b)%list result
  = (r <- parseRows fields a result ;; parseRows fields b r).
Proof.
  revert result. induction a as [| row a IH]; intros result; simpl;
    [reflexivity |].
  destruct (parseRow fields row); simpl; auto.
Qed.

Lemma parseRows_ok fields rows result :
  (forall row, In row rows -> exists v, parseRow fields row = Ok v) ->
  exists rs, parseRows fields rows result = Ok rs.
Proof.
  revert result. induction rows as [| row rows IH]; intros result H; simpl.
  - eauto.
  - destruct (H row) as [v E]; [now left |]. rewrite E. simpl.
    apply IH. intros r Hr. apply H. now right.
Qed.

Lemma sectionRows_in ls rest i j l :
  rest = skipn i ls ->
  In (j, l) (sectionRows rest i) ->
  l = lineAt ls j /\ i <= j < List.length ls.
Proof.
  revert i. induction rest as [| raw rest IH]; intros i E; simpl; [tauto |].
  assert (Hraw : nth i ls "" = raw /\ i < List.length ls /\ rest = skipn (S i) ls).
  { clear IH. revert ls E. induction i as [| i IHi]; intros [| x ls]; simpl;
      try discriminate.
    - intros E. injection E as -> ->. repeat split. lia.
    - intros E. destruct (IHi _ E) as (? & ? & ?). repeat split; auto. lia. }
  destruct Hraw as (Hn & Hi & Hrest).
  assert (Hlater : In (j, l) (sectionRows rest (S i)) ->
                   l = lineAt ls j /\ i <= j < List.length ls).
  { intros H. destruct (IH _ Hrest H) as (? & ? & ?). repeat split; auto. lia. }
  destruct (isSkipped (trim raw)); [exact Hlater |].
  destruct (includes ":" (trim raw) && isHeader (trim raw)); simpl; [tauto |].
  intros [H | H]; [| auto].
  injection H as <- <-. unfold lineAt. rewrite Hn. repeat split; auto.
Qed.

Lemma passed_reaches ls i :
  i <= List.length ls ->
  (forall j, j < i -> passedOver (lineAt ls j) = true) ->
  reaches ls i [].
Proof.
  induction i as [| i IH]; intros Hi H.
  - constructor.
  - apply reach_pass; [apply IH; [lia | auto] | lia | auto].
Qed.

Lemma parseSection_dataLines ls i key fields n :
  parseSection ls i = Ok (key, fields, n) ->
  n = countDataLines (skipn (i + 1) ls) 0.
Proof.
  unfold parseSection. destruct (parseHeader _ _); simpl; try discriminate.
  destruct (parseFields _ _ _); simpl; try discriminate.
  intros H. now injection H.
Qed.

(** The scan returns from the first anonymous header it reaches. *)
Lemma anonymous_header_returns ls i r fields records :
  reaches ls i r ->
  i < List.length ls ->
  startsWith ":" (lineAt ls i) = true ->
  parseFields (dropFinalColon (drop 1 (lineAt ls i))) (lineAt ls i) (i + 1)
    = Ok fields ->
  fields <> [] ->
  parseRows fields (sectionRows (skipn (i + 1) ls) (i + 1)) [] = Ok records ->
  parseOrtLoop (S (List.length ls)) ls 0 []
  = Ok (match records with [x] => x | _ => VArr records end).
Proof.
  intros Hreach Hi Hcolon Hfields Hne Hrows.
  destruct (reaches_run ls i r Hreach) as (fuel & Hfuel & ->).
  destruct fuel as [| fuel]; [lia |]. simpl.
  destruct (Nat.leb_spec (List.length ls) i); [lia |].
  fold (lineAt ls i).
  destruct (startsWith_colon _ Hcolon) as [-> ->].
  unfold parseSection. fold (lineAt ls i).
  unfold parseHeader. rewrite Hcolon. cbn [bind snd fst].
  rewrite Hfields. cbn [bind].
  rewrite parseDataLines_rows by assumption. rewrite Hrows. cbn [bind].
  destruct (parseRows_wf _ _ _ _ (Forall_nil _) Hrows) as [Hwf Hlen].
  rewrite (countDataLines_rows _ (i + 1)). simpl in Hlen. rewrite <- Hlen.
  rewrite createOrtValue_id by now apply wf_arr.
  destruct fields as [| f0 fs]; [contradiction |]. simpl.
  destruct records as [| x [| x' rs]]; simpl; try reflexivity.
  inversion Hwf; subst. now rewrite createOrtValue_id.
Qed.

(** C2.  When the first line the scan does not step over starts with a
    colon and declares at least one field, the parse result is that of
    this section alone, whatever follows it: the record itself when
    the section has exactly one data line, the array of the records
    otherwise. *)
Theorem anonymous_section :
  forall (content : string) (i : nat) (fields : list Field)
         (records : list value),
    let ls := split LF content in
    i < List.length ls ->
    (forall j, j < i -> passedOver (lineAt ls j) = true) ->
    startsWith ":" (lineAt ls i) = true ->
    parseFields (dropFinalColon (drop 1 (lineAt ls i))) (lineAt ls i) (i + 1)
      = Ok fields ->
    fields <> [] ->
    parseRows fields (sectionRows (skipn (i + 1) ls) (i + 1)) [] = Ok records ->
    parseOrt content
    = Ok (match records with [r] => r | _ => VArr records end).
Proof.
  intros content i fields records ls Hi Hpass Hcolon Hfields Hne Hrows.
  unfold parseOrt. fold ls.
  apply (anonymous_header_returns ls i [] fields records); try assumption.
  apply passed_reaches; [| exact Hpass].
  now apply Nat.lt_le_incl.
Qed.

Lemma anonymous_section_witness :
  parseOrt (lines [":name,age:"; "Alice,30"])
  = Ok (VObj [("name", VStr "Alice"); ("age", VNum (Dec 30 0))]).
Proof.
  apply (anonymous_section (lines [":name,age:"; "Alice,30"]) 0
           [createField "name" []; createField "age" []]
           [VObj [("name", VStr "Alice"); ("age", VNum (Dec 30 0))]]).
  - simpl. lia.
  - intros j Hj. lia.
  - reflexivity.
  - reflexivity.
  - discriminate.
  - reflexivity.
Defined.

(** ** Errors *)

Lemma Field_ind' (P : Field -> Prop) :
  (forall n fs, Forall P fs -> P (createField n fs)) -> forall f, P f.
Proof.
  intros H. fix IH 1. intros [n fs]. apply H.
  induction fs as [| f fs IHfs]; constructor.
  - apply IH.
  - exact IHfs.
Qed.

Lemma parseArrayLoop_no_throw rec chars result current esc d b e :
  (forall s e', rec s <> Throw e') ->
  parseArrayLoop rec chars result current esc d b <> Throw e.
Proof.
  intros Hrec. revert result current esc d b.
  induction chars as [| ch rest IH]; intros result current esc d b; simpl.
  - destruct (isEmpty (trim current)); [discriminate |].
    destruct (rec (trim current)) eqn:E; simpl; try discriminate.
    now apply Hrec in E.
  - destruct (scanChar ch esc d b); [apply IH |].
    destruct (rec current) eqn:E; simpl; try discriminate; [apply IH |].
    now apply Hrec in E.
Qed.

Lemma parsePairs_no_throw rec pairs obj e :
  (forall s e', rec s <> Throw e') ->
  parsePairs rec pairs obj <> Throw e.
Proof.
  intros Hrec. revert obj.
  induction pairs as [| p rest IH]; intros obj; simpl; [discriminate |].
  destruct (indexOf ":" p); [| apply IH].
  destruct (rec _) eqn:E; simpl; try discriminate; [apply IH |].
  now apply Hrec in E.
Qed.

Lemma parseValueF_no_throw fuel s e : parseValueF fuel s <> Throw e.
Proof.
  revert s e. induction fuel as [| fuel IH]; intros s e; simpl; [discriminate |].
  unfold parseValueBody, parseArray, parseInlineObject.
  repeat match goal with
         | |- context [if ?c then _ else _] => destruct c
         end; try discriminate.
  - now apply parseArrayLoop_no_throw.
  - now apply parsePairs_no_throw.
Qed.

Lemma parseValue_no_throw s e : parseValue s <> Throw e.
Proof. apply parseValueF_no_throw. Qed.

Lemma parseFieldValue_throws field valueStr l n e :
  parseFieldValue field valueStr l n = Throw e -> isArityError n l e.
Proof.
  revert valueStr.
  induction field as [nm nested IH] using Field_ind'. intros valueStr. simpl.
  repeat match goal with
         | |- context [if ?c then _ else _] => destruct c
         end;
    try (intros H; now apply parseValue_no_throw in H);
    try discriminate.
  - intros H. injection H as <-. now eexists _, _, _.
  - generalize (parseDataValues (inner (trim valueStr))) as vs.
    generalize (@nil (string * value)) as obj.
    induction nested as [| f fs IHfs]; intros obj vs; [discriminate |].
    inversion IH as [| ? ? Hf Hfs]; subst.
    destruct vs as [| x vs]; [discriminate |].
    destruct (parseFieldValue f x l n) eqn:E; simpl; try discriminate.
    + now apply IHfs.
    + intros H. injection H as <-. eapply Hf. eassumption.
Qed.

Lemma fillRecord_throws fields values l n obj e :
  fillRecord fields values l n obj = Throw e -> isArityError n l e.
Proof.
  revert values obj. induction fields as [| f fs IH]; intros values obj; simpl;
    [discriminate |].
  destruct values as [| x values]; [discriminate |].
  destruct (parseFieldValue f x l n) eqn:E; simpl; try discriminate.
  - apply IH.
  - intros H. injection H as <-. eapply parseFieldValue_throws. eassumption.
Qed.

Lemma parseRow_throws fields row e :
  parseRow fields row = Throw e -> isArityError (fst row + 1) (snd row) e.
Proof.
  unfold parseRow. destruct (negb _).
  - intros H. injection H as <-. now eexists _, _, _.
  - destruct (fillRecord _ _ _ _ _) eqn:E; simpl; try discriminate.
    intros H. injection H as <-. eapply fillRecord_throws. eassumption.
Qed.

Lemma parseRow_mismatch fields j l :
  List.length (parseDataValues l) <> List.length fields ->
  parseRow fields (j, l)
  = Throw (arityError (j + 1) l " values" (List.length fields)
             (List.length (parseDataValues l))).
Proof.
  intros H. unfold parseRow. simpl.
  apply Nat.eqb_neq in H. now rewrite H.
Qed.

(** The first row of a reached tabular section that throws ends the
    parse with its error. *)
Lemma row_error_aborts ls i r key fields n before row after e :
  reaches ls i r -> i < List.length ls ->
  passedOver (lineAt ls i) = false ->
  parseSection ls i = Ok (key, fields, n) ->
  fields <> [] ->
  sectionRows (skipn (i + 1) ls) (i + 1) = (before ++ row :: after)%list ->
  (forall row', In row' before -> exists v, parseRow fields row' = Ok v) ->
  parseRow fields row = Throw e ->
  parseOrtLoop (S (List.length ls)) ls 0 [] = Throw e.
Proof.
  intros Hr Hi Hp Hs Hf Hrows Hbefore Hrow.
  destruct (reaches_run ls i r Hr) as (fuel & Hfuel & ->).
  destruct fuel as [| fuel]; [lia |]. simpl.
  destruct (Nat.leb_spec (List.length ls) i); [lia |].
  fold (lineAt ls i). destruct (passedOver_false _ Hp) as [-> ->].
  rewrite Hs. cbn [bind].
  rewrite (parseSection_dataLines _ _ _ _ _ Hs).
  assert (E : parseDataLines ls (i + 1) fields
                (countDataLines (skipn (i + 1) ls) 0) = Throw e).
  { rewrite parseDataLines_rows by assumption.
    rewrite Hrows, parseRows_app.
    destruct (parseRows_ok fields before [] Hbefore) as [rs ->].
    simpl. now rewrite Hrow. }
  destruct key; rewrite E; reflexivity.
Qed.

Lemma parseFieldValue_tuple field valueStr l n :
  isNestedField field = true -> isTuple valueStr ->
  parseFieldValue field valueStr l n
  = if negb (List.length (parseDataValues (inner (trim valueStr)))
             =? List.length (nestedFields field))%nat
    then Throw (arityError n l " nested values"
                  (List.length (nestedFields field))
                  (List.length (parseDataValues (inner (trim valueStr)))))
    else
      (fix fill (fs : list Field) (vs : list string) (obj : entries)
         {struct fs} : outcome value :=
         match fs, vs with
         | nestedField :: fs', valueStr :: vs' =>
             value <- parseFieldValue nestedField valueStr l n ;;
             fill fs' vs' (objSet (name nestedField) (toNative value) obj)
         | _, _ => Ok (createOrtValue (VObj obj))
         end) (nestedFields field)
        (parseDataValues (inner (trim valueStr))) [].
Proof.
  destruct field as [nm nested]. cbn [nestedFields].
  intros Hn (Hs & He & Hne). cbn [parseFieldValue]. rewrite Hn.
  cbn [negb]. cbv zeta.
  destruct (trim valueStr) as [| c t] eqn:Et; [discriminate |].
  cbn [isEmpty].
  apply String.eqb_neq in Hne. rewrite Hne.
  rewrite Hs, He. cbn [negb orb].
  assert (Hb : startsWith "[" (String c t) = false).
  { simpl in *. apply Ascii.eqb_eq in Hs. now subst. }
  rewrite Hb. cbn [andb]. reflexivity.
Qed.

Lemma cellMismatch_throws l n :
  forall field valueStr expected actual,
    cellMismatch l n field valueStr expected actual ->
    parseFieldValue field valueStr l n
    = Throw (arityError n l " nested values" expected actual).
Proof.
  apply (cellMismatch_ind' l n
           (fun field valueStr expected actual _ =>
              parseFieldValue field valueStr l n
              = Throw (arityError n l " nested values" expected actual))
           (fun fields values expected actual _ =>
              forall obj,
                (fix fill (fs : list Field) (vs : list string) (obj : entries)
                   {struct fs} : outcome value :=
                   match fs, vs with
                   | nestedField :: fs', valueStr :: vs' =>
                       value <- parseFieldValue nestedField valueStr l n ;;
                       fill fs' vs'
                         (objSet (name nestedField) (toNative value) obj)
                   | _, _ => Ok (createOrtValue (VObj obj))
                   end) fields values obj
                = Throw (arityError n l " nested values" expected actual))).
  - intros field valueStr Hn Ht Hlen.
    rewrite parseFieldValue_tuple by assumption.
    apply Nat.eqb_neq in Hlen. now rewrite Hlen.
  - intros field valueStr expected actual Hn Ht Hlen _ IH.
    rewrite parseFieldValue_tuple by assumption.
    apply Nat.eqb_eq in Hlen. rewrite Hlen. cbn [negb]. apply IH.
  - intros field fields valueStr values expected actual _ IH obj.
    now rewrite IH.
  - intros field fields valueStr values v expected actual Hv _ IH obj.
    rewrite Hv. cbn [bind]. apply IH.
Qed.

Lemma cellsMismatch_throws l n fields values expected actual :
  cellsMismatch l n fields values expected actual ->
  forall obj,
    fillRecord fields values l n obj
    = Throw (arityError n l " nested values" expected actual).
Proof.
  induction 1 as [field fields valueStr values expected actual H
                 | field fields valueStr values v expected actual Hv _ IH];
    intros obj; cbn [fillRecord].
  - now rewrite (cellMismatch_throws _ _ _ _ _ _ H).
  - rewrite Hv. cbn [bind]. apply IH.
Qed.

Lemma parseRow_nested_mismatch fields j l expected actual :
  List.length (parseDataValues l) = List.length fields ->
  cellsMismatch l (j + 1) fields (parseDataValues l) expected actual ->
  parseRow fields (j, l)
  = Throw (arityError (j + 1) l " nested values" expected actual).
Proof.
  intros Hlen H. unfold parseRow. cbn [fst snd].
  apply Nat.eqb_eq in Hlen. rewrite Hlen. cbn [negb].
  now rewrite (cellsMismatch_throws _ _ _ _ _ _ H).
Qed.

(** C4.  In a section with a non-empty field list that the scan reaches,
    let [(j, l)] be a data row all rows before which parse.  If the
    number of values of the row differs from the number of fields, the
    parse fails with the error "Expected N values but got M" that carries
    the line number [j + 1] and the trimmed text of line [j]; whatever
    error the row throws ends the parse with that error, an arity error
    for that line; and if the row has the right number of values but one
    of them is a tuple in which a tuple, at any depth, has [actual]
    values for [expected] nested fields, all values before it being
    parsed, the parse fails with "Expected N nested values but got M"
    for the same line. *)
Theorem row_arity_mismatch :
  forall (content : string) (i : nat) (r : entries) (key : option string)
         (fields : list Field) (n : nat) (before : list (nat * string))
         (j : nat) (l : string) (after : list (nat * string)),
    let ls := split LF content in
    reaches ls i r -> i < List.length ls ->
    passedOver (lineAt ls i) = false ->
    parseSection ls i = Ok (key, fields, n) ->
    fields <> [] ->
    sectionRows (skipn (i + 1) ls) (i + 1) = (before ++ (j, l) :: after)%list ->
    (forall row, In row before -> exists v, parseRow fields row = Ok v) ->
    (l = lineAt ls j /\ i < j < List.length ls)
    /\ (List.length (parseDataValues l) <> List.length fields ->
        parseOrt content
        = Throw (mkError (j + 1) (lineAt ls j)
                   ("Expected " ++ ofNat (List.length fields)
                    ++ " values but got "
                    ++ ofNat (List.length (parseDataValues l)))))
    /\ (forall e, parseRow fields (j, l) = Throw e ->
                  parseOrt content = Throw e
                  /\ isArityError (j + 1) (lineAt ls j) e)
    /\ (forall expected actual,
          List.length (parseDataValues l) = List.length fields ->
          cellsMismatch l (j + 1) fields (parseDataValues l) expected actual ->
          parseOrt content
          = Throw (mkError (j + 1) (lineAt ls j)
                     ("Expected " ++ ofNat expected
                      ++ " nested values but got " ++ ofNat actual))).
Proof.
  intros content i r key fields n before j l after ls
         Hr Hi Hp Hs Hf Hrows Hbefore.
  assert (Hin : In (j, l) (sectionRows (skipn (i + 1) ls) (i + 1))).
  { rewrite Hrows. apply in_or_app. right. now left. }
  destruct (sectionRows_in ls _ _ _ _ eq_refl Hin) as (Hl & Hij & Hj).
  assert (Hab : forall e, parseRow fields (j, l) = Throw e ->
                          parseOrt content = Throw e).
  { intros e He. unfold parseOrt. fold ls.
    eapply row_error_aborts; eassumption. }
  split; [split; [assumption | lia] |]. split; [| split].
  - intros Hlen. rewrite <- Hl. apply Hab. now apply parseRow_mismatch.
  - intros e He. split; [now apply Hab |].
    rewrite <- Hl. apply (parseRow_throws _ _ _ He).
  - intros expected actual Hlen Hm. rewrite <- Hl. apply Hab.
    now apply parseRow_nested_mismatch.
Qed.

Lemma row_arity_mismatch_witness :
  parseOrt (lines ["k:a,b:"; "  1  "])
  = Throw (mkError 2 "1" "Expected 2 values but got 1")
  /\ parseOrt (lines ["k:a,b(x,y(u,v)):"; "1,(2,3)"; " 1,(2,(3,4,5)) "])
     = Throw (mkError 3 "1,(2,(3,4,5))" "Expected 2 nested values but got 3").
Proof.
  split.
  - apply (row_arity_mismatch (lines ["k:a,b:"; "  1  "]) 0 [] (Some "k")
             [createField "a" []; createField "b" []] 1 [] 1 "1" []).
    + apply reach_start.
    + vm_compute. lia.
    + reflexivity.
    + reflexivity.
    + discriminate.
    + reflexivity.
    + intros row [].
    + reflexivity.
  - set (y := createField "y" [createField "u" []; createField "v" []]).
    set (b := createField "b" [createField "x" []; y]).
    refine (proj2 (proj2 (proj2
              (row_arity_mismatch
                 (lines ["k:a,b(x,y(u,v)):"; "1,(2,3)"; " 1,(2,(3,4,5)) "])
                 0 [] (Some "k") [createField "a" []; b] 2
                 [(1, "1,(2,3)")] 2 "1,(2,(3,4,5))" [] _ _ _ _ _ _ _)))
              2 3 _ _).
    + apply reach_start.
    + vm_compute. lia.
    + reflexivity.
    + reflexivity.
    + discriminate.
    + reflexivity.
    + intros row [<- | []]. eexists. reflexivity.
    + reflexivity.
    + apply mismatch_later with (v := VNum (Dec 1 0)); [reflexivity |].
      apply mismatch_first.
      apply (mismatch_inside _ _ b "(2,(3,4,5))" 2 3);
        [reflexivity | repeat split; discriminate | reflexivity |].
      apply mismatch_later with (v := VNum (Dec 2 0)); [reflexivity |].
      apply mismatch_first.
      apply (mismatch_here _ _ y "(3,4,5)");
        [reflexivity | repeat split; discriminate | discriminate].
Defined.

(** C4, as stated, fails: the error carries the trimmed text of the line,
    not the raw one. *)
Lemma arity_error_line_is_trimmed :
  parseOrt (lines ["k:a,b:"; "  1  "])
  = Throw (mkError 2 "1" "Expected 2 values but got 1")
  /\ nth 1 (split LF (lines ["k:a,b:"; "  1  "])) "" = "  1  "
  /\ "1" <> "  1  ".
Proof. repeat split. discriminate. Qed.

(** C8: a later data line of a [key:] section is read again as a header
    when a blank line stands in the section. *)
Example single_value_section_blank_line :
  parseOrt (lines ["a:"; "1"; ""; "k:v"])
  = Ok (VObj [("a", VNum (Dec 1 0)); ("k", VArr [])])
  /\ parseOrt (lines ["a:"; "1"; "k:v"]) = Ok (VObj [("a", VNum (Dec 1 0))])
  /\ sectionRows (skipn 1 (split LF (lines ["a:"; "1"; ""; "k:v"]))) 1
     = [(1, "1"); (3, "k:v")].
Proof. repeat split. Qed.

Example single_value_section_comment_line :
  parseOrt (lines ["a:"; "# note"; "(x:1)"])
  = Throw (mkError 3 "(x:1)" "Unmatched closing parenthesis")
  /\ parseOrt (lines ["a:"; "(x:1)"])
     = Ok (VObj [("a", VObj [("x", VNum (Dec 1 0))])]).
Proof. repeat split. Qed.

Lemma parseFieldsLoop_throws fuel l n chars result current depth e :
  parseFieldsLoop fuel l n chars result current depth = Throw e ->
  e = mkError n l "Unmatched closing parenthesis".
Proof.
  revert chars result current depth.
  induction fuel as [| fuel IH]; intros chars result current depth; simpl;
    [discriminate |].
  destruct chars as [| ch rest]; [discriminate |].
  repeat match goal with
         | |- context [if ?c then _ else _] => destruct c
         end; try apply IH.
  - destruct (scanNested rest 1 "") as [nestedStr rest'].
    destruct (isEmpty nestedStr); simpl; [apply IH |].
    destruct (parseFieldsLoop fuel l n nestedStr [] "" 0) eqn:E; simpl;
      try discriminate; [apply IH |].
    intros H. injection H as <-. now apply IH in E.
  - intros H. now injection H.
Qed.

Lemma parseFields_throws fieldsStr l n e :
  parseFields fieldsStr l n = Throw e ->
  e = mkError n l "Unmatched closing parenthesis".
Proof.
  unfold parseFields. destruct (isEmpty fieldsStr); [discriminate |].
  apply parseFieldsLoop_throws.
Qed.

Lemma includes_indexOf c s :
  includes c s = true -> exists i, indexOf c s = Some i.
Proof.
  induction s as [| d s IH]; simpl; [discriminate |].
  destruct (d =? c)%char; simpl; [eauto |].
  intros H. destruct (IH H) as [i ->]. eauto.
Qed.

Lemma indexOf_includes c s i : indexOf c s = Some i -> includes c s = true.
Proof.
  revert i. induction s as [| d s IH]; simpl; [discriminate |].
  destruct (d =? c)%char; simpl; [reflexivity |].
  destruct (indexOf c s); [eauto | discriminate].
Qed.

(** [parseHeader] throws exactly on the lines without a colon. *)
Lemma parseHeader_throws line n :
  (exists e, parseHeader line n = Throw e) <-> includes ":" line = false.
Proof.
  unfold parseHeader. split.
  - intros [e H]. destruct (startsWith ":" line); [discriminate |].
    destruct (indexOf ":" line) eqn:E; [discriminate |].
    destruct (includes ":" line) eqn:Ei; [| reflexivity].
    apply includes_indexOf in Ei. destruct Ei as [i Ei]. congruence.
  - intros H. destruct (startsWith ":" line) eqn:Es.
    + apply startsWith_colon in Es. destruct Es. congruence.
    + destruct (indexOf ":" line) eqn:E; [| eauto].
      apply indexOf_includes in E. congruence.
Qed.







(** ** The order on keys *)

Lemma ascii_compare_N a b :
  Ascii.compare a b = N.compare (N_of_ascii a) (N_of_ascii b).
Proof. reflexivity. Qed.

Lemma ascii_compare_refl a : Ascii.compare a a = Eq.
Proof. rewrite ascii_compare_N. apply N.compare_refl. Qed.










Lemma jsOrdered_NoDup es : jsOrdered es -> NoDup (keysOf es).
Proof.
  induction es as [| [k v] es IH]; simpl; [constructor |].
  intros (_ & H & _ & Ho). constructor; auto.
Qed.



Lemma map_copy_id (arr : list value) :
  Forall wf arr -> map toNative (map createOrtValue arr) = arr.
Proof.
  intros H. rewrite map_map. rewrite <- (map_id arr) at 2.
  apply map_ext_Forall. eapply Forall_impl; [| exact H].
  intros v Hv. rewrite (createOrtValue_id v) by assumption.
  now apply toNative_wf_id.
Qed.




(** ** Splitting on commas *)

#[local] Arguments scanChar : simpl never.

Lemma keeps_app s1 s2 e d b :
  keeps (s1 ++ s2) e d b
  = match keeps s1 e d b with
    | Some (e', d', b') => keeps s2 e' d' b'
    | None => None
    end.
Proof.
  revert e d b. induction s1 as [| ch s1 IH]; intros e d b; simpl;
    [reflexivity |].
  destruct (scanChar ch e d b); [apply IH | reflexivity].
Qed.

Lemma scanChar_plain c d b :
  needsBackslash c = false -> scanChar c false d b = Keep false d b.
Proof.
  unfold needsBackslash, scanChar. intros H.
  repeat (apply orb_false_elim in H; destruct H as [H ?]).
  repeat match goal with
         | E : (c =? ?x)%char = false |- _ => rewrite E; clear E
         end.
  reflexivity.
Qed.

Lemma nested_keeps c m :
  nested c m ->
  forall d b, (0 <= d)%Z -> (0 <= b)%Z -> (c = true -> (0 < d + b)%Z) ->
  keeps m false d b = Some (false, d, b).
Proof.
  induction 1 as [c | c ch s Hp Hs IH | s Hs IH | c ch s Hs IH
                  | c m s Hm IHm Hs IHs | c m s Hm IHm Hs IHs];
    intros d b Hd Hb Hc'.
  - reflexivity.
  - cbn [keeps]. rewrite scanChar_plain by assumption. now apply IH.
  - simpl. unfold scanChar. simpl.
    assert (E : ((d =? 0) && (b =? 0))%Z = false).
    { specialize (Hc' eq_refl). apply andb_false_iff.
      destruct (Z.eqb_spec d 0); [right; apply Z.eqb_neq; lia | now left]. }
    rewrite E. now apply IH.
  - simpl. now apply IH.
  - change (keeps (String "(" (m ++ String ")" s)) false d b
            = Some (false, d, b)).
    simpl. rewrite keeps_app. rewrite IHm by lia. simpl.
    replace (d + 1 - 1)%Z with d by lia. now apply IHs.
  - change (keeps (String "[" (m ++ String "]" s)) false d b
            = Some (false, d, b)).
    simpl. rewrite keeps_app. rewrite IHm by lia. simpl.
    replace (b + 1 - 1)%Z with b by lia. now apply IHs.
Qed.

Lemma piece_keeps p : nested false p -> keeps p false 0 0 = Some (false, 0%Z, 0%Z).
Proof. intros H. apply (nested_keeps _ _ H); [lia | lia | discriminate]. Qed.

Lemma append_snoc a c s : (a ++ str1 c) ++ s = a ++ String c s.
Proof. now rewrite append_assoc. Qed.

Lemma parseDataValuesLoop_keeps p rest vals cur e d b e' d' b' :
  keeps p e d b = Some (e', d', b') ->
  parseDataValuesLoop (p ++ rest) vals cur e d b
  = parseDataValuesLoop rest vals (cur ++ p) e' d' b'.
Proof.
  revert cur e d b. induction p as [| ch p IH]; intros cur e d b; simpl.
  - intros H. injection H as <- <- <-. now rewrite append_nil_r.
  - destruct (scanChar ch e d b); [| discriminate].
    intros H. rewrite (IH _ _ _ _ H). now rewrite append_snoc.
Qed.

Lemma splitPairsLoop_keeps p rest vals cur e d b e' d' b' :
  keeps p e d b = Some (e', d', b') ->
  splitPairsLoop (p ++ rest) vals cur e d b
  = splitPairsLoop rest vals (cur ++ p) e' d' b'.
Proof.
  revert cur e d b. induction p as [| ch p IH]; intros cur e d b; simpl.
  - intros H. injection H as <- <- <-. now rewrite append_nil_r.
  - destruct (scanChar ch e d b); [| discriminate].
    intros H. rewrite (IH _ _ _ _ H). now rewrite append_snoc.
Qed.

Lemma parseArrayLoop_keeps rec p rest result cur e d b e' d' b' :
  keeps p e d b = Some (e', d', b') ->
  parseArrayLoop rec (p ++ rest) result cur e d b
  = parseArrayLoop rec rest result (cur ++ p) e' d' b'.
Proof.
  revert cur e d b. induction p as [| ch p IH]; intros cur e d b; simpl.
  - intros H. injection H as <- <- <-. now rewrite append_nil_r.
  - destruct (scanChar ch e d b); [| discriminate].
    intros H. rewrite (IH _ _ _ _ H). now rewrite append_snoc.
Qed.

Lemma join_cons sep p q ps :
  join sep (p :: q :: ps) = p ++ sep ++ join sep (q :: ps).
Proof. reflexivity. Qed.

Lemma parseDataValuesLoop_join p ps vals :
  Forall (nested false) (p :: ps) ->
  parseDataValuesLoop (join "," (p :: ps)) vals "" false 0 0
  = (vals ++ p :: ps)%list.
Proof.
  revert p vals. induction ps as [| q ps IH]; intros p vals H;
    inversion H as [| ? ? Hp Hps]; subst.
  - simpl join. rewrite <- (append_nil_r p) at 1.
    rewrite (parseDataValuesLoop_keeps _ _ _ _ _ _ _ _ _ _ (piece_keeps _ Hp)).
    reflexivity.
  - rewrite join_cons.
    rewrite (parseDataValuesLoop_keeps _ _ _ _ _ _ _ _ _ _ (piece_keeps _ Hp)).
    change (parseDataValuesLoop ("," ++ join "," (q :: ps)) vals ("" ++ p)
              false 0 0)
      with (parseDataValuesLoop (join "," (q :: ps)) (vals ++ [p]) ""
              false 0 0).
    rewrite IH by assumption. now rewrite <- app_assoc.
Qed.

Lemma parseDataValues_join ps :
  ps <> [] -> Forall (nested false) ps -> parseDataValues (join "," ps) = ps.
Proof.
  destruct ps as [| p ps]; [contradiction |]. intros _ H.
  unfold parseDataValues. now rewrite parseDataValuesLoop_join.
Qed.

Lemma splitPairsLoop_join p ps vals :
  Forall (nested false) (p :: ps) ->
  splitPairsLoop (join "," (p :: ps)) vals "" false 0 0
  = (vals ++ trimLast (p :: ps))%list.
Proof.
  revert p vals. induction ps as [| q ps IH]; intros p vals H;
    inversion H as [| ? ? Hp Hps]; subst.
  - simpl join. rewrite <- (append_nil_r p) at 1.
    rewrite (splitPairsLoop_keeps _ _ _ _ _ _ _ _ _ _ (piece_keeps _ Hp)).
    unfold trimLast. simpl.
    destruct (isEmpty (trim p)); [now rewrite app_nil_r | reflexivity].
  - rewrite join_cons.
    rewrite (splitPairsLoop_keeps _ _ _ _ _ _ _ _ _ _ (piece_keeps _ Hp)).
    change (splitPairsLoop ("," ++ join "," (q :: ps)) vals ("" ++ p)
              false 0 0)
      with (splitPairsLoop (join "," (q :: ps)) (vals ++ [p]) "" false 0 0).
    rewrite IH by assumption.
    rewrite <- app_assoc. reflexivity.
Qed.

Lemma splitPairs_join ps :
  ps <> [] -> Forall (nested false) ps ->
  splitPairs (join "," ps) = trimLast ps.
Proof.
  destruct ps as [| p ps]; [contradiction |]. intros _ H.
  unfold splitPairs. now rewrite splitPairsLoop_join.
Qed.

Lemma parseArrayLoop_join rec p ps result :
  Forall (nested false) (p :: ps) ->
  parseArrayLoop rec (join "," (p :: ps)) result "" false 0 0
  = parseItems rec (p :: ps) result.
Proof.
  revert p result. induction ps as [| q ps IH]; intros p result H;
    inversion H as [| ? ? Hp Hps]; subst.
  - simpl join. rewrite <- (append_nil_r p) at 1.
    rewrite (parseArrayLoop_keeps _ _ _ _ _ _ _ _ _ _ _ (piece_keeps _ Hp)).
    reflexivity.
  - rewrite join_cons.
    rewrite (parseArrayLoop_keeps _ _ _ _ _ _ _ _ _ _ _ (piece_keeps _ Hp)).
    change (parseArrayLoop rec ("," ++ join "," (q :: ps)) result ("" ++ p)
              false 0 0)
      with (value <- rec p ;;
            parseArrayLoop rec (join "," (q :: ps))
              (result ++ [toNative value]) "" false 0 0).
    change (parseItems rec (p :: q :: ps) result)
      with (v <- rec p ;; parseItems rec (q :: ps) (result ++ [toNative v])).
    destruct (rec p); cbn [bind]; try reflexivity. now apply IH.
Qed.

Lemma escapedAfter_snoc s ch e :
  escapedAfter (s ++ str1 ch) e
  = if escapedAfter s e then false else (ch =? BACKSLASH)%char.
Proof.
  revert e. induction s as [| c s IH]; intros e; [reflexivity |].
  cbn [append escapedAfter]. apply IH.
Qed.

Lemma unescapedCount_snoc c s ch e :
  unescapedCount c (s ++ str1 ch) e
  = (unescapedCount c s e
     + if escapedAfter s e then 0 else if (ch =? c)%char then 1 else 0)%Z.
Proof.
  revert e. induction s as [| x s IH]; intros e.
  - cbn [append str1 unescapedCount escapedAfter]. destruct e; lia.
  - cbn [append unescapedCount escapedAfter]. destruct e.
    + apply IH.
    + rewrite IH. lia.
Qed.

(** The state of the scan after [before] is given by the two counts. *)
Lemma scanChar_topLevel before ch :
  scanChar ch (escapedAfter before false) (parenDepth before)
    (bracketDepth before)
  = if topLevelComma before ch then Cut
    else Keep (escapedAfter (before ++ str1 ch) false)
           (parenDepth (before ++ str1 ch))
           (bracketDepth (before ++ str1 ch)).
Proof.
  unfold topLevelComma, parenDepth, bracketDepth.
  rewrite escapedAfter_snoc, !unescapedCount_snoc.
  unfold scanChar.
  destruct (escapedAfter before false).
  { rewrite andb_false_r. cbn [andb]. f_equal; lia. }
  cbn [negb]. rewrite andb_true_r.
  destruct (Ascii.eqb_spec ch BACKSLASH) as [-> | _].
  { cbn. f_equal; lia. }
  destruct (Ascii.eqb_spec ch "(") as [-> | _].
  { cbn. f_equal; lia. }
  destruct (Ascii.eqb_spec ch ")") as [-> | _].
  { cbn. f_equal; lia. }
  destruct (Ascii.eqb_spec ch "[") as [-> | _].
  { cbn. f_equal; lia. }
  destruct (Ascii.eqb_spec ch "]") as [-> | _].
  { cbn. f_equal; lia. }
  destruct (Ascii.eqb_spec ch ",") as [-> | _].
  - cbn [andb].
    destruct ((_ =? 0)%Z && (_ =? 0)%Z); [reflexivity |].
    f_equal; cbn; lia.
  - cbn [andb]. f_equal; lia.
Qed.

Lemma topLevelComma_start before ch :
  topLevelComma before ch = true ->
  escapedAfter (before ++ str1 ch) false = false
  /\ parenDepth (before ++ str1 ch) = 0%Z
  /\ bracketDepth (before ++ str1 ch) = 0%Z.
Proof.
  unfold topLevelComma, parenDepth, bracketDepth.
  rewrite escapedAfter_snoc, !unescapedCount_snoc.
  intros H. apply andb_true_iff in H. destruct H as [H Hb].
  apply andb_true_iff in H. destruct H as [H Hp].
  apply andb_true_iff in H. destruct H as [Hc He].
  apply Ascii.eqb_eq in Hc. subst ch.
  apply negb_true_iff in He. rewrite He.
  apply Z.eqb_eq in Hp, Hb. cbn. repeat split; lia.
Qed.

Lemma parseDataValuesLoop_topLevel rest :
  forall before vals cur,
    parseDataValuesLoop rest vals cur (escapedAfter before false)
      (parenDepth before) (bracketDepth before)
    = (vals ++ cutAtTopLevel before rest cur)%list.
Proof.
  induction rest as [| ch rest IH]; intros before vals cur; [reflexivity |].
  cbn [parseDataValuesLoop cutAtTopLevel]. rewrite scanChar_topLevel.
  destruct (topLevelComma before ch) eqn:E.
  - destruct (topLevelComma_start _ _ E) as (He & Hp & Hb).
    assert (E' := E). unfold topLevelComma in E'.
    apply andb_true_iff in E'. destruct E' as [E' Hb0].
    apply andb_true_iff in E'. destruct E' as [E' Hp0].
    apply andb_true_iff in E'. destruct E' as [_ He0].
    apply negb_true_iff in He0. apply Z.eqb_eq in Hp0, Hb0.
    rewrite He0, Hp0, Hb0.
    rewrite <- He, <- Hp at 1. rewrite <- Hb at 1.
    rewrite IH. now rewrite <- app_assoc.
  - apply IH.
Qed.

Lemma trimLast_cons x y l : trimLast (x :: y :: l) = x :: trimLast (y :: l).
Proof. reflexivity. Qed.

Lemma cutAtTopLevel_nonempty before rest cur :
  cutAtTopLevel before rest cur <> [].
Proof.
  revert before cur. induction rest as [| ch rest IH]; intros before cur;
    cbn [cutAtTopLevel]; [discriminate |].
  destruct (topLevelComma before ch); [discriminate | apply IH].
Qed.

Lemma splitPairsLoop_topLevel rest :
  forall before vals cur,
    splitPairsLoop rest vals cur (escapedAfter before false)
      (parenDepth before) (bracketDepth before)
    = (vals ++ trimLast (cutAtTopLevel before rest cur))%list.
Proof.
  induction rest as [| ch rest IH]; intros before vals cur.
  - cbn [splitPairsLoop cutAtTopLevel]. unfold trimLast.
    cbn [removelast last app].
    destruct (isEmpty (trim cur)); [now rewrite app_nil_r | reflexivity].
  - cbn [splitPairsLoop cutAtTopLevel]. rewrite scanChar_topLevel.
    destruct (topLevelComma before ch) eqn:E.
    + destruct (topLevelComma_start _ _ E) as (He & Hp & Hb).
      assert (E' := E). unfold topLevelComma in E'.
      apply andb_true_iff in E'. destruct E' as [E' Hb0].
      apply andb_true_iff in E'. destruct E' as [E' Hp0].
      apply andb_true_iff in E'. destruct E' as [_ He0].
      apply negb_true_iff in He0. apply Z.eqb_eq in Hp0, Hb0.
      rewrite He0, Hp0, Hb0.
      rewrite <- He, <- Hp at 1. rewrite <- Hb at 1.
      rewrite IH. rewrite <- app_assoc. f_equal.
      pose proof (cutAtTopLevel_nonempty (before ++ str1 ch) rest "") as Hn.
      destruct (cutAtTopLevel (before ++ str1 ch) rest "") as [| y l];
        [contradiction | now rewrite trimLast_cons].
    + apply IH.
Qed.

Lemma parseItems_step rec p q rest result :
  parseItems rec (p :: q :: rest) result
  = (v <- rec p ;; parseItems rec (q :: rest) (result ++ [toNative v])%list).
Proof. reflexivity. Qed.

Lemma parseArrayLoop_topLevel rec rest :
  forall before result cur,
    parseArrayLoop rec rest result cur (escapedAfter before false)
      (parenDepth before) (bracketDepth before)
    = parseItems rec (cutAtTopLevel before rest cur) result.
Proof.
  induction rest as [| ch rest IH]; intros before result cur.
  - reflexivity.
  - cbn [parseArrayLoop cutAtTopLevel]. rewrite scanChar_topLevel.
    destruct (topLevelComma before ch) eqn:E.
    + destruct (topLevelComma_start _ _ E) as (He & Hp & Hb).
      assert (E' := E). unfold topLevelComma in E'.
      apply andb_true_iff in E'. destruct E' as [E' Hb0].
      apply andb_true_iff in E'. destruct E' as [E' Hp0].
      apply andb_true_iff in E'. destruct E' as [_ He0].
      apply negb_true_iff in He0. apply Z.eqb_eq in Hp0, Hb0.
      rewrite He0, Hp0, Hb0.
      pose proof (cutAtTopLevel_nonempty (before ++ str1 ch) rest "") as Hn.
      destruct (cutAtTopLevel (before ++ str1 ch) rest "") as [| y l] eqn:Ec;
        [contradiction |].
      rewrite parseItems_step.
      destruct (rec cur); cbn [bind]; try reflexivity.
      rewrite <- He, <- Hp at 1. rewrite <- Hb at 1.
      rewrite IH. now rewrite Ec.
    + apply IH.
Qed.

(** C7.  The three splitting loops cut a text at its top-level commas
    and nowhere else, whatever the text: at the commas that no backslash
    escapes and that stand where the count of unescaped parentheses and
    the count of unescaped square brackets, each opening less closing
    ones, kept apart from one another, are both 0.  A backslash escapes
    the next character only, and an escaped character changes neither
    count.  So on well-nested pieces joined by commas the loops give the
    pieces back: a comma inside a group of a piece, or an escaped one,
    never splits. *)
Theorem commas_in_groups_do_not_split :
  (forall text : string,
      parseDataValues text = topLevelPieces text
      /\ splitPairs text = trimLast (topLevelPieces text)
      /\ forall rec result,
           parseArrayLoop rec text result "" false 0 0
           = parseItems rec (topLevelPieces text) result)
  /\ (forall pieces : list string,
        pieces <> [] -> Forall (nested false) pieces ->
        topLevelPieces (join "," pieces) = pieces
        /\ parseDataValues (join "," pieces) = pieces
        /\ splitPairs (join "," pieces) = trimLast pieces
        /\ forall rec result,
             parseArrayLoop rec (join "," pieces) result "" false 0 0
             = parseItems rec pieces result)
  /\ (forall ch d b, scanChar ch true d b = Keep false d b).
Proof.
  assert (H1 : forall text, parseDataValues text = topLevelPieces text).
  { intros text. exact (parseDataValuesLoop_topLevel text "" [] ""). }
  split; [| split; [| reflexivity]].
  - intros text. split; [apply H1 |]. split.
    + exact (splitPairsLoop_topLevel text "" [] "").
    + intros rec result. exact (parseArrayLoop_topLevel rec text "" result "").
  - intros pieces Hne H. split; [| split; [| split]].
    + rewrite <- H1. now apply parseDataValues_join.
    + now apply parseDataValues_join.
    + now apply splitPairs_join.
    + intros rec result. destruct pieces as [| p ps]; [contradiction |].
      now apply parseArrayLoop_join.
Qed.

(** Derivations of [nested] for a text without groups. *)
Ltac nested_flat :=
  repeat first
    [ apply nested_nil
    | apply nested_comma
    | apply nested_escape
    | apply nested_plain; [reflexivity |] ].

Lemma commas_in_groups_do_not_split_witness :
  parseDataValues "Alice,(Main St\, 5,NYC),[a,(b,c)],x\\"
  = ["Alice"; "(Main St\, 5,NYC)"; "[a,(b,c)]"; "x\\"].
Proof.
  apply (proj1 (proj2 commas_in_groups_do_not_split)
           ["Alice"; "(Main St\, 5,NYC)"; "[a,(b,c)]"; "x\\"]).
  - discriminate.
  - repeat apply Forall_cons; try apply Forall_nil.
    + nested_flat.
    + apply (nested_paren false "Main St\, 5,NYC" ""); nested_flat.
    + apply (nested_bracket false "a,(b,c)" ""); [| nested_flat].
      apply (nested_plain true "a"); [reflexivity |]. apply nested_comma.
      apply (nested_paren true "b,c" ""); nested_flat.
    + nested_flat.
Defined.

(** C7, as stated, fails: after a stray closing parenthesis the comma
    inside a group splits, and so does a comma that follows an escaped
    backslash. *)
Lemma comma_in_group_can_split :
  parseDataValues ")(a,b)" = [")(a"; "b)"]
  /\ parseDataValues "a\\,b" = ["a\\"; "b"].
Proof. split; reflexivity. Qed.

(** The two counts are kept apart: a square bracket does not close a
    parenthesis, nor a parenthesis a square bracket, and an unclosed
    group keeps the commas after it. *)
Example depths_are_independent :
  parseDataValues "(a],b" = ["(a],b"]
  /\ parseDataValues "[a),b" = ["[a),b"]
  /\ parseDataValues "(],[),c" = ["(],[)"; "c"]
  /\ parseDataValues "x,(a,b),(c,d" = ["x"; "(a,b)"; "(c,d"].
Proof. repeat split. Qed.

(** ** The store: [get] gives a detached copy *)

Lemma update_length {A : Type} (l : list A) i x :
  List.length (Store.update l i x) = List.length l.
Proof.
  revert i. induction l as [| y l IH]; intros [| i]; simpl; auto.
Qed.

Lemma update_other {A : Type} (l : list A) i j x :
  i <> j -> nth_error (Store.update l i x) j = nth_error l j.
Proof.
  revert i j. induction l as [| y l IH]; intros [| i] [| j] H; simpl; auto.
  congruence.
Qed.

Lemma update_firstn {A : Type} (l : list A) i n x :
  n <= i -> firstn n (Store.update l i x) = firstn n l.
Proof.
  revert i n. induction l as [| y l IH]; intros [| i] [| n] H; simpl; auto;
    try lia.
  f_equal. apply IH. lia.
Qed.

Lemma extends_refl h : extends h h.
Proof. exists []. now rewrite app_nil_r. Qed.

Lemma extends_trans h1 h2 h3 : extends h1 h2 -> extends h2 h3 -> extends h1 h3.
Proof. intros [a ->] [b ->]. exists (a ++ b)%list. now rewrite app_assoc. Qed.

Lemma extends_alloc h c : extends h (h ++ [c])%list.
Proof. now exists [c]. Qed.

Lemma extends_length h h' : extends h h' -> List.length h <= List.length h'.
Proof. intros [ext ->]. rewrite length_app. lia. Qed.

Lemma extends_nth h h' l c :
  extends h h' -> nth_error h l = Some c -> nth_error h' l = Some c.
Proof.
  intros [ext ->] H. rewrite nth_error_app1; [assumption |].
  apply nth_error_Some. congruence.
Qed.

Lemma extends_firstn h h' : extends h h' -> firstn (List.length h) h' = h.
Proof.
  intros [ext ->]. rewrite firstn_app, Nat.sub_diag, firstn_all. simpl.
  apply app_nil_r.
Qed.

Section NormalizeExtends.

Variable norm : Store.heap -> Store.jsval -> option (Store.heap * Store.jsval).
Hypothesis norm_extends :
  forall h v h' v', norm h v = Some (h', v') -> extends h h'.

Lemma normalizeItems_extends items h acc h' items' :
  Store.normalizeItems norm items h acc = Some (h', items') -> extends h h'.
Proof.
  revert h acc. induction items as [| v rest IH]; intros h acc; simpl.
  - intros H. injection H as <- _. apply extends_refl.
  - destruct (norm h v) as [[h1 v1] |] eqn:E; [| discriminate].
    intros H. eapply extends_trans; [eapply norm_extends; eassumption |].
    eapply IH; eassumption.
Qed.

Lemma normalizeProps_extends props h result h' result' :
  Store.normalizeProps norm props h result = Some (h', result') -> extends h h'.
Proof.
  revert h result. induction props as [| [k v] rest IH]; intros h result; simpl.
  - intros H. injection H as <- _. apply extends_refl.
  - destruct (norm h v) as [[h1 v1] |] eqn:E; [| discriminate].
    intros H. eapply extends_trans; [eapply norm_extends; eassumption |].
    eapply IH; eassumption.
Qed.

End NormalizeExtends.

Lemma normalize_extends fuel h v h' v' :
  Store.normalize fuel h v = Some (h', v') -> extends h h'.
Proof.
  revert h v h' v'. induction fuel as [| fuel IH]; intros h v h' v';
    destruct v; simpl; try discriminate;
    try (intros H; injection H as <- _; apply extends_refl).
  destruct (nth_error h l) as [[items | props | payload] |]; try discriminate.
  - destruct (Store.normalizeItems _ items h []) as [[h1 items'] |] eqn:E;
      [| discriminate].
    intros H. injection H as <- _.
    eapply extends_trans; [| apply extends_alloc].
    eapply normalizeItems_extends; [| exact E]. exact IH.
  - destruct (Store.normalizeProps _ props h []) as [[h1 result] |] eqn:E;
      [| discriminate].
    intros H. injection H as <- _.
    eapply extends_trans; [| apply extends_alloc].
    eapply normalizeProps_extends; [| exact E]. exact IH.
  - intros H. injection H as <- _. apply extends_refl.
Qed.

Lemma reifyItems_mono (r1 r2 : Store.jsval -> option value) items ts :
  (forall v t, r1 v = Some t -> r2 v = Some t) ->
  Store.reifyItems r1 items = Some ts -> Store.reifyItems r2 items = Some ts.
Proof.
  intros Hr. revert ts. induction items as [| v rest IH]; intros ts; simpl; auto.
  destruct (r1 v) as [t |] eqn:E; [| discriminate].
  destruct (Store.reifyItems r1 rest) as [ts' |]; [| discriminate].
  intros H. rewrite (Hr _ _ E), (IH _ eq_refl). exact H.
Qed.

Lemma reifyProps_mono (r1 r2 : Store.jsval -> option value) props ts :
  (forall v t, r1 v = Some t -> r2 v = Some t) ->
  Store.reifyProps r1 props = Some ts -> Store.reifyProps r2 props = Some ts.
Proof.
  intros Hr. revert ts. induction props as [| [k v] rest IH]; intros ts; simpl;
    auto.
  destruct (r1 v) as [t |] eqn:E; [| discriminate].
  destruct (Store.reifyProps r1 rest) as [ts' |]; [| discriminate].
  intros H. rewrite (Hr _ _ E), (IH _ eq_refl). exact H.
Qed.

(** What a value stands for does not depend on later cells. *)
Lemma reify_extends fuel h h' v t :
  extends h h' -> Store.reify fuel h v = Some t -> Store.reify fuel h' v = Some t.
Proof.
  intros He. revert v t. induction fuel as [| fuel IH]; intros v t;
    destruct v; simpl; auto.
  destruct (nth_error h l) as [c |] eqn:E; [| discriminate].
  rewrite (extends_nth _ _ _ _ He E).
  destruct c as [items | props | payload]; try discriminate.
  - destruct (Store.reifyItems _ items) as [ts |] eqn:Ei; [| discriminate].
    now rewrite (reifyItems_mono _ _ _ _ IH Ei).
  - destruct (Store.reifyProps _ props) as [ts |] eqn:Ei; [| discriminate].
    now rewrite (reifyProps_mono _ _ _ _ IH Ei).
Qed.

Lemma reifyItems_app r a b :
  Store.reifyItems r (a ++ b)%list
  = match Store.reifyItems r a, Store.reifyItems r b with
    | Some x, Some y => Some (x ++ y)%list
    | _, _ => None
    end.
Proof.
  induction a as [| v a IH]; simpl.
  - now destruct (Store.reifyItems r b).
  - destruct (r v); [| reflexivity]. rewrite IH.
    destruct (Store.reifyItems r a), (Store.reifyItems r b); reflexivity.
Qed.

Lemma reifyProps_app r a b :
  Store.reifyProps r (a ++ b)%list
  = match Store.reifyProps r a, Store.reifyProps r b with
    | Some x, Some y => Some (x ++ y)%list
    | _, _ => None
    end.
Proof.
  induction a as [| [k v] a IH]; simpl.
  - now destruct (Store.reifyProps r b).
  - destruct (r v); [| reflexivity]. rewrite IH.
    destruct (Store.reifyProps r a), (Store.reifyProps r b); reflexivity.
Qed.

Lemma reifyProps_hasKey r props ts k :
  Store.reifyProps r props = Some ts -> hasKey k props = hasKey k ts.
Proof.
  unfold hasKey. revert ts.
  induction props as [| [k' v] props IH]; intros ts; simpl.
  - intros H. now injection H as <-.
  - destruct (r v); [| discriminate].
    destruct (Store.reifyProps r props) as [ts' |]; [| discriminate].
    intros H. injection H as <-. simpl.
    destruct (k' =? k)%string; [reflexivity | now apply IH].
Qed.

Lemma reifyProps_replaceKey r props ts k v t :
  Store.reifyProps r props = Some ts -> r v = Some t ->
  Store.reifyProps r (replaceKey k v props) = Some (replaceKey k t ts).
Proof.
  intros H Hv. revert ts H.
  induction props as [| [k' v'] props IH]; intros ts; simpl.
  - intros H. now injection H as <-.
  - destruct (r v') as [t' |] eqn:E; [| discriminate].
    destruct (Store.reifyProps r props) as [ts' |] eqn:E'; [| discriminate].
    intros H. injection H as <-. simpl.
    destruct (k' =? k)%string; simpl.
    + now rewrite Hv, E'.
    + now rewrite E, (IH _ eq_refl).
Qed.

Lemma reifyProps_insertIndex r props ts n k v t :
  Store.reifyProps r props = Some ts -> r v = Some t ->
  Store.reifyProps r (insertIndex n k v props) = Some (insertIndex n k t ts).
Proof.
  intros H Hv. revert ts H.
  induction props as [| [k' v'] props IH]; intros ts; simpl.
  - intros H. injection H as <-. simpl. now rewrite Hv.
  - destruct (r v') as [t' |] eqn:E; [| discriminate].
    destruct (Store.reifyProps r props) as [ts' |] eqn:E'; [| discriminate].
    intros H. injection H as <-. simpl.
    destruct (arrayIndex k') as [n' |]; [destruct (n' <? n)%N |]; simpl.
    + now rewrite E, (IH _ eq_refl).
    + now rewrite Hv, E, E'.
    + now rewrite Hv, E, E'.
Qed.

Lemma reifyProps_objSet r props ts k v t :
  Store.reifyProps r props = Some ts -> r v = Some t ->
  Store.reifyProps r (objSet k v props) = Some (objSet k t ts).
Proof.
  intros H Hv. unfold objSet.
  destruct (k =? "__proto__")%string; [assumption |].
  rewrite (reifyProps_hasKey _ _ _ k H).
  destruct (hasKey k ts); [now apply reifyProps_replaceKey |].
  destruct (arrayIndex k); [now apply reifyProps_insertIndex |].
  rewrite reifyProps_app, H. simpl. now rewrite Hv.
Qed.

Section NormalizeReify.

Variable fuel : nat.
Hypothesis IH :
  forall h v t,
    Store.reify fuel h v = Some t ->
    exists h' v',
      Store.normalize fuel h v = Some (h', v')
      /\ Store.reify fuel h' v' = Some (Value.normalize t).

Lemma normalizeItems_reify items h0 h acc ts accT :
  extends h0 h ->
  Store.reifyItems (Store.reify fuel h0) items = Some ts ->
  Store.reifyItems (Store.reify fuel h) acc = Some accT ->
  exists h' items',
    Store.normalizeItems (Store.normalize fuel) items h acc = Some (h', items')
    /\ Store.reifyItems (Store.reify fuel h') items'
       = Some (accT ++ map Value.normalize ts)%list.
Proof.
  revert h acc ts accT.
  induction items as [| v rest IHl]; intros h acc ts accT He Hts Hacc; simpl.
  - simpl in Hts. injection Hts as <-. exists h, acc. split; [reflexivity |].
    simpl. now rewrite app_nil_r.
  - simpl in Hts.
    destruct (Store.reify fuel h0 v) as [t0 |] eqn:E0; [| discriminate].
    destruct (Store.reifyItems _ rest) as [ts' |] eqn:E1; [| discriminate].
    injection Hts as <-.
    destruct (IH h v t0 (reify_extends _ _ _ _ _ He E0)) as (h1 & v1 & Hn & Hr).
    rewrite Hn. pose proof (normalize_extends _ _ _ _ _ Hn) as He1.
    destruct (IHl h1 (acc ++ [v1])%list ts' (accT ++ [Value.normalize t0])%list)
      as (h' & items' & Hi & Hri).
    + eapply extends_trans; eassumption.
    + reflexivity.
    + rewrite reifyItems_app.
      rewrite (reifyItems_mono _ _ _ _ (fun v t => reify_extends fuel h h1 v t He1) Hacc).
      simpl. now rewrite Hr.
    + exists h', items'. split; [assumption |].
      rewrite Hri. simpl. now rewrite <- app_assoc.
Qed.

Lemma normalizeProps_reify props h0 h result ts resT :
  extends h0 h ->
  Store.reifyProps (Store.reify fuel h0) props = Some ts ->
  Store.reifyProps (Store.reify fuel h) result = Some resT ->
  exists h' result',
    Store.normalizeProps (Store.normalize fuel) props h result
      = Some (h', result')
    /\ Store.reifyProps (Store.reify fuel h') result'
       = Some (fold_left (fun acc kv => objSet (fst kv) (snd kv) acc)
                 (map (fun kv => (fst kv, Value.normalize (snd kv))) ts) resT).
Proof.
  revert h result ts resT.
  induction props as [| [k v] rest IHl]; intros h result ts resT He Hts Hres;
    simpl.
  - simpl in Hts. injection Hts as <-. exists h, result. now split.
  - simpl in Hts.
    destruct (Store.reify fuel h0 v) as [t0 |] eqn:E0; [| discriminate].
    destruct (Store.reifyProps _ rest) as [ts' |] eqn:E1; [| discriminate].
    injection Hts as <-.
    destruct (IH h v t0 (reify_extends _ _ _ _ _ He E0)) as (h1 & v1 & Hn & Hr).
    rewrite Hn. pose proof (normalize_extends _ _ _ _ _ Hn) as He1.
    destruct (IHl h1 (objSet k v1 result) ts'
                (objSet k (Value.normalize t0) resT))
      as (h' & result' & Hi & Hri).
    + eapply extends_trans; eassumption.
    + reflexivity.
    + apply reifyProps_objSet; [| assumption].
      exact (reifyProps_mono _ _ _ _
               (fun v t => reify_extends fuel h h1 v t He1) Hres).
    + exists h', result'. split; assumption.
Qed.

End NormalizeReify.

(** [normalize] on a value that stands for the tree [t]: it returns, the
    result stands for the normalized [t], and when it is a reference it
    refers to a cell that was not there before. *)
Lemma normalize_reify fuel h v t :
  Store.reify fuel h v = Some t ->
  exists h' v',
    Store.normalize fuel h v = Some (h', v')
    /\ Store.reify fuel h' v' = Some (Value.normalize t).
Proof.
  revert h v t. induction fuel as [| fuel IH]; intros h v t;
    destruct v; simpl; try discriminate;
    try (intros H; injection H as <-; eexists _, _; split; reflexivity).
  destruct (nth_error h l) as [[items | props | payload] |] eqn:El;
    try discriminate.
  - destruct (Store.reifyItems _ items) as [ts |] eqn:Ei; [| discriminate].
    intros H. injection H as <-.
    destruct (normalizeItems_reify fuel IH items h h [] ts []
                (extends_refl h) Ei eq_refl) as (h' & items' & Hn & Hr).
    rewrite Hn. eexists _, _. split; [reflexivity |].
    simpl. rewrite nth_error_app2, Nat.sub_diag by lia. simpl.
    rewrite (reifyItems_mono _ _ _ _
               (fun v t => reify_extends fuel h' _ v t (extends_alloc h' _)) Hr).
    reflexivity.
  - destruct (Store.reifyProps _ props) as [ts |] eqn:Ei; [| discriminate].
    intros H. injection H as <-.
    destruct (normalizeProps_reify fuel IH props h h [] ts []
                (extends_refl h) Ei eq_refl) as (h' & result' & Hn & Hr).
    rewrite Hn. eexists _, _. split; [reflexivity |].
    simpl. rewrite nth_error_app2, Nat.sub_diag by lia. simpl.
    rewrite (reifyProps_mono _ _ _ _
               (fun v t => reify_extends fuel h' _ v t (extends_alloc h' _)) Hr).
    reflexivity.
Qed.

(** A copy of an array or an object is a new cell. *)
Lemma normalize_fresh fuel h l h' v' c :
  nth_error h l = Some c ->
  (forall p, c <> Store.COrt p) ->
  Store.normalize fuel h (Store.JRef l) = Some (h', v') ->
  exists l', v' = Store.JRef l' /\ List.length h <= l'
             /\ exists c', nth_error h' l' = Some c' /\ forall p, c' <> Store.COrt p.
Proof.
  intros Hl Hc. destruct fuel as [| fuel]; simpl; [discriminate |].
  rewrite Hl. destruct c as [items | props | payload].
  - destruct (Store.normalizeItems _ items h []) as [[h1 items'] |] eqn:E;
      [| discriminate].
    intros H. injection H as <- <-.
    exists (List.length h1). split; [reflexivity |].
    split.
    + apply extends_length. eapply normalizeItems_extends; [| exact E].
      intros; eapply normalize_extends; eassumption.
    + exists (Store.CArr items'). rewrite nth_error_app2, Nat.sub_diag by lia.
      split; [reflexivity | discriminate].
  - destruct (Store.normalizeProps _ props h []) as [[h1 result] |] eqn:E;
      [| discriminate].
    intros H. injection H as <- <-.
    exists (List.length h1). split; [reflexivity |].
    split.
    + apply extends_length. eapply normalizeProps_extends; [| exact E].
      intros; eapply normalize_extends; eassumption.
    + exists (Store.CObj result). rewrite nth_error_app2, Nat.sub_diag by lia.
      split; [reflexivity | discriminate].
  - exfalso. now apply (Hc payload).
Qed.

Lemma payloadCell_detached size h sub o c :
  detached size h sub -> Store.payloadCell h sub = Some (o, c) ->
  size <= o /\ o <> sub /\ nth_error h o = Some c.
Proof.
  intros (Hs & p & Hp & Hd). unfold Store.payloadCell. rewrite Hp.
  destruct p as [| | | | o']; try discriminate.
  destruct Hd as (Ho & c' & Hc' & Hn). rewrite Hc'.
  destruct c' as [items | props | q]; intros H; try injection H as <- <-;
    try (exfalso; now apply (Hn q)).
  - repeat split; auto. intros ->. congruence.
  - repeat split; auto. intros ->. congruence.
Qed.

Lemma detached_update size h h1 sub o c c' :
  detached size h sub -> extends h h1 ->
  size <= o -> o <> sub -> nth_error h o = Some c ->
  (forall q, c' <> Store.COrt q) ->
  detached size (Store.update h1 o c') sub
  /\ firstn size (Store.update h1 o c') = firstn size h.
Proof.
  intros (Hs & p & Hp & Hd) He Ho Hne Hc Hc'.
  assert (Hlen : sub < List.length h)
    by (apply nth_error_Some; congruence).
  split.
  - split; [assumption |]. exists p. split.
    + rewrite update_other by assumption. eapply extends_nth; eassumption.
    + destruct p as [| | | | o']; auto.
      destruct Hd as (Ho' & c0 & Hc0 & Hn). split; [assumption |].
      destruct (Nat.eq_dec o o') as [<- | Hoo].
      * exists c'. split; [| assumption].
        assert (Ho1 : o < List.length h1).
        { apply nth_error_Some. rewrite (extends_nth _ _ _ _ He Hc).
          discriminate. }
        clear - Ho1. revert o Ho1.
        induction h1 as [| y h1 IH]; intros [| o] H; simpl in *; try lia; auto.
        apply IH. lia.
      * exists c0. split; [| assumption].
        rewrite update_other by assumption. eapply extends_nth; eassumption.
  - rewrite update_firstn by assumption.
    destruct He as [ext ->]. rewrite firstn_app.
    replace (size - List.length h) with 0 by lia. simpl. apply app_nil_r.
Qed.

Lemma set_frame size fuel h sub k v h' :
  detached size h sub -> Store.set fuel h sub k v = Store.Ret h' ->
  detached size h' sub /\ firstn size h' = firstn size h.
Proof.
  intros Hd. unfold Store.set.
  destruct (Store.payloadCell h sub) as [[o c] |] eqn:Ep;
    [| destruct k; discriminate].
  destruct (payloadCell_detached _ _ _ _ _ Hd Ep) as (Ho & Hne & Hc).
  destruct k as [s | i], c as [items | props | q]; try discriminate.
  - destruct (Store.normalize fuel h v) as [[h1 v1] |] eqn:En; [| discriminate].
    intros H. injection H as <-.
    eapply detached_update; eauto using normalize_extends. discriminate.
  - destruct (Store.outOfBounds i items); [discriminate |].
    destruct (Store.normalize fuel h v) as [[h1 v1] |] eqn:En; [| discriminate].
    intros H. injection H as <-.
    eapply detached_update; eauto using normalize_extends. discriminate.
Qed.

Lemma setAll_frame size h sub calls :
  detached size h sub ->
  firstn size (Store.setAll h sub calls) = firstn size h.
Proof.
  revert h. induction calls as [| [[fuel k] v] rest IH]; intros h Hd; simpl;
    [reflexivity |].
  destruct (Store.set fuel h sub k v) as [h' | |] eqn:E; auto.
  destruct (set_frame _ _ _ _ _ _ _ Hd E) as [Hd' Hf].
  rewrite IH by assumption. exact Hf.
Qed.

Lemma newOrtValue_detached fuel h x t :
  Store.reify fuel h x = Some t ->
  exists h1 sub p,
    Store.newOrtValue fuel h x = Store.Ret (h1, sub)
    /\ extends h h1
    /\ nth_error h1 sub = Some (Store.COrt p)
    /\ Store.reify fuel h1 p = Some (Value.normalize t)
    /\ detached (List.length h) h1 sub.
Proof.
  intros Hr. destruct (normalize_reify _ _ _ _ Hr) as (h' & v' & Hn & Hr').
  pose proof (normalize_extends _ _ _ _ _ Hn) as He.
  unfold Store.newOrtValue. rewrite Hn.
  exists (h' ++ [Store.COrt v'])%list, (List.length h'), v'.
  assert (Hsub : nth_error (h' ++ [Store.COrt v']) (List.length h')
                 = Some (Store.COrt v'))
    by now rewrite nth_error_app2, Nat.sub_diag by lia.
  split; [reflexivity |].
  split; [eapply extends_trans; [exact He | apply extends_alloc] |].
  split; [exact Hsub |].
  split; [eapply reify_extends; [apply extends_alloc | exact Hr'] |].
  split; [now apply extends_length |].
  exists v'. split; [exact Hsub |].
  destruct v' as [| | | | o]; auto.
  destruct x as [| | | | l];
    try (destruct fuel; simpl in Hn; injection Hn as _ Hn; discriminate).
  assert (Hl : exists c, nth_error h l = Some c /\ forall q, c <> Store.COrt q).
  { destruct fuel as [| fuel]; simpl in Hr; [discriminate |].
    destruct (nth_error h l) as [[items | props | q] |]; try discriminate;
      eexists; split; try reflexivity; discriminate. }
  destruct Hl as (c & Hc & Hnc).
  destruct (normalize_fresh _ _ _ _ _ _ Hc Hnc Hn)
    as (l' & El & Hlen & c' & Hc' & Hnc').
  injection El as ->. split; [assumption |].
  exists c'. split; [| assumption].
  eapply extends_nth; [apply extends_alloc | exact Hc'].
Qed.

(** C9.  When the key or index [k] is present in the receiver and the
    value stored there stands for the tree [t], [get] returns a new
    [OrtValue] that stands for the same tree and shares no cell with the
    store as it was: after any run of [set] calls on the returned value
    every cell that existed before the [get] is as it was, and every
    value of the old store stands for the tree it stood for. *)
Theorem get_is_detached_copy :
  forall (fuel : nat) (h : Store.heap) (this : Store.loc) (k : Store.key)
         (x : Store.jsval) (t : value),
    Store.stored h this k = Some x ->
    Store.reify fuel h x = Some t ->
    exists h1 sub p,
      Store.get fuel h this k = Store.Ret (h1, sub)
      /\ nth_error h1 sub = Some (Store.COrt p)
      /\ Store.reify fuel h1 p = Some (Value.normalize t)
      /\ forall calls : list (nat * Store.key * Store.jsval),
           firstn (List.length h) (Store.setAll h1 sub calls) = h
           /\ forall n v u,
                Store.reify n h v = Some u ->
                Store.reify n (Store.setAll h1 sub calls) v = Some u.
Proof.
  intros fuel h this k x t Hs Hr.
  destruct (newOrtValue_detached _ _ _ _ Hr)
    as (h1 & sub & p & Hnew & He & Hsub & Hrp & Hd).
  exists h1, sub, p.
  split.
  { unfold Store.get. unfold Store.stored in Hs.
    destruct k as [s | i];
      destruct (Store.payloadCell h this) as [[o [items | props | q]] |];
      try discriminate.
    - now rewrite Hs.
    - destruct (Store.outOfBounds i items); [discriminate |].
      now injection Hs as ->. }
  split; [assumption |]. split; [assumption |].
  intros calls.
  assert (Hf : firstn (List.length h) (Store.setAll h1 sub calls) = h).
  { rewrite setAll_frame by assumption. now apply extends_firstn. }
  split; [assumption |].
  intros n v u Hv. eapply reify_extends; [| exact Hv].
  exists (skipn (List.length h) (Store.setAll h1 sub calls)).
  rewrite <- Hf at 1. symmetry. apply firstn_skipn.
Qed.

Lemma get_is_detached_copy_witness :
  exists h1 sub p,
    Store.get 1 [Store.CArr [Store.JNum (Dec 1 0)];
                 Store.CObj [("a", Store.JRef 0)];
                 Store.COrt (Store.JRef 1)] 2 (Store.KStr "a")
    = Store.Ret (h1, sub)
    /\ nth_error h1 sub = Some (Store.COrt p)
    /\ Store.reify 1 h1 p = Some (Value.normalize (VArr [VNum (Dec 1 0)]))
    /\ forall calls : list (nat * Store.key * Store.jsval),
         firstn 3 (Store.setAll h1 sub calls)
         = [Store.CArr [Store.JNum (Dec 1 0)];
            Store.CObj [("a", Store.JRef 0)];
            Store.COrt (Store.JRef 1)]
         /\ forall n v u,
              Store.reify n [Store.CArr [Store.JNum (Dec 1 0)];
                             Store.CObj [("a", Store.JRef 0)];
                             Store.COrt (Store.JRef 1)] v = Some u ->
              Store.reify n (Store.setAll h1 sub calls) v = Some u.
Proof.
  apply (get_is_detached_copy 1
           [Store.CArr [Store.JNum (Dec 1 0)];
            Store.CObj [("a", Store.JRef 0)];
            Store.COrt (Store.JRef 1)] 2 (Store.KStr "a")
           (Store.JRef 0) (VArr [VNum (Dec 1 0)])); reflexivity.
Defined.

(** The copy in action, and the one way the class shares data: an
    [OrtValue] made from another one takes its [_value] as it is, and a
    [set] through it is seen by both. *)
Example get_then_set :
  let h := [Store.CArr [Store.JNum (Dec 1 0)];
            Store.CObj [("a", Store.JRef 0)];
            Store.COrt (Store.JRef 1)] in
  Store.get 1 h 2 (Store.KStr "a")
  = Store.Ret ((h ++ [Store.CArr [Store.JNum (Dec 1 0)];
                      Store.COrt (Store.JRef 3)])%list, 4)
  /\ Store.set 1 (h ++ [Store.CArr [Store.JNum (Dec 1 0)];
                        Store.COrt (Store.JRef 3)])%list 4
       (Store.KNum 0) (Store.JStr "x")
     = Store.Ret (h ++ [Store.CArr [Store.JStr "x"];
                        Store.COrt (Store.JRef 3)])%list
  /\ Store.newOrtValue 1 h (Store.JRef 2)
     = Store.Ret ((h ++ [Store.COrt (Store.JRef 1)])%list, 3)
  /\ Store.set 1 (h ++ [Store.COrt (Store.JRef 1)])%list 3
       (Store.KStr "a") Store.JNull
     = Store.Ret [Store.CArr [Store.JNum (Dec 1 0)];
                  Store.CObj [("a", Store.JNull)];
                  Store.COrt (Store.JRef 1);
                  Store.COrt (Store.JRef 1)].
Proof. repeat split. Qed.

(** ** Texts: characters, ends, trimming *)

Lemma literal_arr items :
  literal (VArr items)
  <-> Forall literal items /\ last items (VBool true) <> VNull.
Proof.
  simpl. apply and_iff_compat_r.
  induction items as [| x l IH]; simpl.
  - split; auto.
  - rewrite IH. split; [intros [? ?]; auto | intros H; inversion H; auto].
Qed.

Lemma literal_obj es :
  literal (VObj es)
  <-> jsOrdered es
      /\ Forall (fun kv => plainKey (fst kv) /\ literal (snd kv)) es.
Proof.
  simpl. apply and_iff_compat_l.
  induction es as [| x l IH]; simpl.
  - split; auto.
  - rewrite IH. split; [intros [? ?]; auto | intros H; inversion H; auto].
Qed.

Lemma literal_wf v : literal v -> wf v.
Proof.
  induction v as [| | | | items IH | es IH] using value_ind'; try (intros; exact I).
  - rewrite literal_arr, wf_arr. intros [H _].
    rewrite Forall_forall in *. auto.
  - rewrite literal_obj, wf_obj. intros [Ho H]. split; [assumption |].
    rewrite Forall_forall in *. intros kv Hin. apply (IH _ Hin).
    now apply (H _ Hin).
Qed.

Lemma allChars_app p a b :
  allChars p (a ++ b) = allChars p a && allChars p b.
Proof. induction a as [| c a IH]; simpl; [reflexivity |]. rewrite IH. apply andb_assoc. Qed.

Lemma allChars_impl (p q : ascii -> bool) s :
  (forall c, p c = true -> q c = true) ->
  allChars p s = true -> allChars q s = true.
Proof.
  intros H. induction s as [| c s IH]; simpl; [reflexivity |].
  intros E. apply andb_true_iff in E. destruct E as [E1 E2].
  now rewrite (H _ E1), IH.
Qed.

Lemma allChars_take p n s : allChars p s = true -> allChars p (take n s) = true.
Proof.
  revert n. induction s as [| c s IH]; intros [| n]; simpl; auto.
  intros E. apply andb_true_iff in E. destruct E as [E1 E2].
  now rewrite E1, IH.
Qed.

Lemma allChars_drop p n s : allChars p s = true -> allChars p (drop n s) = true.
Proof.
  revert n. induction s as [| c s IH]; intros [| n]; simpl; auto.
  intros E. apply andb_true_iff in E. destruct E as [E1 E2]. now apply IH.
Qed.

Lemma allChars_repeat p c n : p c = true -> allChars p (repeatChar c n) = true.
Proof. intros H. induction n; simpl; [reflexivity |]. now rewrite H. Qed.

Lemma allChars_stripZeros p s :
  allChars p s = true -> allChars p (stripZeros s) = true.
Proof.
  induction s as [| c s IH]; simpl; [reflexivity |].
  intros E. apply andb_true_iff in E. destruct E as [E1 E2].
  specialize (IH E2). destruct (stripZeros s).
  - destruct (c =? "0")%char; simpl; [reflexivity | now rewrite E1].
  - simpl in *. now rewrite E1.
Qed.

Lemma snoc_cases s : s = "" \/ exists a c, s = a ++ str1 c.
Proof.
  induction s as [| c s IH]; [now left | right].
  destruct IH as [-> | (a & d & ->)].
  - now exists "", c.
  - now exists (String c a), d.
Qed.

Lemma allChars_last p s a c : allChars p s = true -> s = a ++ str1 c -> p c = true.
Proof.
  intros H ->. rewrite allChars_app in H. simpl in H.
  apply andb_true_iff in H. destruct H as [_ H].
  now apply andb_true_iff in H.
Qed.

Lemma trimEnd_snoc a c : isWhite c = false -> trimEnd (a ++ str1 c) = a ++ str1 c.
Proof.
  intros H. induction a as [| x a IH]; simpl.
  - now rewrite H.
  - rewrite IH. destruct (a ++ str1 c) eqn:E; [| reflexivity].
    destruct a; discriminate.
Qed.

Lemma trim_edges s : headOK s -> lastOK s -> trim s = s.
Proof.
  intros Hh (a & c & -> & Hc). unfold trim.
  destruct (a ++ str1 c) as [| x r] eqn:E; [contradiction |].
  simpl in Hh. simpl trimStart. rewrite Hh. rewrite <- E.
  now apply trimEnd_snoc.
Qed.

Lemma trimEnd_length s : String.length (trimEnd s) <= String.length s.
Proof.
  induction s as [| c s IH]; simpl; [lia |].
  destruct (trimEnd s); [destruct (isWhite c) |]; simpl in *; lia.
Qed.

Lemma trimStart_length s : String.length (trimStart s) <= String.length s.
Proof.
  induction s as [| c s IH]; simpl; [lia |].
  destruct (isWhite c); simpl; lia.
Qed.

Lemma trim_length s : String.length (trim s) <= String.length s.
Proof.
  unfold trim. etransitivity; [apply trimEnd_length | apply trimStart_length].
Qed.

Lemma trimEnd_fixed s : s <> "" -> trimEnd s = s -> lastOK s.
Proof.
  induction s as [| c s IH]; [contradiction |]. intros _. simpl.
  destruct (trimEnd s) as [| d r] eqn:E.
  - destruct (isWhite c) eqn:Ec; [discriminate |].
    intros H. injection H as <-. now exists "", c.
  - intros H. injection H as H.
    assert (Hs : s <> "") by (intros ->; discriminate).
    destruct (IH Hs) as (a & x & -> & Hx); [congruence |].
    now exists (String c a), x.
Qed.

Lemma edges_of_trim s : s <> "" -> trim s = s -> headOK s /\ lastOK s.
Proof.
  intros Hne H. destruct s as [| c s]; [contradiction |].
  unfold trim in H. simpl in H. simpl headOK.
  destruct (isWhite c) eqn:Ec.
  - exfalso. pose proof (trimEnd_length (trimStart s)) as L1.
    pose proof (trimStart_length s) as L2. rewrite H in L1. simpl in L1. lia.
  - split; [reflexivity |]. apply trimEnd_fixed; [discriminate | exact H].
Qed.

Lemma lastOK_app a b : lastOK b -> lastOK (a ++ b).
Proof.
  intros (x & c & -> & Hc). exists (a ++ x), c.
  split; [now rewrite append_assoc | assumption].
Qed.

Lemma headOK_app a b : headOK a -> headOK (a ++ b).
Proof. destruct a; simpl; [intros [] | auto]. Qed.

Lemma lastOK_nonempty s : lastOK s -> s <> "".
Proof. intros (a & c & -> & _). destruct a; discriminate. Qed.

Lemma trim_nonempty s : lastOK s -> isEmpty (trim s) = false.
Proof.
  intros (a & c & -> & Hc). unfold trim.
  induction a as [| x a IH]; simpl.
  - rewrite Hc. simpl. now rewrite Hc.
  - destruct (isWhite x); [exact IH |].
    change (String x (a ++ str1 c)) with (String x a ++ str1 c).
    now rewrite trimEnd_snoc.
Qed.

Lemma includes_app c a b : includes c (a ++ b) = includes c a || includes c b.
Proof.
  induction a as [| x a IH]; simpl; [reflexivity |].
  rewrite IH. apply orb_assoc.
Qed.

Lemma endsWith_snoc c a d : endsWith c (a ++ str1 d) = (d =? c)%char.
Proof.
  induction a as [| x a IH]; simpl; [reflexivity |].
  destruct (a ++ str1 d) eqn:E; [destruct a; discriminate | exact IH].
Qed.

Lemma length_snoc a c : String.length (a ++ str1 c) = S (String.length a).
Proof. rewrite length_append. simpl. lia. Qed.

Lemma take_all a b : take (String.length a) (a ++ b) = a.
Proof. induction a as [| c a IH]; simpl; [now destruct b | now rewrite IH]. Qed.

Lemma drop_all a b : drop (String.length a) (a ++ b) = b.
Proof. induction a as [| c a IH]; simpl; [now destruct b | exact IH]. Qed.

(** [inner] of a bracketed text is what stands between the brackets. *)
Lemma inner_brackets o body c : inner (String o (body ++ str1 c)) = body.
Proof.
  unfold inner, substring. simpl String.length.
  rewrite length_snoc. simpl.
  replace (String.length body - 0 - 0) with (String.length body) by lia.
  rewrite Nat.sub_0_r. apply take_all.
Qed.

(** ** The text of a number *)

Lemma numChar_cases c :
  numChar c = true ->
  isWhite c = false /\ needsBackslash c = false /\ (c =? ":")%char = false
  /\ (c =? "#")%char = false /\ (c =? LF)%char = false.
Proof.
  unfold numChar. cbn [includes].
  repeat match goal with
         | |- context [(?x =? c)%char || _] =>
             destruct (Ascii.eqb_spec x c);
             [subst; intros _; repeat split; reflexivity | cbn [orb]]
         end.
  discriminate.
Qed.

Lemma allChars_string_of_uint d :
  allChars numChar (NilEmpty.string_of_uint d) = true.
Proof. induction d; simpl; auto. Qed.

Lemma allChars_digitsOf n : allChars numChar (digitsOf n) = true.
Proof.
  unfold digitsOf, NilZero.string_of_uint.
  destruct (N.to_uint n); try reflexivity; apply allChars_string_of_uint.
Qed.

Lemma toString_chars n :
  isNaN n = false -> allChars numChar (toString n) = true.
Proof.
  destruct n as [| [|] | m scale]; try discriminate; try reflexivity.
  intros _. unfold toString.
  destruct (m =? 0)%Z; [reflexivity |].
  pose proof (allChars_digitsOf (Z.abs_N m)) as Hd.
  pose proof (allChars_stripZeros _ _ Hd) as Hs.
  rewrite allChars_app. apply andb_true_iff. split.
  { now destruct (m <? 0)%Z. }
  repeat match goal with
         | |- context [if ?c then _ else _] => destruct c
         end;
    rewrite ?allChars_app;
    repeat (apply andb_true_iff; split);
    auto using allChars_take, allChars_drop, allChars_repeat,
      allChars_digitsOf.
Qed.

(** ** Well-nested texts *)

Lemma nested_weaken c s : nested c s -> nested true s.
Proof.
  induction 1.
  - apply nested_nil.
  - now apply nested_plain.
  - now apply nested_comma.
  - now apply nested_escape.
  - now apply nested_paren.
  - now apply nested_bracket.
Qed.

Lemma nested_app c a b : nested c a -> nested c b -> nested c (a ++ b).
Proof.
  intros Ha. induction Ha; intros Hb; simpl; auto.
  - apply nested_plain; auto.
  - apply nested_comma; auto.
  - apply nested_escape; auto.
  - rewrite append_assoc. simpl.
    apply (nested_paren commas m (s ++ b)); auto.
  - rewrite append_assoc. simpl.
    apply (nested_bracket commas m (s ++ b)); auto.
Qed.

Lemma nested_join ps : Forall (nested false) ps -> nested true (join "," ps).
Proof.
  induction 1 as [| p ps Hp Hps IH]; [constructor |].
  destruct ps as [| q ps]; [simpl; eapply nested_weaken; eassumption |].
  rewrite join_cons. apply nested_app; [eapply nested_weaken; eassumption |].
  now apply nested_comma.
Qed.

Lemma nested_chars c s :
  allChars (fun x => negb (needsBackslash x)) s = true -> nested c s.
Proof.
  induction s as [| x s IH]; simpl; [constructor |].
  intros H. apply andb_true_iff in H. destruct H as [H1 H2].
  apply nested_plain; [now apply negb_true_iff | auto].
Qed.

Lemma nested_escapeChar ch s : nested false s -> nested false (escapeChar ch ++ s).
Proof.
  intros H. rewrite escapeChar_table.
  destruct (needsBackslash ch) eqn:E; [now apply nested_escape |].
  repeat match goal with
         | |- context [if ?c then _ else _] => destruct c
         end;
    try (now apply nested_escape); now apply nested_plain.
Qed.

Lemma nested_escaped s : nested false (escape s).
Proof.
  induction s as [| ch s IH]; simpl; [constructor | now apply nested_escapeChar].
Qed.

Lemma nested_group (o c : ascii) body :
  (o = "("%char /\ c = ")"%char) \/ (o = "["%char /\ c = "]"%char) ->
  nested true body -> nested false (String o (body ++ str1 c)).
Proof.
  intros [[-> ->] | [-> ->]] H.
  - apply (nested_paren false body ""); [assumption | constructor].
  - apply (nested_bracket false body ""); [assumption | constructor].
Qed.

(** ** [unescape] on a text without backslash *)

Lemma unescape_plain s :
  allChars (fun x => negb (x =? BACKSLASH)%char) s = true -> unescape s = s.
Proof.
  unfold unescape. induction s as [| c s IH]; simpl; [reflexivity |].
  intros H. apply andb_true_iff in H. destruct H as [H1 H2].
  apply negb_true_iff in H1. rewrite H1. now rewrite IH.
Qed.

(** ** The literal form of a value *)

Lemma generateValue_inline v i j : generateValue v i = generateValue v j.
Proof. destruct v; reflexivity. Qed.

Lemma generateValue_arr x xs i :
  generateValue (VArr (x :: xs)) i
  = String "[" (join "," (map (fun y => generateValue y true) (x :: xs))
                ++ str1 "]").
Proof. reflexivity. Qed.

Lemma generateValue_obj kv es i :
  generateValue (VObj (kv :: es)) i
  = String "("
      (join "," (map (fun p => fst p ++ ":" ++ generateValue (snd p) true)
                   (kv :: es))
       ++ str1 ")").
Proof. reflexivity. Qed.

Lemma escape_nonempty s : s <> "" -> escape s <> "".
Proof.
  destruct s as [| ch s]; [contradiction |]. intros _. simpl.
  rewrite escapeChar_table.
  repeat match goal with
         | |- context [if ?c then _ else _] => destruct c
         end; discriminate.
Qed.

Lemma startsWith_escape c s :
  needsBackslash c = true -> (c =? BACKSLASH)%char = false ->
  startsWith c (escape s) = false.
Proof.
  intros Hc Hb. destruct s as [| ch s]; [reflexivity |]. simpl.
  rewrite escapeChar_table.
  destruct (needsBackslash ch) eqn:E.
  { unfold startsWith. cbn [append]. now rewrite Ascii.eqb_sym. }
  repeat match goal with
         | |- context [if ?x then _ else _] => destruct x
         end;
    try (unfold startsWith; cbn [append]; now rewrite Ascii.eqb_sym).
  unfold startsWith, str1. cbn [append].
  destruct (Ascii.eqb_spec ch c); [congruence | reflexivity].
Qed.

Lemma includes_LF_escape s : includes LF (escape s) = false.
Proof.
  induction s as [| ch s IH]; [reflexivity |]. simpl.
  rewrite includes_app, IH, orb_false_r. unfold escapeChar.
  repeat match goal with
         | |- context [if (ch =? ?x)%char then _ else _] =>
             destruct (Ascii.eqb_spec ch x); [reflexivity |]
         end.
  simpl. destruct (Ascii.eqb_spec ch LF); [contradiction | reflexivity].
Qed.

Lemma lastOK_join sep ps : lastOK (last ps "") -> lastOK (join sep ps).
Proof.
  induction ps as [| p ps IH]; [auto |].
  destruct ps as [| q ps]; [auto |].
  intros H. rewrite join_cons. apply lastOK_app, lastOK_app. now apply IH.
Qed.

Lemma length_join_piece sep p ps :
  In p ps -> String.length p <= String.length (join sep ps).
Proof.
  induction ps as [| q ps IH]; [contradiction |].
  destruct ps as [| r ps].
  - intros [<- | []]. simpl. lia.
  - rewrite join_cons, !length_append. intros [<- | H]; [lia |].
    specialize (IH H). lia.
Qed.

Lemma includes_group x o c body :
  (o =? x)%char = false -> (c =? x)%char = false ->
  includes x body = false ->
  includes x (String o (body ++ str1 c)) = false.
Proof.
  intros Ho Hc Hb. cbn [includes]. rewrite Ho, includes_app, Hb.
  cbn [includes str1]. now rewrite Hc.
Qed.

Lemma includes_join x ps :
  Forall (fun p => includes x p = false) ps ->
  ("," =? x)%char = false ->
  includes x (join "," ps) = false.
Proof.
  intros H Hx. induction H as [| p ps Hp Hps IH]; [reflexivity |].
  destruct ps as [| q ps]; [exact Hp |].
  rewrite join_cons, !includes_app, Hp, IH. cbn [includes]. now rewrite Hx.
Qed.

Lemma keyChar_cases c :
  keyChar c = true ->
  needsBackslash c = false /\ (c =? ":")%char = false /\ (c =? LF)%char = false.
Proof.
  unfold keyChar. intros H.
  apply andb_true_iff in H. destruct H as [H H3].
  apply andb_true_iff in H. destruct H as [H1 H2].
  now rewrite !negb_true_iff in *.
Qed.

Lemma plainKey_facts k :
  plainKey k ->
  headOK k /\ nested false k /\ includes ":" k = false /\ includes LF k = false.
Proof.
  intros (Hne & Ht & Hc). split; [now apply edges_of_trim |].
  split.
  { apply nested_chars. eapply allChars_impl; [| exact Hc].
    intros c H. apply keyChar_cases in H. now rewrite (proj1 H). }
  clear Hne Ht. induction k as [| c k IH]; [auto |].
  simpl in Hc. apply andb_true_iff in Hc. destruct Hc as [H1 H2].
  apply keyChar_cases in H1. destruct H1 as (_ & H1 & H1').
  destruct (IH H2) as [IH1 IH2]. simpl. rewrite H1, H1'. auto.
Qed.

(** What the text of a literal value looks like: well nested, on one
    line, empty for [null] only and otherwise without white space at its
    ends, starting with a bracket for arrays and objects only. *)
Lemma text_facts v i :
  literal v ->
  let t := generateValue v i in
  nested false t
  /\ includes LF t = false
  /\ (v = VNull -> t = "")
  /\ (v <> VNull -> headOK t /\ lastOK t)
  /\ (isScalar v = true -> startsWith "[" t = false /\ startsWith "(" t = false).
Proof.
  revert i.
  induction v as [| b | n | s | items IH | es IH] using value_ind';
    intros i Hl; cbv zeta.
  - simpl. repeat split; auto; try constructor; congruence.
  - destruct b; simpl; repeat split; try congruence; try reflexivity;
      try (apply nested_chars; reflexivity).
    + now exists "tru", "e"%char.
    + now exists "fals", "e"%char.
  - destruct Hl as [Hn Hr]. simpl generateValue.
    pose proof (toString_chars n Hn) as Hc.
    assert (Hne : toString n <> "").
    { intros E. rewrite E in Hr. rewrite <- Hr in E. discriminate. }
    split.
    { apply nested_chars. eapply allChars_impl; [| exact Hc].
      intros c H. apply numChar_cases in H. now rewrite (proj1 (proj2 H)). }
    split.
    { clear Hne Hr. induction (toString n) as [| c t IHt]; [reflexivity |].
      simpl in *. apply andb_true_iff in Hc. destruct Hc as [H1 H2].
      apply numChar_cases in H1.
      now rewrite (proj2 (proj2 (proj2 (proj2 H1)))), IHt. }
    split; [discriminate |]. split.
    { intros _. split.
      - destruct (toString n) as [| c t]; [contradiction |]. simpl in *.
        apply andb_true_iff in Hc. destruct Hc as [H1 _].
        now apply numChar_cases in H1.
      - destruct (snoc_cases (toString n)) as [E | (a & c & E)];
          [contradiction |].
        exists a, c. split; [assumption |].
        pose proof (allChars_last _ _ _ _ Hc E) as H.
        now apply numChar_cases in H. }
    intros _. destruct (toString n) as [| c t]; [contradiction |]. simpl in *.
    apply andb_true_iff in Hc. destruct Hc as [H1 _].
    apply numChar_cases in H1. destruct H1 as (_ & H1 & _).
    unfold needsBackslash in H1.
    repeat (apply orb_false_elim in H1; destruct H1 as [H1 ?]).
    split; assumption.
  - destruct Hl as (Hne & Ht & _). simpl generateValue.
    split; [apply nested_escaped |].
    split; [apply includes_LF_escape |].
    split; [discriminate |].
    split; [intros _; apply edges_of_trim; auto using escape_nonempty |].
    intros _. split; apply startsWith_escape; reflexivity.
  - apply literal_arr in Hl. destruct Hl as [Hall Hlast].
    destruct items as [| x xs].
    { simpl. repeat split; try discriminate; try reflexivity.
      - apply (nested_bracket false "" ""); constructor.
      - now exists "[", "]"%char. }
    rewrite generateValue_arr.
    set (pieces := map (fun y => generateValue y true) (x :: xs)).
    assert (Hp : Forall (fun p => nested false p /\ includes LF p = false) pieces).
    { unfold pieces. apply Forall_map. rewrite Forall_forall in *.
      intros y Hy. destruct (IH y Hy true (Hall y Hy)) as (H1 & H2 & _).
      auto. }
    split.
    { apply nested_group; [right; auto |]. apply nested_join.
      eapply Forall_impl; [| exact Hp]. now intros p [? _]. }
    split.
    { apply includes_group; try reflexivity. apply includes_join; [| reflexivity].
      eapply Forall_impl; [| exact Hp]. now intros p [_ ?]. }
    split; [discriminate |]. split; [| discriminate].
    intros _. split; [reflexivity |].
    now exists (String "[" (join "," pieces)), "]"%char.
  - apply literal_obj in Hl. destruct Hl as [Ho Hall].
    destruct es as [| kv es].
    { simpl. repeat split; try discriminate; try reflexivity.
      - apply (nested_paren false "" ""); constructor.
      - now exists "(", ")"%char. }
    rewrite generateValue_obj.
    set (pairs := map (fun p => fst p ++ ":" ++ generateValue (snd p) true)
                    (kv :: es)).
    assert (Hp : Forall (fun p => nested false p /\ includes LF p = false) pairs).
    { unfold pairs. apply Forall_map. rewrite Forall_forall in *.
      intros y Hy. destruct (Hall y Hy) as [Hk Hv].
      destruct (IH y Hy true Hv) as (H1 & H2 & _).
      destruct (plainKey_facts _ Hk) as (_ & K1 & _ & K2).
      split.
      - apply nested_app; [assumption |]. now apply nested_plain.
      - rewrite includes_app, K2. simpl. exact H2. }
    split.
    { apply nested_group; [left; auto |]. apply nested_join.
      eapply Forall_impl; [| exact Hp]. now intros p [? _]. }
    split.
    { apply includes_group; try reflexivity. apply includes_join; [| reflexivity].
      eapply Forall_impl; [| exact Hp]. now intros p [_ ?]. }
    split; [discriminate |]. split; [| discriminate].
    intros _. split; [reflexivity |].
    now exists (String "(" (join "," pairs)), ")"%char.
Qed.

(** ** Reading a literal form back *)

Lemma parseValueBody_scalar rec t :
  headOK t -> lastOK t ->
  startsWith "[" t = false -> startsWith "(" t = false ->
  parseValueBody rec t = Ok (parseScalar t).
Proof.
  intros Hh Hl Hb Hp. unfold parseValueBody.
  rewrite (trim_edges _ Hh Hl).
  destruct t as [| c t]; [contradiction |]. cbn [isEmpty].
  rewrite Hb, Hp. cbn [andb].
  destruct (String.eqb_spec (String c t) "[]") as [E | _];
    [rewrite E in Hb; discriminate |].
  destruct (String.eqb_spec (String c t) "()") as [E | _];
    [rewrite E in Hp; discriminate |].
  reflexivity.
Qed.

Lemma parseValueBody_array rec body :
  lastOK body ->
  parseValueBody rec (String "[" (body ++ str1 "]"))
  = parseArrayLoop rec body [] "" false 0 0.
Proof.
  intros Hl. unfold parseValueBody.
  assert (Ht : trim (String "[" (body ++ str1 "]")) = String "[" (body ++ str1 "]")).
  { apply trim_edges; [reflexivity |].
    now exists (String "[" body), "]"%char. }
  rewrite Ht. cbn [isEmpty].
  pose proof (lastOK_nonempty _ Hl) as Hne.
  destruct (String.eqb_spec (String "[" (body ++ str1 "]")) "[]") as [E | _].
  { injection E as E. destruct body; [contradiction | destruct body; discriminate]. }
  destruct (String.eqb_spec (String "[" (body ++ str1 "]")) "()") as [E | _];
    [discriminate |].
  change (startsWith "[" (String "[" (body ++ str1 "]"))) with true.
  change (endsWith "]" (String "[" (body ++ str1 "]")))
    with (endsWith "]" (String "[" body ++ str1 "]")).
  rewrite endsWith_snoc. cbn [andb Ascii.eqb Bool.eqb].
  rewrite inner_brackets. unfold parseArray.
  now rewrite (trim_nonempty _ Hl).
Qed.

Lemma parseValueBody_object rec body :
  lastOK body ->
  parseValueBody rec (String "(" (body ++ str1 ")"))
  = parsePairs rec (splitPairs body) [].
Proof.
  intros Hl. unfold parseValueBody.
  assert (Ht : trim (String "(" (body ++ str1 ")")) = String "(" (body ++ str1 ")")).
  { apply trim_edges; [reflexivity |].
    now exists (String "(" body), ")"%char. }
  rewrite Ht. cbn [isEmpty].
  pose proof (lastOK_nonempty _ Hl) as Hne.
  destruct (String.eqb_spec (String "(" (body ++ str1 ")")) "[]") as [E | _];
    [discriminate |].
  destruct (String.eqb_spec (String "(" (body ++ str1 ")")) "()") as [E | _].
  { injection E as E. destruct body; [contradiction | destruct body; discriminate]. }
  change (startsWith "[" (String "(" (body ++ str1 ")"))) with false.
  change (startsWith "(" (String "(" (body ++ str1 ")"))) with true.
  change (endsWith ")" (String "(" (body ++ str1 ")")))
    with (endsWith ")" (String "(" body ++ str1 ")")).
  rewrite endsWith_snoc. cbn [andb Ascii.eqb Bool.eqb].
  rewrite inner_brackets. unfold parseInlineObject.
  now rewrite (trim_nonempty _ Hl).
Qed.

(** [parseItems] on the texts of values that [rec] reads back. *)
Lemma parseItems_texts rec (text : value -> string) items result :
  Forall (fun x => rec (text x) = Ok x /\ wf x
                   /\ (x <> VNull -> headOK (text x) /\ lastOK (text x)))
    items ->
  items <> [] -> last items (VBool true) <> VNull ->
  parseItems rec (map text items) result
  = Ok (createOrtValue (VArr (result ++ items))).
Proof.
  intros H. revert result.
  induction H as [| x xs (Hx & Hw & He) Hxs IH]; intros result Hne Hlast;
    [contradiction |].
  destruct xs as [| y ys].
  - simpl in Hlast. destruct (He Hlast) as [Hh Hl].
    cbn [map parseItems]. rewrite (trim_nonempty _ Hl), (trim_edges _ Hh Hl), Hx.
    cbn [bind]. now rewrite (toNative_wf_id _ Hw).
  - change (parseItems rec (map text (x :: y :: ys)) result)
      with (v <- rec (text x) ;;
            parseItems rec (map text (y :: ys)) (result ++ [toNative v])).
    rewrite Hx. cbn [bind]. rewrite (toNative_wf_id _ Hw).
    rewrite IH; [| discriminate | exact Hlast].
    now rewrite <- app_assoc.
Qed.

Lemma indexOf_key k rest :
  includes ":" k = false -> indexOf ":" (k ++ String ":" rest) = Some (String.length k).
Proof.
  induction k as [| c k IH]; simpl; [reflexivity |].
  destruct (c =? ":")%char; simpl; [discriminate |].
  intros H. now rewrite IH.
Qed.

(** [parsePairs] on the pairs written for entries that [rec] reads
    back. *)
Lemma parsePairs_texts rec (text : value -> string) es obj :
  Forall (fun kv => plainKey (fst kv)
                    /\ rec (text (snd kv)) = Ok (snd kv) /\ wf (snd kv)
                    /\ (snd kv = VNull -> text (snd kv) = "")
                    /\ (snd kv <> VNull ->
                        headOK (text (snd kv)) /\ lastOK (text (snd kv))))
    es ->
  parsePairs rec (map (fun kv => fst kv ++ ":" ++ text (snd kv)) es) obj
  = Ok (createOrtValue
          (VObj (fold_left (fun a kv => objSet (fst kv) (snd kv) a) es obj))).
Proof.
  intros H. revert obj.
  induction H as [| [k x] es (Hk & Hx & Hw & Hn & He) Hes IH]; intros obj;
    [reflexivity |].
  cbn [fst snd] in *. cbn [map parsePairs fst snd].
  destruct (plainKey_facts _ Hk) as (_ & _ & Hc & _).
  change (k ++ ":" ++ text x) with (k ++ String ":" (text x)).
  rewrite (indexOf_key _ _ Hc).
  unfold substring. rewrite Nat.sub_0_r. cbn [drop].
  rewrite take_all.
  replace (String.length k + 1) with (String.length (k ++ ":"))
    by (rewrite length_append; simpl; lia).
  change (k ++ String ":" (text x)) with (k ++ ":" ++ text x).
  rewrite <- append_assoc, drop_all.
  destruct Hk as (_ & -> & _).
  assert (Et : trim (text x) = text x).
  { destruct x; try (apply trim_edges; apply He; discriminate).
    now rewrite Hn. }
  rewrite Et, Hx. cbn [bind]. rewrite (toNative_wf_id _ Hw).
  apply IH.
Qed.

Lemma trimLast_texts ps :
  ps <> [] -> headOK (last ps "") -> lastOK (last ps "") -> trimLast ps = ps.
Proof.
  intros Hne Hh Hl. unfold trimLast.
  rewrite (trim_nonempty _ Hl), (trim_edges _ Hh Hl).
  symmetry. now apply app_removelast_last.
Qed.

Lemma last_map {A B : Type} (f : A -> B) l d :
  l <> [] -> last (map f l) (f d) = f (last l d).
Proof.
  induction l as [| x l IH]; [contradiction |]. intros _.
  destruct l as [| y l]; [reflexivity |].
  change (last (map f (x :: y :: l)) (f d)) with (last (map f (y :: l)) (f d)).
  change (last (x :: y :: l) d) with (last (y :: l) d).
  apply IH. discriminate.
Qed.

Lemma last_default {A : Type} (l : list A) d d' : l <> [] -> last l d = last l d'.
Proof.
  induction l as [| x l IH]; [contradiction |]. intros _.
  destruct l as [| y l]; [reflexivity |]. apply IH. discriminate.
Qed.

Lemma last_In {A : Type} (l : list A) d : l <> [] -> In (last l d) l.
Proof.
  induction l as [| x l IH]; [contradiction |]. intros _.
  destruct l as [| y l]; [now left |]. right. apply IH. discriminate.
Qed.

Lemma parseScalar_number n :
  isNaN n = false -> Number (toString n) = n ->
  parseScalar (toString n) = VNum n.
Proof.
  intros Hn Hr. unfold parseScalar.
  rewrite unescape_plain.
  - now rewrite Hr, Hn.
  - eapply allChars_impl; [| apply (toString_chars n Hn)].
    intros c H. apply numChar_cases in H. destruct H as (_ & H & _).
    unfold needsBackslash in H.
    repeat (apply orb_false_elim in H; destruct H as [H ?]).
    now apply negb_true_iff.
Qed.

Lemma parseScalar_string s :
  isNaN (Number s) = true -> s <> "true" -> s <> "false" ->
  parseScalar (escape s) = VStr s.
Proof.
  intros Hn Ht Hf. unfold parseScalar.
  rewrite unescape_escaped, Hn. cbn [negb].
  apply String.eqb_neq in Ht, Hf. now rewrite Ht, Hf.
Qed.

(** [parseValue] reads the literal form of a literal value back, with
    any budget above the length of the text. *)
Lemma parseValueF_literal v :
  literal v ->
  forall fuel i,
    String.length (generateValue v i) < fuel ->
    parseValueF fuel (generateValue v i) = Ok v.
Proof.
  induction v as [| b | n | s | items IH | es IH] using value_ind';
    intros Hl fuel i Hfuel;
    (destruct fuel as [| fuel]; [lia |]); cbn [parseValueF].
  - reflexivity.
  - destruct b; reflexivity.
  - destruct (text_facts (VNum n) i Hl) as (_ & _ & _ & He & Hs).
    destruct (He ltac:(discriminate)) as [Hh Hla].
    destruct (Hs eq_refl) as [Hb Hp].
    rewrite parseValueBody_scalar by assumption.
    destruct Hl as [Hn Hr]. simpl generateValue.
    now rewrite parseScalar_number.
  - destruct (text_facts (VStr s) i Hl) as (_ & _ & _ & He & Hs).
    destruct (He ltac:(discriminate)) as [Hh Hla].
    destruct (Hs eq_refl) as [Hb Hp].
    rewrite parseValueBody_scalar by assumption.
    destruct Hl as (_ & _ & Hn & Ht & Hf). simpl generateValue.
    now rewrite parseScalar_string.
  - pose proof (literal_wf _ Hl) as Hw.
    apply literal_arr in Hl. destruct Hl as [Hall Hlast].
    destruct items as [| x xs]; [reflexivity |].
    rewrite generateValue_arr in *.
    set (text := fun y => generateValue y true) in *.
    assert (Hfacts : forall y, In y (x :: xs) ->
              nested false (text y)
              /\ (y <> VNull -> headOK (text y) /\ lastOK (text y))).
    { intros y Hy. rewrite Forall_forall in Hall.
      destruct (text_facts y true (Hall y Hy)) as (H1 & _ & _ & H2 & _). auto. }
    assert (Hlo : lastOK (join "," (map text (x :: xs)))).
    { apply lastOK_join.
      rewrite (last_default _ "" (text (VBool true))) by discriminate.
      rewrite last_map by discriminate.
      apply Hfacts; [apply last_In; discriminate | exact Hlast]. }
    rewrite parseValueBody_array by assumption.
    cbn [map]. rewrite parseArrayLoop_join.
    2:{ change (Forall (nested false) (map text (x :: xs))).
        apply Forall_map. apply Forall_forall. intros y Hy.
        now apply Hfacts. }
    change (text x :: map text xs) with (map text (x :: xs)).
    rewrite (parseItems_texts (parseValueF fuel) text (x :: xs) []);
      [| | discriminate | exact Hlast].
    + cbn [app]. now rewrite createOrtValue_id.
    + rewrite Forall_forall in *. intros y Hy.
      split; [| split; [apply literal_wf; auto | apply Hfacts; auto]].
      apply IH; auto.
      cbn [String.length] in Hfuel. rewrite length_snoc in Hfuel.
      pose proof (length_join_piece "," (text y) (map text (x :: xs))
                    (in_map text _ _ Hy)).
      unfold text in *. lia.
  - pose proof (literal_wf _ Hl) as Hw.
    apply literal_obj in Hl. destruct Hl as [Ho Hall].
    destruct es as [| kv es]; [reflexivity |].
    rewrite generateValue_obj in *.
    set (text := fun y => generateValue y true) in *.
    set (pairOf := fun p : string * value => fst p ++ ":" ++ text (snd p)) in *.
    assert (Hfacts : forall p, In p (kv :: es) ->
              nested false (pairOf p) /\ headOK (pairOf p) /\ lastOK (pairOf p)
              /\ (snd p = VNull -> text (snd p) = "")
              /\ (snd p <> VNull -> headOK (text (snd p)) /\ lastOK (text (snd p)))).
    { intros p Hp. rewrite Forall_forall in Hall.
      destruct (Hall p Hp) as [Hk Hv].
      destruct (text_facts (snd p) true Hv) as (H1 & _ & H2 & H3 & _).
      destruct (plainKey_facts _ Hk) as (K1 & K2 & _).
      unfold pairOf. split; [| split; [| split; [| split]]]; auto.
      - apply nested_app; [assumption |]. now apply nested_plain.
      - now apply headOK_app.
      - apply lastOK_app. destruct (snd p) eqn:E;
          try (apply (lastOK_app ":"), H3; discriminate).
        unfold text. rewrite (H2 eq_refl). now exists "", ":"%char. }
    assert (Hlo : lastOK (join "," (map pairOf (kv :: es)))).
    { apply lastOK_join.
      rewrite (last_default _ "" (pairOf kv)) by discriminate.
      rewrite last_map by discriminate.
      apply Hfacts. apply last_In. discriminate. }
    rewrite parseValueBody_object by assumption.
    rewrite splitPairs_join.
    2:{ discriminate. }
    2:{ apply Forall_map. apply Forall_forall. intros p Hp. now apply Hfacts. }
    rewrite trimLast_texts.
    2:{ discriminate. }
    2:{ rewrite (last_default _ "" (pairOf kv)) by discriminate.
        rewrite last_map by discriminate.
        apply Hfacts. apply last_In. discriminate. }
    2:{ rewrite (last_default _ "" (pairOf kv)) by discriminate.
        rewrite last_map by discriminate.
        apply Hfacts. apply last_In. discriminate. }
    etransitivity;
      [apply (parsePairs_texts (parseValueF fuel) text (kv :: es) []) |].
    2:{ rewrite fold_objSet_ordered by assumption. cbn [app].
        now rewrite createOrtValue_id. }
    { rewrite Forall_forall in *. intros p Hp.
      destruct (Hall p Hp) as [Hk Hv].
      destruct (Hfacts p Hp) as (_ & _ & _ & F1 & F2).
      split; [assumption |]. split; [| split; [apply literal_wf; auto | auto]].
      apply (IH p Hp Hv).
      cbn [String.length] in Hfuel. rewrite length_snoc in Hfuel.
      pose proof (length_join_piece "," (pairOf p) (map pairOf (kv :: es))
                    (in_map pairOf _ _ Hp)) as L.
      unfold pairOf in L at 1. rewrite !length_append in L.
      change (String.length ":") with 1 in L.
      subst pairOf text. cbv beta in *. lia. }
Qed.

Lemma parseValue_literal v i :
  literal v -> parseValue (generateValue v i) = Ok v.
Proof. intros H. apply parseValueF_literal; [assumption | lia]. Qed.

(** ** Integers are literal *)

Lemma isDigit_string_of_uint d :
  allChars isDigit (NilEmpty.string_of_uint d) = true.
Proof. induction d; simpl; auto. Qed.

Lemma isDigit_digitsOf n : allChars isDigit (digitsOf n) = true.
Proof.
  unfold digitsOf, NilZero.string_of_uint.
  destruct (N.to_uint n); try reflexivity; apply isDigit_string_of_uint.
Qed.

Lemma numeralFrom_acc d :
  forall p,
    numeralFrom 10 (Npos p) (NilEmpty.string_of_uint d)
    = Some (Npos (Pos.of_uint_acc d p)).
Proof.
  induction d; intros p; cbn [NilEmpty.string_of_uint numeralFrom];
    [reflexivity | ..];
    match goal with
    | |- context [digitVal ?c] =>
        let v := eval vm_compute in (digitVal c) in
        change (digitVal c) with v
    end;
    cbv iota;
    match goal with
    | |- context [(?k <? 10)%N] => change (k <? 10)%N with true
    end;
    cbv iota; cbn [Pos.of_uint_acc]; rewrite <- IHd; f_equal; lia.
Qed.

Lemma numeralFrom_uint d :
  numeralFrom 10 0 (NilEmpty.string_of_uint d) = Some (Pos.of_uint d).
Proof.
  induction d; cbn [NilEmpty.string_of_uint numeralFrom];
    [reflexivity | ..];
    match goal with
    | |- context [digitVal ?c] =>
        let v := eval vm_compute in (digitVal c) in
        change (digitVal c) with v
    end;
    cbv iota;
    match goal with
    | |- context [(?k <? 10)%N] => change (k <? 10)%N with true
    end;
    cbv iota; cbn [Pos.of_uint N.mul N.add];
    first [exact IHd | apply numeralFrom_acc].
Qed.

Lemma numeralFrom_digitsOf n : numeralFrom 10 0 (digitsOf n) = Some n.
Proof.
  unfold digitsOf, NilZero.string_of_uint.
  rewrite <- (DecimalN.Unsigned.of_to n) at 2. unfold N.of_uint.
  destruct (N.to_uint n) eqn:E; rewrite <- numeralFrom_uint; reflexivity.
Qed.

Lemma stripZeros_zeros s :
  stripZeros s
  ++ repeatChar "0" (String.length s - String.length (stripZeros s)) = s
  /\ String.length (stripZeros s) <= String.length s.
Proof.
  induction s as [| c s [IH1 IH2]]; [split; reflexivity |].
  cbn [stripZeros]. destruct (stripZeros s) as [| d r] eqn:E.
  - destruct (Ascii.eqb_spec c "0") as [-> | Hc].
    + cbn [String.length append Nat.sub repeatChar] in *.
      rewrite Nat.sub_0_r in IH1. rewrite IH1. split; [reflexivity | lia].
    + cbn [String.length append Nat.sub str1] in *.
      rewrite Nat.sub_0_r in *. rewrite IH1. split; [reflexivity | lia].
  - cbn [String.length append] in *. split; [| lia].
    f_equal. exact IH1.
Qed.

Lemma spanDigits_all s : allChars isDigit s = true -> spanDigits s = (s, "").
Proof.
  induction s as [| c s IH]; [reflexivity |]. simpl.
  intros H. apply andb_true_iff in H. destruct H as [Hc Hs].
  now rewrite Hc, (IH Hs).
Qed.

Lemma digits_not_Infinity s :
  allChars isDigit s = true -> (s =? "Infinity")%string = false.
Proof.
  destruct s as [| c s]; [reflexivity |]. simpl.
  intros H. apply andb_true_iff in H. destruct H as [Hc _].
  destruct (Ascii.eqb_spec c "I") as [-> | _]; [discriminate | reflexivity].
Qed.

Lemma digits_nonDecimal s : allChars isDigit s = true -> nonDecimal s = None.
Proof.
  destruct s as [| c [| p r]]; try reflexivity.
  - now destruct c as [[] [] [] [] [] [] [] []].
  - intros H. simpl in H. apply andb_true_iff in H. destruct H as [_ H].
    apply andb_true_iff in H. destruct H as [Hp _].
    unfold nonDecimal.
    destruct c as [[] [] [] [] [] [] [] []]; try reflexivity.
    destruct (Ascii.eqb_spec p "x") as [-> | _]; [discriminate |].
    destruct (Ascii.eqb_spec p "X") as [-> | _]; [discriminate |].
    destruct (Ascii.eqb_spec p "o") as [-> | _]; [discriminate |].
    destruct (Ascii.eqb_spec p "O") as [-> | _]; [discriminate |].
    destruct (Ascii.eqb_spec p "b") as [-> | _]; [discriminate |].
    destruct (Ascii.eqb_spec p "B") as [-> | _]; [discriminate |].
    reflexivity.
Qed.

Lemma digitsOf_nonempty n : digitsOf n <> "".
Proof.
  unfold digitsOf, NilZero.string_of_uint.
  destruct (N.to_uint n); discriminate.
Qed.

Lemma unsignedDecimal_digits neg n :
  unsignedDecimal neg (digitsOf n)
  = Dec (if neg then - Z.of_N n else Z.of_N n) 0.
Proof.
  pose proof (isDigit_digitsOf n) as Hd.
  unfold unsignedDecimal.
  rewrite (digits_not_Infinity _ Hd), (spanDigits_all _ Hd).
  cbn [isEmpty andb String.length]. rewrite append_nil_r.
  pose proof (digitsOf_nonempty n) as Hne.
  destruct (digitsOf n) eqn:E; [contradiction |]. cbn [isEmpty andb].
  rewrite <- E, numeralFrom_digitsOf. cbn [exponentPart].
  unfold mkDec. cbn. now rewrite Z.mul_1_r.
Qed.

Lemma isDigit_edges c : isDigit c = true -> isWhite c = false.
Proof. now destruct c as [[] [] [] [] [] [] [] []]. Qed.

Lemma digits_trim s : allChars isDigit s = true -> trim s = s.
Proof.
  intros H. destruct s as [| c s]; [reflexivity |].
  apply trim_edges.
  - simpl in H. apply andb_true_iff in H. now apply isDigit_edges.
  - destruct (snoc_cases (String c s)) as [E | (a & d & E)]; [discriminate |].
    exists a, d. split; [assumption |]. apply isDigit_edges.
    now apply (allChars_last _ _ _ _ H E).
Qed.

(** An integer of at most 21 digits prints to its digits and reads back. *)
Lemma integer_literal z :
  String.length (digitsOf (Z.abs_N z)) <= 21 -> literal (VNum (Dec z 0)).
Proof.
  intros Hlen. split; [reflexivity |].
  destruct (Z.eqb_spec z 0) as [-> | Hz]; [reflexivity |].
  assert (Et : toString (Dec z 0)
               = (if (z <? 0)%Z then "-" else "") ++ digitsOf (Z.abs_N z)).
  { unfold toString. apply Z.eqb_neq in Hz. rewrite Hz. cbv zeta.
    destruct (stripZeros_zeros (digitsOf (Z.abs_N z))) as [E1 E2].
    rewrite Z.sub_0_r.
    replace ((Z.of_nat (String.length (stripZeros (digitsOf (Z.abs_N z))))
              <=? Z.of_nat (String.length (digitsOf (Z.abs_N z))))%Z) with true
      by (symmetry; apply Z.leb_le; lia).
    replace ((Z.of_nat (String.length (digitsOf (Z.abs_N z))) <=? 21)%Z)
      with true by (symmetry; apply Z.leb_le; lia).
    cbn [andb]. rewrite <- Nat2Z.inj_sub by assumption.
    rewrite Nat2Z.id. now rewrite E1. }
  rewrite Et. pose proof (isDigit_digitsOf (Z.abs_N z)) as Hd.
  pose proof (digitsOf_nonempty (Z.abs_N z)) as Hne.
  unfold Number. destruct (Z.ltb_spec z 0) as [Hneg | Hpos].
  - cbn [append].
    assert (Htrim : trim (String "-" (digitsOf (Z.abs_N z)))
                    = String "-" (digitsOf (Z.abs_N z))).
    { apply trim_edges; [reflexivity |].
      destruct (snoc_cases (digitsOf (Z.abs_N z))) as [E | (a & d & E)];
        [contradiction |].
      exists (String "-" a), d. split; [now rewrite E |].
      apply isDigit_edges. now apply (allChars_last _ _ _ _ Hd E). }
    rewrite Htrim. cbn [isEmpty nonDecimal].
    change (("-" =? "0")%char) with false. cbv iota.
    rewrite unsignedDecimal_digits. f_equal. lia.
  - cbn [append]. rewrite (digits_trim _ Hd), (digits_nonDecimal _ Hd).
    destruct (digitsOf (Z.abs_N z)) as [| c s] eqn:E; [contradiction |].
    cbn [isEmpty].
    assert (Hc : isDigit c = true)
      by (simpl in Hd; now apply andb_true_iff in Hd).
    assert (Hplus : (c =? "+")%char = false /\ (c =? "-")%char = false).
    { now destruct c as [[] [] [] [] [] [] [] []]. }
    transitivity (unsignedDecimal false (String c s)).
    + destruct c as [[] [] [] [] [] [] [] []]; try reflexivity;
        destruct Hplus; discriminate.
    + rewrite <- E, unsignedDecimal_digits. f_equal. lia.
Qed.

(** ** Lines of a section *)

(** ** Lines *)

Lemma split_app c a b :
  includes c a = false -> split c (a ++ String c b) = a :: split c b.
Proof.
  induction a as [| x a IH]; simpl.
  - now rewrite Ascii.eqb_refl.
  - destruct (x =? c)%char; simpl; [discriminate |].
    intros H. now rewrite (IH H).
Qed.

Lemma split_none c a : includes c a = false -> split c a = [a].
Proof.
  induction a as [| x a IH]; simpl; [reflexivity |].
  destruct (x =? c)%char; simpl; [discriminate |].
  intros H. now rewrite (IH H).
Qed.

Lemma split_nonempty c s : split c s <> [].
Proof.
  induction s as [| x s IH]; simpl; [discriminate |].
  destruct (x =? c)%char; [discriminate |].
  destruct (split c s); [contradiction | discriminate].
Qed.

Lemma last_cons {A : Type} (x : A) l d : l <> [] -> last (x :: l) d = last l d.
Proof. destruct l; [contradiction | reflexivity]. Qed.

Lemma endsWith_cons c x s : s <> "" -> endsWith c (String x s) = endsWith c s.
Proof. destruct s; [contradiction | reflexivity]. Qed.

Lemma split_last_empty c s :
  isEmpty (last (split c s) "x") = true -> s = "" \/ endsWith c s = true.
Proof.
  induction s as [| x s IH]; [now left |]. intros H. right.
  cbn [split] in H. destruct (x =? c)%char eqn:Hx.
  - rewrite last_cons in H by apply split_nonempty.
    destruct (IH H) as [-> | H'].
    + simpl. exact Hx.
    + rewrite endsWith_cons; [exact H' | intros ->; discriminate].
  - pose proof (split_nonempty c s) as Hne.
    destruct (split c s) as [| p ps] eqn:E; [contradiction |].
    destruct ps as [| q ps]; [simpl in H; discriminate |].
    cbn [last] in *. destruct (IH H) as [-> | H']; [discriminate |].
    rewrite endsWith_cons; [exact H' | intros ->; discriminate].
Qed.

Lemma isHeader_false t :
  trim t = t -> startsWith ":" t = false -> endsWith ":" t = false ->
  isHeader t = false.
Proof.
  intros Ht Hs He. unfold isHeader. rewrite Ht, Hs.
  destruct (isEmpty (last (split ":" t) "x")) eqn:E; [| apply andb_false_r].
  destruct (split_last_empty _ _ E) as [-> | H]; [reflexivity | congruence].
Qed.

Lemma drop_length s : drop (String.length s) s = "".
Proof. induction s; simpl; auto. Qed.

Lemma sectionKey_facts k :
  sectionKey k ->
  trim (k ++ ":") = k ++ ":"
  /\ isSkipped (k ++ ":") = false
  /\ includes ":" (k ++ ":") = true
  /\ isHeader (k ++ ":") = true
  /\ parseHeader (k ++ ":") = fun n => Ok (Some k, "").
Proof.
  intros (Hne & Ht & Hc & Hl & Hh).
  destruct (edges_of_trim _ Hne Ht) as [Hhead Hlast].
  assert (E : trim (k ++ ":") = k ++ ":").
  { apply trim_edges; [now apply headOK_app |]. now exists k, ":"%char. }
  split; [exact E |].
  destruct k as [| c k]; [contradiction |].
  assert (Hcolon : (c =? ":")%char = false).
  { simpl in Hc. now apply orb_false_elim in Hc. }
  split; [unfold isSkipped; simpl in *; now rewrite Hh |].
  split; [rewrite includes_app; simpl; apply orb_true_r |].
  split.
  - unfold isHeader. rewrite E.
    change (startsWith ":" (String c k ++ ":")) with (c =? ":")%char.
    rewrite Hcolon.
    change (String c k ++ ":") with (String c k ++ String ":" "").
    now rewrite (split_app _ _ _ Hc).
  - unfold parseHeader.
    change (startsWith ":" (String c k ++ ":")) with (c =? ":")%char.
    rewrite Hcolon.
    change (String c k ++ ":") with (String c k ++ String ":" "").
    rewrite (indexOf_key _ _ Hc).
    unfold substring. rewrite Nat.sub_0_r. cbn [drop]. rewrite take_all, Ht.
    replace (String.length (String c k) + 1)
      with (String.length (String c k ++ ":"))
      by (rewrite length_append; simpl; lia).
    change (String c k ++ String ":" "") with (String c k ++ ":").
    now rewrite drop_length.
Qed.

Lemma startsWith_escape_same c s :
  needsBackslash c = false -> isWhite c = false ->
  startsWith c (escape s) = startsWith c s.
Proof.
  intros Hc Hw. destruct s as [| ch s]; [reflexivity |]. simpl.
  rewrite escapeChar_table.
  assert (Hb : (BACKSLASH =? c)%char = false).
  { unfold needsBackslash in Hc.
    repeat (apply orb_false_elim in Hc; destruct Hc as [Hc ?]).
    now rewrite Ascii.eqb_sym. }
  destruct (needsBackslash ch) eqn:E.
  { unfold startsWith. cbn [append]. rewrite Hb.
    destruct (Ascii.eqb_spec ch c); [congruence | reflexivity]. }
  unfold isWhite in Hw.
  repeat (apply orb_false_elim in Hw; destruct Hw as [Hw ?]).
  repeat match goal with
         | |- context [if (ch =? ?x)%char then _ else _] =>
             destruct (Ascii.eqb_spec ch x) as [-> | ?]
         end; unfold startsWith, str1; cbn [append];
    try reflexivity; symmetry; rewrite Ascii.eqb_sym;
    (etransitivity; [eassumption | symmetry; exact Hb]).
Qed.

Lemma endsWith_app c a b : b <> "" -> endsWith c (a ++ b) = endsWith c b.
Proof.
  intros Hb. induction a as [| x a IH]; [reflexivity |].
  change (String x a ++ b) with (String x (a ++ b)).
  rewrite endsWith_cons; [exact IH |].
  destruct a; [exact Hb | discriminate].
Qed.

Lemma endsWith_escape_colon s : endsWith ":" (escape s) = endsWith ":" s.
Proof.
  induction s as [| ch s IH]; [reflexivity |].
  cbn [escape]. destruct s as [| d s].
  - cbn [escape]. rewrite append_nil_r. unfold escapeChar.
    repeat match goal with
           | |- context [if (ch =? ?x)%char then _ else _] =>
               destruct (Ascii.eqb_spec ch x) as [-> | ?]
           end; reflexivity.
  - rewrite endsWith_app by (apply escape_nonempty; discriminate).
    rewrite IH. symmetry. apply endsWith_cons. discriminate.
Qed.

(** The line written for a section value is one the parser takes for a
    data line, as it stands. *)
Lemma literal_line x :
  literal x -> x <> VNull ->
  let t := generateValue x true in
  (firstCell x -> startsWith "#" t = false /\ startsWith ":" t = false)
  /\ (lastCell x -> endsWith ":" t = false).
Proof.
  intros Hl Hn. cbv zeta.
  destruct (text_facts x true Hl) as (_ & _ & _ & He & _).
  destruct (He Hn) as [Hh Hla].
  destruct x as [| b | n | s | items | es]; try contradiction.
  - destruct b; repeat split.
  - destruct Hl as [Hnan _]. simpl generateValue in *.
    pose proof (toString_chars n Hnan) as Hc.
    destruct (toString n) as [| c t] eqn:E; [contradiction |].
    assert (H1 : numChar c = true)
      by (simpl in Hc; now apply andb_true_iff in Hc).
    apply numChar_cases in H1. destruct H1 as (_ & _ & H1 & H2 & _).
    split; [intros _; split; [exact H2 | exact H1] |]. intros _.
    destruct Hla as (a & d & Ea & _). rewrite Ea, endsWith_snoc.
    rewrite Ea in Hc. pose proof (allChars_last _ _ _ _ Hc eq_refl) as Hd.
    now apply numChar_cases in Hd.
  - simpl generateValue. split.
    + intros [H1 H2]. now rewrite !startsWith_escape_same by reflexivity.
    + intros H3. now rewrite endsWith_escape_colon.
  - destruct items as [| y ys]; [repeat split |].
    rewrite generateValue_arr. repeat split.
    change (String "[" (?a ++ str1 "]")) with (String "[" a ++ str1 "]").
    now rewrite endsWith_snoc.
  - destruct es as [| kv es]; [repeat split |].
    rewrite generateValue_obj. repeat split.
    change (String "(" (?a ++ str1 ")")) with (String "(" a ++ str1 ")").
    now rewrite endsWith_snoc.
Qed.

Lemma sectionValue_line x :
  sectionValue x ->
  let t := generateValue x false in
  headOK t /\ lastOK t /\ includes LF t = false
  /\ startsWith "#" t = false /\ startsWith ":" t = false
  /\ endsWith ":" t = false.
Proof.
  intros (Hl & Hn & Hx). cbv zeta.
  destruct (text_facts x false Hl) as (_ & HLF & _ & He & _).
  destruct (He Hn) as [Hh Hla].
  destruct (literal_line x Hl Hn) as [H1 H2].
  rewrite (generateValue_inline x true false) in H1, H2.
  assert (Hf : firstCell x /\ lastCell x) by (destruct x; simpl; tauto).
  destruct (H1 (proj1 Hf)) as [S1 S2]. pose proof (H2 (proj2 Hf)) as S3.
  tauto.
Qed.

(** ** Cells of a table *)

Lemma cell_obj kv es fs :
  cell (VObj (kv :: es)) fs
  <-> jsOrdered (kv :: es)
      /\ Forall2 (fun p f => fst p = name f /\ cell (snd p) (nestedFields f))
           (kv :: es) fs
      /\ match kv :: es with [(_, VNull)] => False | _ => True end.
Proof.
  assert (Hfix : forall l gs,
    (fix cells (es0 : entries) (fs0 : list Field) {struct es0} : Prop :=
       match es0, fs0 with
       | [], [] => True
       | kv0 :: es', f0 :: fs'0 =>
           fst kv0 = name f0 /\ cell (snd kv0) (nestedFields f0)
           /\ cells es' fs'0
       | _, _ => False
       end) l gs
    <-> Forall2 (fun p f => fst p = name f /\ cell (snd p) (nestedFields f))
          l gs).
  { induction l as [| p l IH]; intros [| f gs].
    - split; [constructor | auto].
    - split; [intros [] | intros H; inversion H].
    - split; [intros [] | intros H; inversion H].
    - rewrite IH. split.
      + intros (H1 & H2 & H3). constructor; auto.
      + intros H. inversion H; subst. tauto. }
  cbn [cell]. apply and_iff_compat_l. apply and_iff_compat_r.
  destruct fs as [| f fs].
  - split; [intros [] | intros H; inversion H].
  - rewrite Hfix. split.
    + intros (H1 & H2 & H3). constructor; auto.
    + intros H. inversion H; subst. tauto.
Qed.

Lemma cell_literal x fs :
  match x with VObj (_ :: _) => False | _ => True end ->
  cell x fs -> literal x.
Proof.
  destruct x as [| | | | | [| kv es]]; simpl; tauto.
Qed.

Lemma cellText_literal x :
  match x with VObj (_ :: _) => False | _ => True end ->
  generateObjectFieldValue x = generateValue x true.
Proof.
  destruct x as [| | | | [| y ys] | [| kv es]]; try reflexivity. intros [].
Qed.

Lemma cellText_obj kv es :
  generateObjectFieldValue (VObj (kv :: es))
  = String "("
      (join "," (map (fun p => generateObjectFieldValue (snd p)) (kv :: es))
       ++ str1 ")").
Proof. reflexivity. Qed.

Lemma cell_facts x :
  forall fs, cell x fs ->
    let t := generateObjectFieldValue x in
    nested false t
    /\ includes LF t = false
    /\ (x = VNull -> t = "")
    /\ (x <> VNull -> headOK t /\ lastOK t)
    /\ wf x.
Proof.
  induction x as [| | | | items IH | es IH] using value_ind'; intros fs Hc;
    try (apply cell_literal in Hc; [| exact I];
         rewrite cellText_literal by exact I;
         pose proof (text_facts _ true Hc) as (F1 & F2 & F3 & F4 & _);
         pose proof (literal_wf _ Hc);
         cbv zeta; tauto).
  destruct es as [| kv es].
  - apply cell_literal in Hc; [| exact I].
    pose proof (text_facts _ true Hc) as (F1 & F2 & F3 & F4 & _).
    pose proof (literal_wf _ Hc). cbv zeta. tauto.
  - apply cell_obj in Hc. destruct Hc as (Ho & Hcs & _).
    cbv zeta. rewrite cellText_obj.
    assert (Hall : Forall (fun p =>
                     nested false (generateObjectFieldValue (snd p))
                     /\ includes LF (generateObjectFieldValue (snd p)) = false
                     /\ wf (snd p)) (kv :: es)).
    { clear Ho. revert IH Hcs. generalize (kv :: es) as l. clear kv es.
      intros l IH Hcs.
      induction Hcs as [| p f l' fs' [_ Hp] Hcs IHl]; constructor.
      - inversion IH as [| ? ? H1 H2]; subst. specialize (H1 _ Hp).
        cbv zeta in H1. tauto.
      - apply IHl. now inversion IH. }
    split; [| split; [| split; [| split]]].
    + apply nested_group; [now left |]. apply nested_join.
      rewrite Forall_map. revert Hall. apply Forall_impl. tauto.
    + apply includes_group; try reflexivity. apply includes_join; [| reflexivity].
      rewrite Forall_map. revert Hall. apply Forall_impl. tauto.
    + discriminate.
    + intros _. split; [reflexivity |].
      exists (String "(" (join "," (map (fun p => generateObjectFieldValue (snd p))
                                     (kv :: es)))), ")"%char.
      split; reflexivity.
    + apply wf_obj. split; [assumption |].
      revert Hall. apply Forall_impl. tauto.
Qed.

Lemma startsWith_not_unit t :
  startsWith "(" t = false -> (t =? "()")%string = false.
Proof.
  destruct t as [| c t]; [reflexivity |]. simpl. intros ->. reflexivity.
Qed.

Lemma cell_parse_flat x nm line n :
  cell x [] ->
  parseFieldValue (createField nm []) (generateObjectFieldValue x) line n = Ok x.
Proof.
  intros Hc.
  assert (Hx : match x with VObj (_ :: _) => False | _ => True end).
  { destruct x as [| | | | | [| kv es]]; try exact I.
    apply cell_obj in Hc. destruct Hc as (_ & H & _). inversion H. }
  rewrite (cellText_literal x Hx).
  cbn [parseFieldValue]. change (negb (isNestedField (createField nm []))) with true.
  cbv iota. apply parseValue_literal. now apply (cell_literal x []).
Qed.

(** Under a field with nested fields, a text that is not parenthesised
    is read by [parseValue]. *)
Lemma parseFieldValue_plain nm f fs t line n :
  headOK t -> lastOK t -> startsWith "(" t = false ->
  parseFieldValue (createField nm (f :: fs)) t line n = parseValue t.
Proof.
  intros Hh Hl Hp. cbn [parseFieldValue].
  change (negb (isNestedField (createField nm (f :: fs)))) with false.
  cbv iota zeta. rewrite (trim_edges t Hh Hl).
  rewrite (startsWith_not_unit t Hp), Hp.
  destruct t as [| c t]; [destruct Hh |]. cbn [isEmpty negb orb].
  now destruct (startsWith "[" (String c t) && endsWith "]" (String c t)).
Qed.

Lemma cell_parse_literal x nm f fs line n :
  literal x -> match x with VObj (_ :: _) => False | _ => True end ->
  parseFieldValue (createField nm (f :: fs)) (generateValue x true) line n
  = Ok x.
Proof.
  intros Hl Hx.
  pose proof (text_facts x true Hl) as (_ & _ & _ & F4 & F5). cbv zeta in *.
  destruct x as [| b | m | s | items | [| kv es]]; try contradiction;
    try reflexivity;
    (rewrite parseFieldValue_plain;
     [now apply parseValue_literal
     | now apply F4 | now apply F4 | ]);
    try (now apply F5).
  now destruct items.
Qed.

Lemma fill_cells line n es :
  forall fs obj,
    Forall2 (fun p f =>
               fst p = name f
               /\ parseFieldValue f (generateObjectFieldValue (snd p)) line n
                  = Ok (snd p)
               /\ wf (snd p)) es fs ->
    (fix fill (fs0 : list Field) (vs : list string) (obj : entries)
       {struct fs0} : outcome value :=
       match fs0, vs with
       | nestedField :: fs', valueStr :: vs' =>
           value <- parseFieldValue nestedField valueStr line n ;;
           fill fs' vs' (objSet (name nestedField) (toNative value) obj)
       | _, _ => Ok (createOrtValue (VObj obj))
       end) fs (map (fun p => generateObjectFieldValue (snd p)) es) obj
    = Ok (createOrtValue
            (VObj (fold_left (fun a kv => objSet (fst kv) (snd kv) a) es obj))).
Proof.
  induction es as [| p es IH]; intros fs obj H; inversion H as [| ? f ? fs' (Hn & Hp & Hw) Hrest]; subst.
  - reflexivity.
  - cbn [map fold_left]. rewrite Hp. cbn [bind].
    rewrite (toNative_wf_id _ Hw), <- Hn. now apply IH.
Qed.

Lemma fillRecord_cells line n es :
  forall fs obj,
    Forall2 (fun p f =>
               fst p = name f
               /\ parseFieldValue f (generateObjectFieldValue (snd p)) line n
                  = Ok (snd p)
               /\ wf (snd p)) es fs ->
    fillRecord fs (map (fun p => generateObjectFieldValue (snd p)) es) line n obj
    = Ok (fold_left (fun a kv => objSet (fst kv) (snd kv) a) es obj).
Proof.
  induction es as [| p es IH]; intros fs obj H; inversion H as [| ? f ? fs' (Hn & Hp & Hw) Hrest]; subst.
  - reflexivity.
  - cbn [map fold_left fillRecord]. rewrite Hp. cbn [bind].
    rewrite (toNative_wf_id _ Hw), <- Hn. now apply IH.
Qed.

Lemma group_not_unit body :
  body <> "" -> (String "(" (body ++ str1 ")") =? "()")%string = false.
Proof.
  destruct body as [| c body]; [contradiction |]. intros _. simpl.
  destruct (c =? ")")%char; [| reflexivity]. now destruct body.
Qed.

Lemma append_nonempty_r a b : b <> "" -> a ++ b <> "".
Proof. destruct a; simpl; [auto | discriminate]. Qed.

Lemma Forall2_length_eq {A B : Type} (R : A -> B -> Prop) l l' :
  Forall2 R l l' -> List.length l = List.length l'.
Proof. induction 1; simpl; congruence. Qed.

(** The text between the parentheses of an object cell is not empty. *)
Lemma cells_nonempty kv es fs :
  cell (VObj (kv :: es)) fs ->
  join "," (map (fun p => generateObjectFieldValue (snd p)) (kv :: es)) <> "".
Proof.
  intros Hc. apply cell_obj in Hc. destruct Hc as (_ & Hcs & Hnn).
  destruct es as [| kv' es].
  - destruct kv as [k v]. inversion Hcs as [| ? f ? ? [_ Hv] _]; subst.
    cbn [map join snd] in *.
    apply lastOK_nonempty.
    apply (cell_facts v _ Hv). now destruct v.
  - cbn [map]. rewrite join_cons. apply append_nonempty_r. discriminate.
Qed.

Lemma cell_parse x :
  forall fs nm line n,
    cell x fs ->
    parseFieldValue (createField nm fs) (generateObjectFieldValue x) line n
    = Ok x.
Proof.
  induction x as [| b | m | s | items IH | es IH] using value_ind';
    intros fs nm line n Hc;
    try (destruct fs as [| f fs]; [now apply cell_parse_flat |];
         rewrite cellText_literal by exact I;
         apply cell_parse_literal; [now apply (cell_literal _ (f :: fs)) | exact I]).
  destruct es as [| kv es].
  - destruct fs as [| f fs]; [now apply cell_parse_flat | reflexivity].
  - pose proof (cells_nonempty _ _ _ Hc) as Hne.
    pose proof (cell_facts _ _ Hc) as (_ & _ & _ & Hedges & Hw).
    destruct Hedges as [Hh Hl]; [discriminate |].
    apply cell_obj in Hc. destruct Hc as (Ho & Hcs & _).
    assert (HF : Forall2 (fun p f =>
                   fst p = name f
                   /\ parseFieldValue f (generateObjectFieldValue (snd p)) line n
                      = Ok (snd p)
                   /\ wf (snd p)) (kv :: es) fs).
    { clear Ho Hne Hh Hl Hw. revert IH Hcs. generalize (kv :: es) as l.
      clear kv es. intros l IH Hcs.
      induction Hcs as [| p f l' fs' [Hn Hp] Hcs IHl]; constructor.
      - inversion IH as [| ? ? H1 H2]; subst.
        split; [assumption |]. split; [| now apply (cell_facts _ _ Hp)].
        destruct f as [fn fnested]. now apply H1.
      - apply IHl. now inversion IH. }
    assert (Hnest : Forall (nested false)
                      (map (fun p => generateObjectFieldValue (snd p)) (kv :: es))).
    { rewrite Forall_map. clear - Hcs. 
      induction Hcs as [| p f l' fs' [_ Hp] Hcs IHl]; constructor; [| assumption].
      now apply (cell_facts _ _ Hp). }
    destruct fs as [| f fs]; [inversion Hcs |].
    cbn [parseFieldValue].
    change (negb (isNestedField (createField nm (f :: fs)))) with false.
    cbv iota zeta. rewrite (trim_edges _ Hh Hl).
    rewrite cellText_obj. rewrite (group_not_unit _ Hne).
    rewrite inner_brackets.
    rewrite !endsWith_cons by (apply append_nonempty_r; discriminate).
    rewrite !endsWith_snoc.
    cbn [isEmpty startsWith].
    change (("(" =? "[")%char) with false. change ((")" =? ")")%char) with true.
    change (("(" =? "(")%char) with true. cbn [andb negb orb].
    rewrite parseDataValues_join by (assumption || discriminate).
    rewrite length_map, (Forall2_length_eq _ _ _ Hcs), Nat.eqb_refl.
    cbn [negb].
    etransitivity; [exact (fill_cells line n (kv :: es) (f :: fs) [] HF) |].
    rewrite fold_objSet_ordered by exact Ho.
    cbn [app]. now rewrite createOrtValue_id.
Qed.

(** ** Rows of a table *)

Lemma cell_line x fs :
  cell x fs -> x <> VNull ->
  let t := generateObjectFieldValue x in
  (firstCell x -> startsWith "#" t = false /\ startsWith ":" t = false)
  /\ (lastCell x -> endsWith ":" t = false).
Proof.
  intros Hc Hn.
  assert (Hlit : match x with VObj (_ :: _) => False | _ => True end ->
                 let t := generateObjectFieldValue x in
                 (firstCell x -> startsWith "#" t = false /\ startsWith ":" t = false)
                 /\ (lastCell x -> endsWith ":" t = false)).
  { intros Hx. cbv zeta. rewrite (cellText_literal x Hx).
    apply literal_line; [now apply (cell_literal x fs) | assumption]. }
  destruct x as [| | | | | [| kv es]]; try (apply Hlit; exact I).
  cbv zeta. rewrite cellText_obj. repeat split.
  change (String "(" (?a ++ str1 ")")) with (String "(" a ++ str1 ")").
  now rewrite endsWith_snoc.
Qed.

Lemma startsWith_app c a b : a <> "" -> startsWith c (a ++ b) = startsWith c a.
Proof. destruct a; [contradiction | reflexivity]. Qed.

Lemma join_snoc sep l p :
  l <> [] -> join sep (l ++ [p])%list = join sep l ++ sep ++ p.
Proof.
  induction l as [| a l IH]; [contradiction |]. intros _.
  destruct l as [| b l].
  - simpl. reflexivity.
  - change ((a :: b :: l) ++ [p])%list with (a :: (b :: l) ++ [p])%list.
    change ((b :: l) ++ [p])%list with (b :: (l ++ [p]))%list.
    rewrite join_cons.
    change (b :: (l ++ [p]))%list with ((b :: l) ++ [p])%list.
    rewrite IH by discriminate. rewrite (join_cons sep a b l).
    now rewrite !append_assoc.
Qed.

Lemma row_cells fs es :
  cell (VObj es) fs -> es <> [] ->
  jsOrdered es
  /\ Forall2 (fun p f => fst p = name f /\ cell (snd p) (nestedFields f)) es fs
  /\ Forall (fun p =>
       let t := generateObjectFieldValue (snd p) in
       nested false t /\ includes LF t = false
       /\ (snd p = VNull -> t = "")
       /\ (snd p <> VNull -> headOK t /\ lastOK t)) es.
Proof.
  intros Hc Hne. destruct es as [| kv es]; [contradiction |].
  apply cell_obj in Hc. destruct Hc as (Ho & Hcs & _).
  split; [assumption |]. split; [assumption |].
  clear Ho Hne. induction Hcs as [| p f l fs' [_ Hp] Hcs IH]; constructor.
  - pose proof (cell_facts _ _ Hp). cbv zeta in *. tauto.
  - exact IH.
Qed.

Lemma row_head fs es :
  cell (VObj es) fs -> es <> [] -> firstCell (hd VNull (map snd es)) ->
  let R := rowText (VObj es) in
  headOK R /\ startsWith "#" R = false /\ startsWith ":" R = false.
Proof.
  intros Hc Hne Hf. pose proof (cells_nonempty) as Hnn.
  destruct es as [| [k x] es]; [contradiction |].
  specialize (Hnn _ _ _ Hc).
  apply cell_obj in Hc. destruct Hc as (_ & Hcs & Hsingle).
  inversion Hcs as [| ? f ? fs' [_ Hx] Hrest]; subst. cbn [snd] in *.
  cbv zeta. cbn [rowText map snd hd] in *.
  destruct (cell_facts _ _ Hx) as (_ & _ & H0 & H1 & _).
  assert (Hcase : x = VNull \/ x <> VNull)
    by (destruct x; (now left) || (right; discriminate)).
  destruct Hcase as [-> | Hn].
  - destruct es as [| kv es]; [contradiction |].
    cbn [map]. rewrite join_cons. rewrite (H0 eq_refl). repeat split.
  - destruct (H1 Hn) as [Hh Hl].
    destruct (cell_line _ _ Hx Hn) as [Hs _]. destruct (Hs Hf) as [S1 S2].
    destruct es as [| kv es]; [cbn [map join]; auto |].
    cbn [map]. rewrite join_cons.
    rewrite !startsWith_app by now apply lastOK_nonempty.
    split; [now apply headOK_app | auto].
Qed.

Lemma row_last fs es :
  cell (VObj es) fs -> es <> [] -> lastCell (last (map snd es) VNull) ->
  let R := rowText (VObj es) in
  lastOK R /\ endsWith ":" R = false.
Proof.
  intros Hc Hne Hf. cbv zeta.
  destruct (row_cells _ _ Hc Hne) as (_ & Hcs & _).
  assert (Hsingle : match es with [(_, VNull)] => False | _ => True end).
  { destruct es as [| kv es]; [exact I |]. now apply cell_obj in Hc. }
  clear Hc.
  destruct (exists_last Hne) as (init & [k y] & ->).
  rewrite map_app in Hf. cbn [map snd] in Hf. rewrite last_last in Hf.
  apply Forall2_app_inv_l in Hcs.
  destruct Hcs as (fs1 & fs2 & _ & Hy & _).
  inversion Hy as [| ? f ? ? [_ Hcy] _]; subst. cbn [snd] in Hcy.
  destruct (cell_facts _ _ Hcy) as (_ & _ & H0 & H1 & _).
  assert (Hcase : y = VNull \/ y <> VNull)
    by (destruct y; (now left) || (right; discriminate)).
  cbn [rowText]. rewrite map_app. cbn [map snd].
  destruct init as [| p init].
  - cbn [app map join]. destruct Hcase as [-> | Hn]; [contradiction |].
    destruct (H1 Hn) as [_ Hl]. split; [assumption |].
    now apply (cell_line _ _ Hcy Hn).
  - rewrite join_snoc by discriminate.
    destruct Hcase as [-> | Hn].
    + rewrite (H0 eq_refl). change ("," ++ "") with (str1 ",").
      rewrite endsWith_snoc. split; [| reflexivity].
      eexists _, _. split; reflexivity.
    + destruct (H1 Hn) as [_ Hl].
      rewrite <- append_assoc.
      rewrite endsWith_app by now apply lastOK_nonempty.
      split; [now apply lastOK_app |].
      now apply (cell_line _ _ Hcy Hn).
Qed.

Lemma row_line fs r :
  row fs r ->
  let R := rowText r in
  trim R = R /\ isSkipped R = false /\ includes ":" R && isHeader R = false
  /\ includes LF R = false /\ lastOK R.
Proof.
  destruct r as [| | | | | es]; try (intros H; exact (False_ind _ H)).
  intros (Hne & Hc & Hf & Hl). cbv zeta.
  destruct (row_head _ _ Hc Hne Hf) as (Hh & S1 & S2).
  destruct (row_last _ _ Hc Hne Hl) as (Hla & E1).
  pose proof (trim_edges _ Hh Hla) as Ht.
  split; [assumption |]. split; [| split; [| split; [| assumption]]].
  - unfold isSkipped. rewrite S1.
    destruct (rowText (VObj es)); [destruct Hh | reflexivity].
  - rewrite (isHeader_false _ Ht S2 E1). apply andb_false_r.
  - destruct (row_cells _ _ Hc Hne) as (_ & _ & Hall).
    cbn [rowText]. apply includes_join; [| reflexivity].
    rewrite Forall_map. revert Hall. apply Forall_impl. cbv zeta. tauto.
Qed.

Lemma row_parse fs r j :
  row fs r -> parseRow fs (j, rowText r) = Ok r.
Proof.
  destruct r as [| | | | | es]; try (intros H; exact (False_ind _ H)).
  intros (Hne & Hc & _).
  destruct (row_cells _ _ Hc Hne) as (Ho & Hcs & Hall).
  unfold parseRow. cbn [fst snd rowText].
  rewrite parseDataValues_join.
  - rewrite length_map, (Forall2_length_eq _ _ _ Hcs), Nat.eqb_refl.
    cbn [negb].
    rewrite (fillRecord_cells _ _ es fs []).
    + cbn [bind]. rewrite fold_objSet_ordered by exact Ho. reflexivity.
    + generalize (join "," (map (fun kv : string * value =>
                                   generateObjectFieldValue (snd kv)) es)) as line.
      intros line. clear - Hcs.
      induction Hcs as [| p f l fs' [Hn Hp] Hcs IH]; constructor.
      * split; [assumption |]. split; [| now apply (cell_facts _ _ Hp)].
        destruct f as [fn fnested]. now apply cell_parse.
      * exact IH.
  - destruct es; [contradiction | discriminate].
  - rewrite Forall_map. revert Hall. apply Forall_impl. cbv zeta. tauto.
Qed.

(** ** Headers *)

Lemma keyChar_field c :
  keyChar c = true ->
  (c =? "(")%char = false /\ (c =? ")")%char = false /\ (c =? ",")%char = false.
Proof.
  intros H. apply keyChar_cases in H. destruct H as (H & _).
  unfold needsBackslash in H. repeat (apply orb_false_iff in H; destruct H as [H ?]).
  auto.
Qed.

Lemma scanNested_plain k :
  allChars keyChar k = true ->
  forall rest d acc, (0 < d)%Z ->
    scanNested (k ++ rest) d acc = scanNested rest d (acc ++ k).
Proof.
  induction k as [| c k IH]; intros Hk rest d acc Hd.
  - now rewrite append_nil_r.
  - simpl in Hk. apply andb_true_iff in Hk. destruct Hk as [Hc Hk].
    destruct (keyChar_field c Hc) as (H1 & H2 & _).
    cbn [append scanNested]. rewrite H1, H2.
    replace (0 <? d)%Z with true by (symmetry; now apply Z.ltb_lt).
    rewrite (IH Hk) by assumption. now rewrite append_snoc.
Qed.

Lemma scanNested_char c rest d acc :
  (c =? "(")%char = false -> (c =? ")")%char = false -> (0 < d)%Z ->
  scanNested (String c rest) d acc = scanNested rest d (acc ++ str1 c).
Proof.
  intros H1 H2 Hd. cbn [scanNested]. rewrite H1, H2.
  now replace (0 <? d)%Z with true by (symmetry; now apply Z.ltb_lt).
Qed.

Lemma scanNested_open rest d acc :
  (0 < d)%Z ->
  scanNested (String "(" rest) d acc = scanNested rest (d + 1) (acc ++ "(").
Proof.
  intros Hd. cbn [scanNested]. change (("(" =? "(")%char) with true. cbv iota.
  now replace (0 <? d + 1)%Z with true by (symmetry; apply Z.ltb_lt; lia).
Qed.

Lemma scanNested_close rest d acc :
  (1 < d)%Z ->
  scanNested (String ")" rest) d acc = scanNested rest (d - 1) (acc ++ ")").
Proof.
  intros Hd. cbn [scanNested]. change ((")" =? "(")%char) with false.
  change ((")" =? ")")%char) with true. cbv iota.
  now replace (0 <? d - 1)%Z with true by (symmetry; apply Z.ltb_lt; lia).
Qed.

(** One property of a header: its name, with its nested fields in
    parentheses when the value is an object. *)
Lemma headerFieldsOf_cons kv es :
  headerFieldsOf (VObj (kv :: es))
  = (fst kv ++ match snd kv with
               | VObj _ => "(" ++ headerFieldsOf (snd kv) ++ ")"
               | _ => ""
               end)
    ++ match es with [] => "" | _ => "," ++ headerFieldsOf (VObj es) end.
Proof.
  destruct kv as [k v]. cbn [fst snd].
  change (headerFieldsOf (VObj ((k, v) :: es)))
    with (join "," ((match v with
                     | VObj _ => k ++ "(" ++ headerFieldsOf v ++ ")"
                     | _ => k
                     end)
                    :: map (fun kv =>
                              match snd kv with
                              | VObj _ => fst kv ++ "(" ++ headerFieldsOf (snd kv) ++ ")"
                              | _ => fst kv
                              end) es)).
  assert (E : match v with
              | VObj _ => k ++ "(" ++ headerFieldsOf v ++ ")"
              | _ => k
              end
              = k ++ match v with
                     | VObj _ => "(" ++ headerFieldsOf v ++ ")"
                     | _ => ""
                     end)
    by (destruct v; now rewrite ?append_nil_r).
  rewrite E. destruct es as [| kv' es].
  - cbn [map join]. now rewrite append_nil_r.
  - cbn [map]. rewrite join_cons. reflexivity.
Qed.

Lemma fieldsOf_cons kv es :
  fieldsOf (VObj (kv :: es))
  = createField (fst kv) (fieldsOf (snd kv)) :: fieldsOf (VObj es).
Proof. reflexivity. Qed.

Lemma plainField_fields nm fs :
  plainField (createField nm fs) <-> plainKey nm /\ plainFields fs.
Proof.
  cbn [plainField]. apply and_iff_compat_l. unfold plainFields.
  induction fs as [| f fs IH].
  - split; auto.
  - rewrite IH. split; [intros [? ?]; auto | intros H; inversion H; auto].
Qed.

Lemma scanNested_header v :
  plainFields (fieldsOf v) ->
  forall rest d acc, (0 < d)%Z ->
    scanNested (headerFieldsOf v ++ rest) d acc
    = scanNested rest d (acc ++ headerFieldsOf v).
Proof.
  induction v as [| b | m | s | items IH | es IH] using value_ind';
    try (intros _ rest d acc _; cbn [headerFieldsOf append];
         now rewrite append_nil_r).
  induction es as [| [k v] es IHes]; intros Hp rest d acc Hd.
  - cbn [headerFieldsOf map join append]. now rewrite append_nil_r.
  - rewrite fieldsOf_cons in Hp. inversion Hp as [| ? ? Hf Hrest]; subst.
    apply plainField_fields in Hf. cbn [fst snd] in Hf. destruct Hf as [Hk Hv].
    inversion IH as [| ? ? IHv IHrest]; subst. cbn [snd] in IHv.
    specialize (IHes IHrest Hrest).
    rewrite headerFieldsOf_cons. cbn [fst snd].
    destruct Hk as (_ & _ & Hk).
    rewrite !append_assoc. rewrite (scanNested_plain k Hk) by assumption.
    assert (Hgroup : forall rest' acc',
              scanNested (match v with
                          | VObj _ => "(" ++ headerFieldsOf v ++ ")"
                          | _ => ""
                          end ++ rest') d acc'
              = scanNested rest' d
                  (acc' ++ match v with
                           | VObj _ => "(" ++ headerFieldsOf v ++ ")"
                           | _ => ""
                           end)).
    { intros rest' acc'.
      destruct v as [| | | | | l]; try (cbn [append]; now rewrite append_nil_r).
      change (("(" ++ headerFieldsOf (VObj l) ++ ")") ++ rest')
        with (String "(" ((headerFieldsOf (VObj l) ++ ")") ++ rest')).
      rewrite scanNested_open by assumption.
      rewrite append_assoc. rewrite (IHv Hv) by lia.
      change (")" ++ rest') with (String ")" rest').
      rewrite scanNested_close by lia.
      replace (d + 1 - 1)%Z with d by lia.
      now rewrite !append_assoc. }
    rewrite Hgroup. destruct es as [| kv es].
    + cbn [append]. now rewrite !append_nil_r, !append_assoc.
    + change (("," ++ headerFieldsOf (VObj (kv :: es))) ++ rest)
        with (String "," (headerFieldsOf (VObj (kv :: es)) ++ rest)).
      rewrite scanNested_char by (reflexivity || assumption).
      rewrite IHes by assumption.
      now rewrite !append_assoc.
Qed.

Lemma parseFieldsLoop_name k :
  allChars keyChar k = true ->
  forall fuel line n rest result cur,
    parseFieldsLoop (String.length k + fuel) line n (k ++ rest) result cur 0
    = parseFieldsLoop fuel line n rest result (cur ++ k) 0.
Proof.
  induction k as [| c k IH]; intros Hk fuel line n rest result cur.
  - now rewrite append_nil_r.
  - simpl in Hk. apply andb_true_iff in Hk. destruct Hk as [Hc Hk].
    destruct (keyChar_field c Hc) as (H1 & H2 & H3).
    cbn [String.length Nat.add append parseFieldsLoop]. rewrite H1, H2, H3.
    rewrite (IH Hk). now rewrite append_snoc.
Qed.

Lemma pushField_name k result :
  plainKey k -> pushField (trim k) result = (result ++ [createField k []])%list.
Proof.
  intros (Hne & Ht & _). unfold pushField. rewrite Ht.
  destruct k; [contradiction | reflexivity].
Qed.

Lemma headerFieldsOf_nonempty kv es :
  plainFields (fieldsOf (VObj (kv :: es))) ->
  isEmpty (headerFieldsOf (VObj (kv :: es))) = false.
Proof.
  rewrite fieldsOf_cons. intros Hp. inversion Hp as [| ? ? Hf _]; subst.
  apply plainField_fields in Hf. destruct Hf as [(Hne & _) _].
  rewrite headerFieldsOf_cons. destruct (fst kv); [contradiction | reflexivity].
Qed.

Lemma parseFieldsLoop_header v :
  plainFields (fieldsOf v) ->
  forall fuel line n result,
    String.length (headerFieldsOf v) < fuel ->
    parseFieldsLoop fuel line n (headerFieldsOf v) result "" 0
    = Ok (result ++ fieldsOf v)%list.
Proof.
  induction v as [| b | m | s | items IH | es IH] using value_ind';
    try (intros _ [| fuel] line n result Hfuel; [simpl in Hfuel; lia |];
         cbn [headerFieldsOf fieldsOf parseFieldsLoop];
         now rewrite app_nil_r).
  induction es as [| [k v] es IHes]; intros Hp fuel line n result Hfuel.
  - destruct fuel; [simpl in Hfuel; lia |].
    cbn [headerFieldsOf fieldsOf map join parseFieldsLoop]. now rewrite app_nil_r.
  - pose proof Hp as Hp0.
    rewrite fieldsOf_cons in Hp. inversion Hp as [| ? ? Hf Hrest]; subst.
    apply plainField_fields in Hf. cbn [fst snd] in Hf. destruct Hf as [Hk Hv].
    inversion IH as [| ? ? IHv IHrest]; subst. cbn [snd] in IHv.
    specialize (IHes IHrest Hrest).
    rewrite fieldsOf_cons. cbn [fst snd].
    rewrite headerFieldsOf_cons in Hfuel |- *. cbn [fst snd] in Hfuel |- *.
    set (T := match es with
              | [] => ""
              | _ :: _ => "," ++ headerFieldsOf (VObj es)
              end) in *.
    set (G := match v with
              | VObj _ => "(" ++ headerFieldsOf v ++ ")"
              | _ => ""
              end) in *.
    rewrite !length_append in Hfuel.
    assert (Htail : forall fuel0 res cur,
              String.length T < fuel0 ->
              parseFieldsLoop fuel0 line n T res cur 0
              = Ok (pushField (trim cur) res ++ fieldsOf (VObj es))%list).
    { intros [| fuel0] res cur Hf0; [lia |]. subst T.
      destruct es as [| kv es].
      - cbn [parseFieldsLoop fieldsOf map]. now rewrite app_nil_r.
      - change ("," ++ headerFieldsOf (VObj (kv :: es)))
          with (String "," (headerFieldsOf (VObj (kv :: es)))) in *.
        cbn [parseFieldsLoop]. change (("," =? "(")%char) with false.
        change (("," =? ")")%char) with false. change (("," =? ",")%char) with true.
        cbv iota. change (0 =? 0)%Z with true. cbv iota.
        apply IHes. cbn [String.length] in Hf0. lia. }
    rewrite append_assoc.
    replace fuel with (String.length k + (fuel - String.length k)) by lia.
    destruct Hk as (Kne & Kt & Kc).
    rewrite (parseFieldsLoop_name k Kc). cbn [append].
    assert (Hk : plainKey k) by (repeat split; assumption).
    remember (fuel - String.length k) as fuel0 eqn:Ef.
    assert (Hf0 : String.length G + String.length T < fuel0) by lia.
    clear Ef Hfuel. subst G.
    destruct v as [| | | | | l];
      try (cbn [append fieldsOf]; rewrite Htail by (simpl in Hf0; lia);
           rewrite (pushField_name k _ Hk), <- app_assoc; reflexivity).
    destruct fuel0 as [| fuel0]; [lia |].
    change (("(" ++ headerFieldsOf (VObj l) ++ ")") ++ T)
      with (String "(" ((headerFieldsOf (VObj l) ++ ")") ++ T)).
    rewrite append_assoc. change (")" ++ T) with (String ")" T).
    cbn [parseFieldsLoop]. change (("(" =? "(")%char) with true. cbv iota.
    change (0 =? 0)%Z with true. cbv iota.
    rewrite (scanNested_header (VObj l) Hv) by lia.
    cbn [scanNested]. change ((")" =? "(")%char) with false.
    change ((")" =? ")")%char) with true. cbv iota.
    change (0 <? 1 - 1)%Z with false. cbv iota. cbn [append].
    rewrite Kt.
    assert (Hnested : (if isEmpty (headerFieldsOf (VObj l)) then Ok []
                       else parseFieldsLoop fuel0 line n (headerFieldsOf (VObj l))
                              [] "" 0)
                      = Ok (fieldsOf (VObj l))).
    { destruct l as [| kv' l]; [reflexivity |].
      rewrite (headerFieldsOf_nonempty _ _ Hv).
      rewrite (IHv Hv); [reflexivity |].
      rewrite !length_append in Hf0. cbn [String.length] in Hf0. lia. }
    rewrite Hnested. cbn [bind].
    rewrite Htail.
    + change (pushField (trim "") ?r) with r. now rewrite <- app_assoc.
    + rewrite !length_append in Hf0. cbn [String.length] in Hf0. lia.
Qed.

(** ** The text of a table *)

Lemma row_keys fs es : cell (VObj es) fs -> es <> [] -> keysOf es = map name fs.
Proof.
  intros Hc Hne. destruct (row_cells _ _ Hc Hne) as (_ & Hcs & _).
  clear Hc Hne. induction Hcs as [| p f l fs' [Hn _] _ IH]; [reflexivity |].
  unfold keysOf in *. cbn [map]. now rewrite Hn, IH.
Qed.

Lemma table_rows rows :
  table rows ->
  exists first rest,
    rows = VObj first :: rest /\ first <> []
    /\ plainFields (fieldsOf (VObj first))
    /\ Forall (row (fieldsOf (VObj first))) rows.
Proof.
  destruct rows as [| r rest]; [intros [] |]. intros [Hp Hrows].
  inversion Hrows as [| ? ? Hr _]; subst.
  destruct r as [| | | | | first]; try (exact (False_ind _ Hr)).
  exists first, rest. destruct Hr as (Hne & _). auto.
Qed.

Lemma row_wf fs r : row fs r -> wf r.
Proof.
  destruct r as [| | | | | es]; try (intros H; exact (False_ind _ H)).
  intros (_ & Hc & _). now apply (cell_facts _ _ Hc).
Qed.

Lemma table_wf rows : table rows -> Forall wf rows.
Proof.
  intros H. destruct (table_rows _ H) as (first & rest & -> & _ & _ & Hrows).
  revert Hrows. apply Forall_impl. intros r. apply row_wf.
Qed.

Lemma table_uniform rows : table rows -> isUniformObjectArray rows = true.
Proof.
  intros H. destruct (table_rows _ H) as (first & rest & -> & Hne & _ & Hrows).
  inversion Hrows as [| ? ? Hfirst Hrest]; subst.
  cbn [isUniformObjectArray]. apply forallb_forall. intros r Hin.
  rewrite Forall_forall in Hrest. specialize (Hrest r Hin).
  destruct r as [| | | | | es]; try (exact (False_ind _ Hrest)).
  destruct Hrest as (Hnes & Hc & _). destruct Hfirst as (_ & Hcf & _).
  rewrite (row_keys _ _ Hc Hnes), (row_keys _ _ Hcf Hne).
  unfold keysEqb. now destruct (list_eq_dec string_dec _ _).
Qed.

Lemma objGet_in (es : entries) :
  NoDup (keysOf es) ->
  forall k v, In (k, v) es -> objGet k es = Some v.
Proof.
  induction es as [| [k' v'] es IH]; intros Hnd k v Hin; [destruct Hin |].
  inversion Hnd as [| ? ? Hnotin Hnd']; subst.
  cbn [objGet]. destruct Hin as [E | Hin].
  - injection E as -> ->. now rewrite String.eqb_refl.
  - destruct (String.eqb_spec k' k) as [-> | Hneq].
    + exfalso. apply Hnotin. unfold keysOf. apply in_map_iff.
      now exists (k, v).
    + now apply IH.
Qed.

Lemma generateRow_row es :
  jsOrdered es -> generateRow (keysOf es) (VObj es) = rowText (VObj es).
Proof.
  intros Ho. apply jsOrdered_NoDup in Ho.
  unfold generateRow, rowText, keysOf. rewrite map_map. f_equal.
  apply map_ext_in. intros [k v] Hin. cbn [fst snd fieldOf].
  now rewrite (objGet_in es Ho k v Hin).
Qed.

Lemma table_text start rows :
  table rows ->
  join (str1 LF)
    ((start ++ ":" ++ generateHeader (firstEntries rows))
     :: map (generateRow (keysOf (firstEntries rows))) rows)
  = join (str1 LF) (tableLines start rows).
Proof.
  intros H. destruct (table_rows _ H) as (first & rest & -> & Hne & _ & Hrows).
  unfold tableLines. cbn [firstEntries hd]. f_equal. f_equal.
  inversion Hrows as [| ? ? Hfirst _]; subst.
  destruct Hfirst as (_ & Hcf & _).
  apply map_ext_Forall. revert Hrows. apply Forall_impl. intros r Hr.
  destruct r as [| | | | | es]; try (exact (False_ind _ Hr)).
  destruct Hr as (Hnes & Hc & _).
  rewrite (row_keys _ _ Hcf Hne), <- (row_keys _ _ Hc Hnes).
  apply generateRow_row. now apply (row_cells _ _ Hc Hnes).
Qed.

(** ** Header lines *)

Lemma split_snoc c s :
  exists l, l <> [] /\ split c (s ++ str1 c) = (l ++ [""])%list.
Proof.
  induction s as [| x s (l & Hl & IH)].
  - exists [""]. split; [discriminate |]. simpl. now rewrite Ascii.eqb_refl.
  - cbn [append split]. rewrite IH. destruct (x =? c)%char.
    + exists ("" :: l). split; [discriminate | reflexivity].
    + destruct l as [| h t]; [contradiction |].
      exists (String x h :: t). split; [discriminate | reflexivity].
Qed.

Lemma dropFinalColon_snoc s : dropFinalColon (s ++ ":") = s.
Proof.
  induction s as [| c s IH]; [reflexivity |].
  cbn [append dropFinalColon]. rewrite IH.
  destruct s; reflexivity.
Qed.

Lemma plainKey_edges k : plainKey k -> headOK k /\ lastOK k.
Proof. intros (Hne & Ht & _). now apply edges_of_trim. Qed.

Lemma header_lastOK es :
  es <> [] -> plainFields (fieldsOf (VObj es)) ->
  lastOK (headerFieldsOf (VObj es)).
Proof.
  induction es as [| [k v] es IH]; [contradiction |]. intros _ Hp.
  rewrite fieldsOf_cons in Hp. inversion Hp as [| ? ? Hf Hrest]; subst.
  apply plainField_fields in Hf. cbn [fst snd] in Hf. destruct Hf as [Hk _].
  rewrite headerFieldsOf_cons. cbn [fst snd].
  destruct es as [| kv es].
  - rewrite append_nil_r. destruct v as [| | | | | l];
      try (rewrite append_nil_r; now apply plainKey_edges).
    exists (k ++ "(" ++ headerFieldsOf (VObj l)), ")"%char.
    split; [now rewrite !append_assoc | reflexivity].
  - apply lastOK_app, lastOK_app, IH; [discriminate | assumption].
Qed.

Lemma header_headOK es :
  es <> [] -> plainFields (fieldsOf (VObj es)) ->
  headOK (headerFieldsOf (VObj es)).
Proof.
  destruct es as [| [k v] es]; [contradiction |]. intros _ Hp.
  rewrite fieldsOf_cons in Hp. inversion Hp as [| ? ? Hf Hrest]; subst.
  apply plainField_fields in Hf. cbn [fst snd] in Hf. destruct Hf as [Hk _].
  rewrite headerFieldsOf_cons. cbn [fst snd].
  apply headOK_app, headOK_app. now apply plainKey_edges.
Qed.

Lemma header_noLF v :
  plainFields (fieldsOf v) -> includes LF (headerFieldsOf v) = false.
Proof.
  induction v as [| b | m | s | items IH | es IH] using value_ind';
    try reflexivity.
  induction es as [| [k v] es IHes]; intros Hp; [reflexivity |].
  rewrite fieldsOf_cons in Hp. inversion Hp as [| ? ? Hf Hrest]; subst.
  apply plainField_fields in Hf. cbn [fst snd] in Hf. destruct Hf as [Hk Hv].
  inversion IH as [| ? ? IHv IHrest]; subst. cbn [snd] in IHv.
  specialize (IHes IHrest Hrest). specialize (IHv Hv).
  rewrite headerFieldsOf_cons. cbn [fst snd].
  rewrite !includes_app.
  destruct (plainKey_facts k Hk) as (_ & _ & _ & ->).
  assert (HG : includes LF match v with
                           | VObj _ => "(" ++ headerFieldsOf v ++ ")"
                           | _ => ""
                           end = false).
  { destruct v; try reflexivity.
    change ("(" ++ ?a ++ ")") with (String "(" (a ++ str1 ")")).
    now apply includes_group. }
  rewrite HG. destruct es as [| kv es]; [reflexivity |].
  change ("," ++ ?a) with (String "," a). cbn [includes].
  now rewrite IHes.
Qed.

Lemma parseFields_header first :
  first <> [] -> plainFields (fieldsOf (VObj first)) ->
  forall l n,
    parseFields (headerFieldsOf (VObj first)) l n = Ok (fieldsOf (VObj first)).
Proof.
  intros Hf Hp l n. unfold parseFields.
  destruct first as [| kv first]; [contradiction |].
  rewrite (headerFieldsOf_nonempty _ _ Hp).
  now rewrite (parseFieldsLoop_header _ Hp) by lia.
Qed.

(** The header line of a named table. *)
Lemma tableHeader_facts k first :
  sectionKey k -> first <> [] -> plainFields (fieldsOf (VObj first)) ->
  let h := headerFieldsOf (VObj first) in
  let line := k ++ ":" ++ h ++ ":" in
  trim line = line
  /\ isSkipped line = false
  /\ includes ":" line = true
  /\ isHeader line = true
  /\ includes LF line = false
  /\ (forall n, parseHeader line n = Ok (Some k, h))
  /\ (forall l n, parseFields h l n = Ok (fieldsOf (VObj first))).
Proof.
  intros (Hne & Ht & Hc & Hl & Hh) Hf Hp. cbv zeta.
  set (h := headerFieldsOf (VObj first)).
  destruct (edges_of_trim _ Hne Ht) as [Hhead Hlast].
  pose proof (header_headOK _ Hf Hp) as Hhh. fold h in Hhh.
  pose proof (header_lastOK _ Hf Hp) as Hhl. fold h in Hhl.
  pose proof (header_noLF _ Hp) as HhLF. fold h in HhLF.
  change (k ++ ":" ++ h ++ ":") with (k ++ String ":" (h ++ ":")).
  assert (E : trim (k ++ String ":" (h ++ ":")) = k ++ String ":" (h ++ ":")).
  { apply trim_edges; [now apply headOK_app |].
    exists (k ++ String ":" h), ":"%char.
    split; [now rewrite !append_assoc | reflexivity]. }
  split; [exact E |].
  destruct k as [| c k]; [contradiction |].
  assert (Hcolon : (c =? ":")%char = false).
  { simpl in Hc. now apply orb_false_elim in Hc. }
  split; [unfold isSkipped; simpl in *; now rewrite Hh |].
  split; [rewrite includes_app; simpl; apply orb_true_r |].
  split; [| split; [| split]].
  - unfold isHeader. rewrite E.
    change (startsWith ":" (String c k ++ String ":" (h ++ ":")))
      with (c =? ":")%char.
    rewrite Hcolon. rewrite (split_app _ _ _ Hc).
    destruct (split_snoc ":" h) as (l & Hlne & El).
    change (h ++ str1 ":") with (h ++ ":") in El. rewrite El.
    rewrite last_cons by (destruct l; discriminate).
    rewrite last_last. cbn [isEmpty]. rewrite andb_true_r.
    cbn [List.length]. rewrite length_app. cbn [List.length].
    apply Nat.leb_le. lia.
  - rewrite includes_app, Hl. cbn [includes orb].
    change ((":" =? LF)%char) with false. cbn [orb].
    rewrite includes_app, HhLF. reflexivity.
  - intros n. unfold parseHeader.
    change (startsWith ":" (String c k ++ String ":" (h ++ ":")))
      with (c =? ":")%char.
    rewrite Hcolon. rewrite (indexOf_key _ _ Hc).
    unfold substring. rewrite Nat.sub_0_r. cbn [drop]. rewrite take_all, Ht.
    replace (String.length (String c k) + 1)
      with (String.length (String c k ++ ":"))
      by (rewrite length_append; simpl; lia).
    replace (String c k ++ String ":" (h ++ ":"))
      with ((String c k ++ ":") ++ (h ++ ":"))
      by now rewrite append_assoc.
    rewrite drop_all, dropFinalColon_snoc.
    now rewrite (trim_edges _ Hhh Hhl).
  - now apply parseFields_header.
Qed.

(** ** Reading the rows of a table *)

Lemma sectionRows_rows fs rows rest :
  Forall (row fs) rows ->
  (forall j, sectionRows rest j = []) ->
  forall j,
    sectionRows (map rowText rows ++ rest) j
    = combine (seq j (List.length rows)) (map rowText rows).
Proof.
  intros Hrows Hrest. induction Hrows as [| r rows Hr Hrows IH]; intros j.
  - apply Hrest.
  - destruct (row_line _ _ Hr) as (Ht & Hs & Hh & _).
    cbn [map app sectionRows List.length seq combine].
    rewrite Ht, Hs, Hh. f_equal. apply IH.
Qed.

Lemma parseRows_rows fs rows :
  Forall (row fs) rows ->
  forall j acc,
    parseRows fs (combine (seq j (List.length rows)) (map rowText rows)) acc
    = Ok (acc ++ rows)%list.
Proof.
  intros Hrows. induction Hrows as [| r rows Hr Hrows IH]; intros j acc.
  - simpl. now rewrite app_nil_r.
  - cbn [map List.length seq combine parseRows].
    rewrite (row_parse _ _ j Hr). cbn [bind]. rewrite IH.
    now rewrite <- app_assoc.
Qed.

Lemma fieldsOf_nonempty first : first <> [] -> fieldsOf (VObj first) <> [].
Proof. destruct first; [contradiction | discriminate]. Qed.

Lemma skipn_app_length {A : Type} (pre : list A) n l :
  skipn (List.length pre + n) (pre ++ l)%list = skipn n l.
Proof.
  rewrite skipn_app, skipn_all2 by lia.
  now replace (List.length pre + n - List.length pre) with n by lia.
Qed.

Lemma nth_app_length {A : Type} (pre : list A) n l d :
  nth (List.length pre + n) (pre ++ l)%list d = nth n l d.
Proof.
  rewrite app_nth2 by lia.
  now replace (List.length pre + n - List.length pre) with n by lia.
Qed.

(** A table under a key, followed by lines that hold no data line of
    its section. *)
Lemma table_step pre k rows rest acc :
  let ls := (pre ++ tableLines k rows ++ rest)%list in
  reaches ls (List.length pre) acc ->
  sectionKey k -> table rows ->
  (forall j, sectionRows rest j = []) ->
  reaches ls (List.length pre + (List.length rows + 1))
    (objSet k (VArr rows) acc).
Proof.
  intros ls Hr Hk Htab Hrest.
  pose proof (table_wf _ Htab) as Hwf.
  destruct (table_rows _ Htab) as (first & others & E & Hne & Hp & Hrows).
  destruct (tableHeader_facts k first Hk Hne Hp)
    as (Ht & Hs & Hc & Hh & _ & Hparse & Hfields).
  set (i := List.length pre) in *.
  assert (Hhd : hd VNull rows = VObj first) by now rewrite E.
  assert (Hline : lineAt ls i = k ++ ":" ++ headerFieldsOf (VObj first) ++ ":").
  { unfold lineAt, ls, i. rewrite <- (Nat.add_0_r (List.length pre)).
    rewrite nth_app_length. unfold tableLines. cbn [app nth].
    now rewrite Hhd. }
  assert (Hskip : skipn (i + 1) ls = (map rowText rows ++ rest)%list).
  { unfold ls, i. now rewrite skipn_app_length. }
  assert (Hsec : sectionRows (skipn (i + 1) ls) (i + 1)
                 = combine (seq (i + 1) (List.length rows)) (map rowText rows)).
  { rewrite Hskip. now apply (sectionRows_rows (fieldsOf (VObj first))). }
  assert (Hcount : countDataLines (skipn (i + 1) ls) 0 = List.length rows).
  { rewrite (countDataLines_rows _ (i + 1)), Hsec.
    rewrite length_combine, length_seq, length_map. lia. }
  replace (VArr rows) with (toNative (createOrtValue (VArr rows))).
  2:{ assert (Hw : wf (VArr rows)) by (apply wf_arr; exact Hwf).
      rewrite (createOrtValue_id (VArr rows) Hw).
      exact (toNative_wf_id (VArr rows) Hw). }
  apply reach_section with (fields := fieldsOf (VObj first)).
  - exact Hr.
  - unfold ls, i. rewrite !length_app. unfold tableLines. simpl. lia.
  - unfold passedOver. now rewrite Hline, Hs, Hc.
  - unfold parseSection. fold (lineAt ls i). rewrite Hline, Hparse.
    cbn [bind snd fst]. rewrite Hfields. cbn [bind]. now rewrite Hcount.
  - rewrite <- Hcount.
    rewrite parseDataLines_rows by now apply fieldsOf_nonempty.
    rewrite Hsec, (parseRows_rows _ _ Hrows). reflexivity.
Qed.

(** ** Documents of sections *)

Lemma generateArrayContent_literal y ys :
  generateArrayContent (y :: ys) false = generateValue (VArr (y :: ys)) false.
Proof.
  rewrite generateValue_arr. unfold generateArrayContent.
  change ("[" ++ ?a ++ "]") with (String "[" (a ++ str1 "]")).
  f_equal. f_equal. f_equal. apply map_ext. intros v. apply generateValue_inline.
Qed.

Lemma trimEnd_lastOK s : lastOK s -> trimEnd s = s.
Proof. intros (a & c & -> & Hc). now apply trimEnd_snoc. Qed.

Lemma sectionValue_block k x :
  sectionValue x ->
  generateBlock k x = k ++ ":" ++ str1 LF ++ generateValue x false
  /\ match createOrtValue x with
     | VArr [] => k ++ ":" ++ str1 LF ++ "[]"
     | VArr items =>
         let arrList := map toNative (map createOrtValue items) in
         if isUniformObjectArray arrList
         then generateObjectArray k arrList
         else generateSimpleArray k arrList
     | _ => k ++ ":" ++ str1 LF ++ generateValue x false
     end = k ++ ":" ++ str1 LF ++ generateValue x false.
Proof.
  intros Hx. pose proof (sectionValue_line x Hx) as (_ & Hla & _).
  destruct Hx as (Hl & Hn & Hx).
  pose proof (literal_wf _ Hl) as Hw.
  unfold generateBlock. rewrite (createOrtValue_id _ Hw).
  destruct x as [| b | n | s | items | es]; try (split; reflexivity).
  destruct items as [| y ys]; [split; reflexivity |].
  apply wf_arr in Hw. cbv zeta. rewrite (map_copy_id _ Hw), Hx.
  unfold generateSimpleArray. rewrite generateArrayContent_literal.
  split; [| reflexivity].
  apply trimEnd_lastOK. now apply lastOK_app, lastOK_app, lastOK_app.
Qed.

Lemma split_LF_cons b : split LF (String LF b) = "" :: split LF b.
Proof. reflexivity. Qed.

Lemma sectionKey_noLF k : sectionKey k -> includes LF (k ++ ":") = false.
Proof.
  intros (_ & _ & _ & H & _). rewrite includes_app, H. reflexivity.
Qed.

Lemma skipn_nth_error {A : Type} (l : list A) n x :
  nth_error l n = Some x -> skipn n l = x :: skipn (S n) l.
Proof.
  revert n. induction l as [| y l IH]; intros [| n]; simpl; try discriminate.
  - intros H. now injection H as ->.
  - apply IH.
Qed.

Lemma lineAt_nth_error ls i s :
  nth_error ls i = Some s -> lineAt ls i = trim s.
Proof. intros H. unfold lineAt. now rewrite (nth_error_nth _ _ _ H). Qed.

(** One section: the header [k:] with the literal form of [x] on the
    next line, and no other data line before the next header. *)
Lemma section_step ls i acc k x :
  reaches ls i acc ->
  nth_error ls i = Some (k ++ ":") ->
  nth_error ls (S i) = Some (generateValue x false) ->
  countDataLines (skipn (i + 2) ls) 1 = 1 ->
  sectionKey k -> sectionValue x ->
  reaches ls (i + (1 + 1)) (objSet k (toNative x) acc).
Proof.
  intros Hr Hi Hi1 Hcount Hk Hx.
  destruct (sectionKey_facts k Hk) as (Kt & Ks & Kc & Kh & Kp).
  pose proof (sectionValue_line x Hx) as (Hh & Hla & _ & L1 & L2 & L3).
  pose proof (trim_edges _ Hh Hla) as Ht.
  assert (Hline : lineAt ls i = k ++ ":")
    by (rewrite (lineAt_nth_error _ _ _ Hi); exact Kt).
  assert (Hskip : skipn (i + 1) ls = generateValue x false :: skipn (i + 2) ls).
  { replace (i + 1) with (S i) by lia. replace (i + 2) with (S (S i)) by lia.
    now apply skipn_nth_error. }
  assert (Hdata : isSkipped (generateValue x false) = false).
  { unfold isSkipped. rewrite L1.
    destruct (generateValue x false); [contradiction | reflexivity]. }
  eapply reach_section with (fields := []).
  - exact Hr.
  - apply nth_error_Some. congruence.
  - unfold passedOver. now rewrite Hline, Ks, Kc.
  - unfold parseSection. fold (lineAt ls i). rewrite Hline, Kp. cbn [bind snd fst].
    cbn [parseFields isEmpty]. cbn [bind]. do 2 f_equal.
    rewrite Hskip. cbn [countDataLines]. rewrite Ht, Hdata.
    rewrite (isHeader_false _ Ht L2 L3), andb_false_r. exact Hcount.
  - unfold parseDataLines. rewrite Hskip. cbn [parseDataLinesLoop].
    cbn [Nat.leb]. rewrite Ht, Hdata. cbn [List.length Nat.eqb].
    apply parseValue_literal. apply Hx.
Qed.

Lemma reaches_end ls r :
  reaches ls (List.length ls) r ->
  parseOrtLoop (S (List.length ls)) ls 0 [] = Ok (createOrtValue (VObj r)).
Proof.
  intros H. destruct (reaches_run _ _ _ H) as (fuel & Hf & ->).
  destruct fuel as [| fuel]; [lia |]. simpl. now rewrite Nat.leb_refl.
Qed.

Lemma literal_step pre k x rest acc :
  let ls := (pre ++ [(k ++ ":")%string; generateValue x false] ++ rest)%list in
  reaches ls (List.length pre) acc ->
  sectionKey k -> sectionValue x ->
  (forall j, sectionRows rest j = []) ->
  reaches ls (List.length pre + (1 + 1)) (objSet k x acc).
Proof.
  intros ls Hr Hk Hx Hrest.
  rewrite <- (toNative_wf_id x) by (apply literal_wf, Hx).
  apply section_step; try assumption.
  - unfold ls. now rewrite nth_error_app2, Nat.sub_diag by lia.
  - unfold ls. rewrite nth_error_app2 by lia.
    now replace (S (List.length pre) - List.length pre) with 1 by lia.
  - unfold ls. rewrite skipn_app_length. cbn [skipn app].
    rewrite (countDataLines_rows _ 0), Hrest. reflexivity.
Qed.

Lemma blockLines_literal k x :
  sectionValue x -> blockLines k x = [k ++ ":"; generateValue x false].
Proof.
  intros (_ & _ & Hx). destruct x as [| | | | items |]; try reflexivity.
  unfold blockLines. now rewrite Hx.
Qed.

Lemma blockLines_table k rows :
  table rows -> blockLines k (VArr rows) = tableLines k rows.
Proof. intros H. unfold blockLines. now rewrite (table_uniform _ H). Qed.

Lemma section_inv x :
  section x -> sectionValue x \/ exists rows, x = VArr rows /\ table rows.
Proof.
  destruct x as [| | | | rows |]; try (now left).
  intros [H | H]; [now left | right; now exists rows].
Qed.

(** One block of a document. *)
Lemma block_step pre k x rest acc :
  let ls := (pre ++ blockLines k x ++ rest)%list in
  reaches ls (List.length pre) acc ->
  sectionKey k -> section x ->
  (forall j, sectionRows rest j = []) ->
  reaches ls (List.length pre + List.length (blockLines k x)) (objSet k x acc).
Proof.
  intros ls Hr Hk Hx Hrest. subst ls.
  destruct (section_inv _ Hx) as [Hv | (rows & -> & Ht)].
  - rewrite (blockLines_literal k x Hv) in *. now apply literal_step.
  - rewrite (blockLines_table k rows Ht) in *.
    replace (List.length (tableLines k rows)) with (List.length rows + 1)
      by (unfold tableLines; simpl; rewrite length_map; lia).
    now apply table_step.
Qed.

(** The first line of a block is a header. *)
Lemma blockLines_header k x :
  sectionKey k -> section x ->
  exists hdr tl,
    blockLines k x = hdr :: tl
    /\ trim hdr = hdr /\ isSkipped hdr = false
    /\ includes ":" hdr = true /\ isHeader hdr = true.
Proof.
  intros Hk Hx. destruct (section_inv _ Hx) as [Hv | (rows & -> & Ht)].
  - rewrite (blockLines_literal k x Hv).
    destruct (sectionKey_facts k Hk) as (H1 & H2 & H3 & H4 & _).
    eexists _, _. split; [reflexivity | auto].
  - rewrite (blockLines_table k rows Ht).
    destruct (table_rows _ Ht) as (first & others & -> & Hne & Hp & _).
    destruct (tableHeader_facts k first Hk Hne Hp) as (H1 & H2 & H3 & H4 & _).
    eexists _, _. split; [reflexivity | auto].
Qed.

Lemma document_stops es :
  Forall (fun kv => sectionKey (fst kv) /\ section (snd kv)) es ->
  forall j, sectionRows ("" :: documentLines es) j = [].
Proof.
  intros H j. cbn [sectionRows]. change (isSkipped (trim "")) with true.
  cbv iota. destruct H as [| [k x] es [Hk Hx] Hes]; [reflexivity |].
  cbn [documentLines flat_map fst snd].
  destruct (blockLines_header k x Hk Hx) as (hdr & tl & -> & H1 & H2 & H3 & H4).
  cbn [app sectionRows]. now rewrite H1, H2, H3, H4.
Qed.

Lemma document_reach es :
  forall pre acc,
    Forall (fun kv => sectionKey (fst kv) /\ section (snd kv)) es ->
    reaches (pre ++ documentLines es) (List.length pre) acc ->
    reaches (pre ++ documentLines es) (List.length (pre ++ documentLines es))
      (fold_left (fun a kv => objSet (fst kv) (snd kv) a) es acc).
Proof.
  induction es as [| [k x] es IH]; intros pre acc H Hr.
  - simpl. now rewrite app_nil_r in *.
  - inversion H as [| ? ? [Hk Hx] Hes]; subst. cbn [fst snd] in *.
    cbn [documentLines flat_map fst snd] in *. fold (documentLines es) in *.
    set (b := blockLines k x) in *.
    assert (E1 : (pre ++ (b ++ [""]) ++ documentLines es
                  = pre ++ b ++ "" :: documentLines es)%list)
      by now rewrite <- app_assoc.
    assert (E2 : (pre ++ (b ++ [""]) ++ documentLines es
                  = (pre ++ b ++ [""]) ++ documentLines es)%list)
      by now rewrite !app_assoc.
    pose proof (block_step pre k x ("" :: documentLines es) acc) as Hstep.
    cbv zeta in Hstep. fold b in Hstep. rewrite <- E1 in Hstep.
    specialize (Hstep Hr Hk Hx (document_stops es Hes)).
    set (ls := (pre ++ (b ++ [""]) ++ documentLines es)%list) in *.
    assert (Hpass : reaches ls (S (List.length pre + List.length b))
                      (objSet k x acc)).
    { apply reach_pass; [exact Hstep | |].
      - unfold ls. rewrite !length_app. simpl. lia.
      - unfold passedOver, lineAt. rewrite E1.
        rewrite app_nth2 by lia. rewrite app_nth2 by lia.
        now replace (List.length pre + List.length b - List.length pre
                     - List.length b) with 0 by lia. }
    cbn [fold_left fst snd]. subst ls. rewrite E2 in *.
    apply IH; [assumption |].
    rewrite !length_app. simpl List.length.
    replace (List.length pre + (List.length b + 1))
      with (S (List.length pre + List.length b)) by lia.
    exact Hpass.
Qed.

(** ** The text of a document *)

Lemma split_join_app ls rest :
  ls <> [] -> Forall (fun l => includes LF l = false) ls ->
  split LF (join (str1 LF) ls ++ String LF rest) = (ls ++ split LF rest)%list.
Proof.
  intros Hne H. induction H as [| a ls Ha Hls IH]; [contradiction |].
  destruct ls as [| b ls].
  - cbn [join String.concat app]. now apply split_app.
  - rewrite join_cons, !append_assoc.
    change (str1 LF ++ ?x) with (String LF x).
    rewrite (split_app _ _ _ Ha). cbn [app]. f_equal. apply IH. discriminate.
Qed.

Lemma split_join ls :
  ls <> [] -> Forall (fun l => includes LF l = false) ls ->
  split LF (join (str1 LF) ls) = ls.
Proof.
  intros Hne H. induction H as [| a ls Ha Hls IH]; [contradiction |].
  destruct ls as [| b ls].
  - cbn [join String.concat]. now apply split_none.
  - rewrite join_cons. change (str1 LF ++ ?x) with (String LF x).
    rewrite (split_app _ _ _ Ha). f_equal. apply IH. discriminate.
Qed.

Lemma table_noLF start rows :
  includes LF start = false -> table rows ->
  Forall (fun l => includes LF l = false) (tableLines start rows).
Proof.
  intros Hs Ht.
  destruct (table_rows _ Ht) as (first & others & E & Hne & Hp & Hrows).
  unfold tableLines. constructor.
  - rewrite E. cbn [hd]. rewrite !includes_app, Hs.
    rewrite (header_noLF _ Hp). reflexivity.
  - rewrite Forall_map. revert Hrows. apply Forall_impl. intros r Hr.
    now apply (row_line _ _ Hr).
Qed.

Lemma table_lastOK start rows :
  table rows -> lastOK (join (str1 LF) (tableLines start rows)).
Proof.
  intros Ht.
  destruct (table_rows _ Ht) as (first & others & E & Hne & Hp & Hrows).
  apply lastOK_join. unfold tableLines.
  assert (Hr : rows <> []) by (rewrite E; discriminate).
  rewrite last_cons by (destruct rows; [contradiction | discriminate]).
  change "" with (rowText VNull). rewrite last_map by assumption.
  assert (Hin : In (last rows VNull) rows) by now apply last_In.
  rewrite Forall_forall in Hrows. now apply (row_line _ _ (Hrows _ Hin)).
Qed.

Lemma blockLines_noLF k x :
  sectionKey k -> section x ->
  Forall (fun l => includes LF l = false) (blockLines k x).
Proof.
  intros Hk Hx. destruct (section_inv _ Hx) as [Hv | (rows & -> & Ht)].
  - rewrite (blockLines_literal k x Hv).
    constructor; [now apply sectionKey_noLF |].
    constructor; [| constructor]. now apply (sectionValue_line x Hv).
  - rewrite (blockLines_table k rows Ht). apply table_noLF; [| assumption].
    apply Hk.
Qed.

Lemma blockLines_nonempty k x : blockLines k x <> [].
Proof.
  unfold blockLines. destruct x as [| | | | rows |]; try discriminate.
  destruct (isUniformObjectArray rows); discriminate.
Qed.

Lemma block_text k x :
  sectionKey k -> section x ->
  generateBlock k x = join (str1 LF) (blockLines k x)
  /\ match createOrtValue x with
     | VArr [] => k ++ ":" ++ str1 LF ++ "[]"
     | VArr items =>
         let arrList := map toNative (map createOrtValue items) in
         if isUniformObjectArray arrList
         then generateObjectArray k arrList
         else generateSimpleArray k arrList
     | _ => k ++ ":" ++ str1 LF ++ generateValue x false
     end = join (str1 LF) (blockLines k x).
Proof.
  intros Hk Hx. destruct (section_inv _ Hx) as [Hv | (rows & -> & Ht)].
  - rewrite (blockLines_literal k x Hv).
    destruct (sectionValue_block k x Hv) as [-> ->].
    cbn [join String.concat]. now rewrite append_assoc.
  - rewrite (blockLines_table k rows Ht).
    pose proof (table_wf _ Ht) as Hwf.
    assert (Hw : wf (VArr rows)) by now apply wf_arr.
    unfold generateBlock. rewrite (createOrtValue_id _ Hw).
    destruct rows as [| r rows]; [destruct Ht |].
    cbv zeta. rewrite (map_copy_id _ Hwf), (table_uniform _ Ht).
    change (generateObjectArray k (r :: rows))
      with (join (str1 LF)
              ((k ++ ":" ++ generateHeader (firstEntries (r :: rows)))
               :: map (generateRow (keysOf (firstEntries (r :: rows))))
                    (r :: rows))).
    rewrite (table_text k _ Ht). split; [| reflexivity].
    apply trimEnd_lastOK. now apply table_lastOK.
Qed.

Lemma split_generateMultiObject es :
  es <> [] ->
  Forall (fun kv => sectionKey (fst kv) /\ section (snd kv)) es ->
  split LF (generateMultiObject es) = documentLines es.
Proof.
  intros Hne H. induction H as [| [k x] es [Hk Hx] Hes IH]; [contradiction |].
  cbn [fst snd] in *. cbn [documentLines flat_map fst snd].
  fold (documentLines es).
  pose proof (blockLines_noLF k x Hk Hx) as HLF.
  pose proof (blockLines_nonempty k x) as Hb.
  destruct es as [| kv es].
  - cbn [generateMultiObject documentLines flat_map].
    rewrite (proj1 (block_text k x Hk Hx)).
    change (str1 LF) with (String LF "") at 2.
    rewrite (split_join_app _ "" Hb HLF). now rewrite app_nil_r.
  - change (generateMultiObject ((k, x) :: kv :: es))
      with (generateBlock k x ++ str1 LF ++ str1 LF
            ++ generateMultiObject (kv :: es)).
    rewrite (proj1 (block_text k x Hk Hx)).
    change (str1 LF ++ str1 LF ++ ?t) with (String LF (String LF t)).
    rewrite (split_join_app _ _ Hb HLF), split_LF_cons.
    rewrite IH by discriminate. now rewrite <- app_assoc.
Qed.

Lemma document_wf es :
  jsOrdered es ->
  Forall (fun kv => sectionKey (fst kv) /\ section (snd kv)) es ->
  wf (VObj es).
Proof.
  intros Ho H. apply wf_obj. split; [assumption |].
  revert H. apply Forall_impl. intros kv [_ Hx].
  destruct (section_inv _ Hx) as [Hv | (rows & E & Ht)].
  - apply literal_wf, Hv.
  - rewrite E. apply wf_arr. now apply table_wf.
Qed.

(** ** Round trip *)

Lemma object_round_trip es :
  jsOrdered es ->
  Forall (fun kv => sectionKey (fst kv) /\ section (snd kv)) es ->
  parseOrt (generateOrt (VObj es)) = Ok (VObj es).
Proof.
  intros Ho H. pose proof (document_wf es Ho H) as Hw.
  destruct es as [| [k x] [| kv es]].
  - reflexivity.
  - inversion H as [| ? ? [Hk Hx] _]; subst. cbn [fst snd] in *.
    assert (E : generateOrt (VObj [(k, x)]) = join (str1 LF) (blockLines k x)).
    { unfold generateOrt. rewrite (toNative_wf_id _ Hw).
      exact (proj2 (block_text k x Hk Hx)). }
    rewrite E. unfold parseOrt. cbv zeta.
    rewrite (split_join _ (blockLines_nonempty k x) (blockLines_noLF k x Hk Hx)).
    pose proof (block_step [] k x [] [] (reach_start _) Hk Hx
                  (fun _ => eq_refl)) as Hr.
    cbn [app List.length Nat.add] in Hr. rewrite app_nil_r in Hr.
    rewrite (reaches_end _ _ Hr).
    rewrite (objSet_last k x []) by exact Ho.
    cbn [app]. now rewrite (createOrtValue_id _ Hw).
  - set (es' := (k, x) :: kv :: es) in *.
    assert (E : generateOrt (VObj es') = generateMultiObject es').
    { unfold generateOrt. now rewrite (toNative_wf_id _ Hw). }
    rewrite E. unfold parseOrt. cbv zeta.
    rewrite (split_generateMultiObject es') by (assumption || discriminate).
    pose proof (document_reach es' [] [] H (reach_start _)) as Hr.
    cbn [app] in Hr. rewrite (reaches_end _ _ Hr).
    rewrite fold_objSet_ordered by exact Ho.
    cbn [app]. now rewrite (createOrtValue_id _ Hw).
Qed.

Lemma array_round_trip rows :
  table rows -> 2 <= List.length rows ->
  parseOrt (generateOrt (VArr rows)) = Ok (VArr rows).
Proof.
  intros Ht Hlen. pose proof (table_wf _ Ht) as Hwf.
  destruct (table_rows _ Ht) as (first & others & E & Hne & Hp & Hrows).
  assert (Etext : generateOrt (VArr rows)
                  = join (str1 LF) (tableLines "" rows)).
  { unfold generateOrt. cbv zeta.
    rewrite (map_copy_id _ Hwf), (table_uniform _ Ht).
    rewrite <- (table_text "" rows Ht). rewrite E. reflexivity. }
  assert (Hls : split LF (generateOrt (VArr rows)) = tableLines "" rows).
  { rewrite Etext. apply split_join; [discriminate |].
    now apply table_noLF. }
  set (h := headerFieldsOf (VObj first)).
  assert (Hline : lineAt (tableLines "" rows) 0 = String ":" (h ++ ":")).
  { unfold lineAt, tableLines. rewrite E. cbn [nth hd app append]. fold h.
    apply trim_edges; [reflexivity |].
    exists (String ":" h), ":"%char. split; reflexivity. }
  unfold parseOrt. cbv zeta. rewrite Hls.
  rewrite (anonymous_header_returns (tableLines "" rows) 0 []
             (fieldsOf (VObj first)) rows).
  - destruct rows as [| x [| x' rows]]; simpl in Hlen; try lia. reflexivity.
  - apply reach_start.
  - unfold tableLines. simpl. lia.
  - now rewrite Hline.
  - rewrite Hline. cbn [drop]. rewrite dropFinalColon_snoc.
    now apply parseFields_header.
  - now apply fieldsOf_nonempty.
  - unfold tableLines. cbn [skipn Nat.add].
    rewrite <- (app_nil_r (map rowText rows)).
    rewrite (sectionRows_rows (fieldsOf (VObj first)) rows [] Hrows
               (fun _ => eq_refl)).
    now rewrite (parseRows_rows _ _ Hrows).
Qed.

(** C1.  For every document [v], [parse (generate v)] returns [v].  A
    document is an object whose keys can head a section and whose
    values are literal section values or tables, or it is a table of two
    rows or more.  An array of objects that have the keys of the first
    one in the same order goes through the tabular form; an array of
    objects with different key sets goes through the literal form. *)
Theorem document_round_trip (v : value) :
  document v -> parse (generate v) = Ok v.
Proof.
  intros Hd. unfold parse, generate.
  destruct v as [| | | | rows | es]; try (exact (False_ind _ Hd)).
  - destruct Hd as [Ht Hlen].
    rewrite (createOrtValue_id (VArr rows))
      by (apply wf_arr; now apply table_wf).
    now apply array_round_trip.
  - destruct Hd as [Ho H].
    rewrite (createOrtValue_id (VObj es)) by now apply document_wf.
    now apply object_round_trip.
Qed.

Lemma document_round_trip_witness :
  parse (generate
    (VObj [("users",
            VArr [VObj [("id", VNum (Dec 1 0)); ("name", VStr "Ann");
                        ("pos", VObj [("x", VNum (Dec 2 0)); ("y", VNull)])];
                  VObj [("id", VNum (Dec 2 0)); ("name", VStr "Bob, Jr");
                        ("pos", VNull)]]);
           ("mixed", VArr [VObj [("a", VBool true)]; VObj [("b", VArr [VNull; VStr "x"])]]);
           ("note", VStr "hi there")]))
  = Ok (VObj [("users",
               VArr [VObj [("id", VNum (Dec 1 0)); ("name", VStr "Ann");
                           ("pos", VObj [("x", VNum (Dec 2 0)); ("y", VNull)])];
                     VObj [("id", VNum (Dec 2 0)); ("name", VStr "Bob, Jr");
                           ("pos", VNull)]]);
              ("mixed", VArr [VObj [("a", VBool true)]; VObj [("b", VArr [VNull; VStr "x"])]]);
              ("note", VStr "hi there")]).
Proof.
  apply (document_round_trip
    (VObj [("users",
            VArr [VObj [("id", VNum (Dec 1 0)); ("name", VStr "Ann");
                        ("pos", VObj [("x", VNum (Dec 2 0)); ("y", VNull)])];
                  VObj [("id", VNum (Dec 2 0)); ("name", VStr "Bob, Jr");
                        ("pos", VNull)]]);
           ("mixed", VArr [VObj [("a", VBool true)]; VObj [("b", VArr [VNull; VStr "x"])]]);
           ("note", VStr "hi there")])).
  split.
  - simpl; repeat split; try discriminate; repeat constructor;
      simpl; intuition discriminate.
  - constructor; [| constructor; [| constructor; [| constructor]]].
    + split; [repeat split; discriminate |]. right. split.
      * repeat constructor; discriminate.
      * repeat constructor; simpl; try discriminate; try reflexivity;
          repeat split; try discriminate; try reflexivity;
          repeat constructor; simpl; intuition discriminate.
    + split; [repeat split; discriminate |]. left.
      repeat constructor; simpl; try discriminate; try reflexivity;
        repeat split; try discriminate; try reflexivity;
        repeat constructor; simpl; intuition discriminate.
    + split; [repeat split; discriminate |].
      repeat constructor; simpl; try discriminate; try reflexivity.
Defined.

(** C1 as stated does not hold: a top-level string comes back as the
    empty object; a string that reads as a number comes back as that
    number; a top-level array of objects with different keys comes back
    empty; a top-level array of one object comes back as the object; a
    table whose only column holds [null] loses its row. *)
Lemma round_trip_fails :
  parse (generate (VStr "hello")) = Ok (VObj [])
  /\ parse (generate (VObj [("k", VStr "12")]))
     = Ok (VObj [("k", VNum (Dec 12 0))])
  /\ parse (generate (VArr [VObj [("a", VNum (Dec 1 0))];
                            VObj [("b", VNum (Dec 1 0))]]))
     = Ok (VArr [])
  /\ parse (generate (VArr [VObj [("id", VNum (Dec 1 0))]]))
     = Ok (VObj [("id", VNum (Dec 1 0))])
  /\ parse (generate (VObj [("t", VArr [VObj [("a", VNull)]])]))
     = Ok (VObj [("t", VArr [])]).
Proof. repeat split; vm_compute; reflexivity. Qed.

(** * Further properties of the parser, the generator and the store *)

(** ** Splitting a row loses nothing *)

Lemma scanChar_cut ch e d b : scanChar ch e d b = Cut -> ch = ","%char /\ e = false.
Proof.
  unfold scanChar. destruct e; [discriminate |].
  destruct (ch =? BACKSLASH)%char; [discriminate |].
  destruct (ch =? "(")%char; [discriminate |].
  destruct (ch =? ")")%char; [discriminate |].
  destruct (ch =? "[")%char; [discriminate |].
  destruct (ch =? "]")%char; [discriminate |].
  destruct (Ascii.eqb_spec ch ","); [| discriminate].
  intros _. auto.
Qed.

Lemma join_last_piece values current rest :
  join "," ((values ++ [current]) ++ [rest])%list
  = join "," (values ++ [(current ++ String "," rest)%string])%list.
Proof.
  rewrite join_snoc by (destruct values; discriminate).
  destruct values as [| v values].
  - reflexivity.
  - rewrite !join_snoc by discriminate. now rewrite !append_assoc.
Qed.

Lemma parseDataValuesLoop_lossless chars :
  forall values current e d b,
    join "," (parseDataValuesLoop chars values current e d b)
    = join "," (values ++ [(current ++ chars)%string])%list.
Proof.
  induction chars as [| ch rest IH]; intros values current e d b.
  - cbn [parseDataValuesLoop]. now rewrite append_nil_r.
  - cbn [parseDataValuesLoop].
    destruct (scanChar ch e d b) as [e' d' b' |] eqn:E.
    + rewrite IH. now rewrite append_snoc.
    + destruct (scanChar_cut _ _ _ _ E) as [-> _].
      rewrite IH. cbn [append]. apply join_last_piece.
Qed.

Lemma parseDataValuesLoop_nonempty chars :
  forall values current e d b,
    parseDataValuesLoop chars values current e d b <> [].
Proof.
  induction chars as [| ch rest IH]; intros values current e d b.
  - cbn [parseDataValuesLoop]. destruct values; discriminate.
  - cbn [parseDataValuesLoop]. destruct (scanChar ch e d b); apply IH.
Qed.

(** X1.  [parseDataValues] cuts a line at commas and nowhere else, and
    drops nothing: putting the commas back between the pieces gives the
    line again.  There is always a piece, for the empty line the empty
    one. *)
Theorem parseDataValues_lossless :
  forall line : string,
    join "," (parseDataValues line) = line
    /\ parseDataValues line <> []
    /\ parseDataValues "" = [""].
Proof.
  intros line. split; [| split].
  - unfold parseDataValues. now rewrite parseDataValuesLoop_lossless.
  - apply parseDataValuesLoop_nonempty.
  - reflexivity.
Qed.

(** X2.  A row of strings written with [escape] and commas is split at
    the joining commas only, whatever the strings hold, and [unescape]
    gives each string back. *)
Theorem escaped_row_round_trip :
  forall ss : list string,
    ss <> [] ->
    parseDataValues (join "," (map escape ss)) = map escape ss
    /\ map unescape (parseDataValues (join "," (map escape ss))) = ss.
Proof.
  intros ss Hne.
  assert (E : parseDataValues (join "," (map escape ss)) = map escape ss).
  { apply parseDataValues_join.
    - destruct ss; [contradiction | discriminate].
    - apply Forall_map. apply Forall_forall. intros s _. apply nested_escaped. }
  split; [exact E |]. rewrite E, map_map.
  rewrite <- (map_id ss) at 2. apply map_ext. apply unescape_escaped.
Qed.

Lemma escaped_row_round_trip_witness :
  map unescape (parseDataValues (join "," (map escape ["a,b"; "(x"; "c\d]"])))
  = ["a,b"; "(x"; "c\d]"].
Proof.
  apply (escaped_row_round_trip ["a,b"; "(x"; "c\d]"]). discriminate.
Defined.

(** ** What a string comes back as *)

(** X3.  A string written by [generateValue] and read by [parseValue]
    comes back as itself only when it reads neither as a number nor as a
    boolean.  The empty string comes back as [null].  A string without
    white space at the ends of its escaped text comes back as a number,
    not as a string, when [Number] reads a number in it; when [Number]
    gives [NaN] for it, it comes back as a boolean if it is [true] or
    [false], and as itself otherwise. *)
Theorem string_read_back :
  (forall i, parseValue (generateValue (VStr "") i) = Ok VNull)
  /\ forall (s : string) (i : bool),
       s <> "" -> trim (escape s) = escape s ->
       (isNaN (Number s) = false ->
        exists n, isNaN n = false
                  /\ parseValue (generateValue (VStr s) i) = Ok (VNum n))
       /\ (isNaN (Number s) = true ->
           parseValue (generateValue (VStr s) i)
           = Ok (if (s =? "true")%string then VBool true
                 else if (s =? "false")%string then VBool false
                 else VStr s)).
Proof.
  split; [reflexivity |]. intros s i Hne Ht.
  cbn [generateValue]. unfold parseValue. cbn [parseValueF].
  pose proof (escape_nonempty s Hne) as Hne'.
  destruct (edges_of_trim _ Hne' Ht) as [Hh Hl].
  rewrite parseValueBody_scalar;
    [| assumption | assumption
     | now apply startsWith_escape | now apply startsWith_escape].
  unfold parseScalar. rewrite unescape_escaped. cbv zeta.
  split; intros Hn; rewrite Hn; cbn [negb].
  - exists (Number s). now split.
  - destruct (s =? "true")%string; [reflexivity |].
    destruct (s =? "false")%string; reflexivity.
Qed.

Lemma string_read_back_witness :
  (exists n, isNaN n = false
             /\ parseValue (generateValue (VStr "1e3") true) = Ok (VNum n))
  /\ parseValue (generateValue (VStr "true") false) = Ok (VBool true)
  /\ parseValue (generateValue (VStr "a,b") true) = Ok (VStr "a,b").
Proof.
  split; [| split].
  - apply (proj2 string_read_back "1e3" true);
      [discriminate | reflexivity | reflexivity].
  - apply (proj2 string_read_back "true" false);
      [discriminate | reflexivity | reflexivity].
  - apply (proj2 string_read_back "a,b" true);
      [discriminate | reflexivity | reflexivity].
Defined.

(** ** [parseValue] always returns *)

Lemma length_take_le n s : String.length (take n s) <= String.length s.
Proof.
  revert n. induction s as [| c s IH]; intros [| n]; simpl; try lia.
  specialize (IH n). lia.
Qed.

Lemma length_drop_le n s : String.length (drop n s) <= String.length s.
Proof.
  revert n. induction s as [| c s IH]; intros [| n]; simpl; try lia.
  specialize (IH n). lia.
Qed.

Lemma endsWith_length a b t :
  startsWith a t = true -> endsWith b t = true -> a <> b ->
  2 <= String.length t.
Proof.
  destruct t as [| c [| c' t]]; simpl; try discriminate; [| lia].
  intros H1 H2 Hab. apply Ascii.eqb_eq in H1, H2. congruence.
Qed.

Lemma length_inner t :
  2 <= String.length t -> String.length (inner t) + 2 <= String.length t.
Proof.
  intros H. unfold inner, substring.
  destruct t as [| c t]; [simpl in H; lia |]. cbn [drop String.length] in *.
  pose proof (length_take_le (S (String.length t) - 1 - 1) t).
  assert (String.length (take (S (String.length t) - 1 - 1) t)
          <= S (String.length t) - 1 - 1).
  { generalize (S (String.length t) - 1 - 1) as n. clear.
    induction t as [| c t IH]; intros [| n]; simpl; try lia.
    specialize (IH n). lia. }
  lia.
Qed.

Section Total.

Variable rec : string -> outcome value.

Lemma parseArrayLoop_total chars :
  forall result current e d b,
    (forall t, String.length t <= String.length current + String.length chars ->
               exists v, rec t = Ok v) ->
    exists v, parseArrayLoop rec chars result current e d b = Ok v.
Proof.
  induction chars as [| ch rest IH]; intros result current e d b Hrec.
  - cbn [parseArrayLoop]. destruct (isEmpty (trim current)); [eauto |].
    destruct (Hrec (trim current)) as [v ->]; [| cbn [bind]; eauto].
    pose proof (trim_length current). simpl. lia.
  - cbn [parseArrayLoop]. destruct (scanChar ch e d b) as [e' d' b' |].
    + apply IH. intros t Ht. apply Hrec.
      rewrite length_snoc in Ht. simpl. lia.
    + destruct (Hrec current) as [v ->]; [simpl; lia |]. cbn [bind].
      apply IH. intros t Ht. apply Hrec. simpl in *. lia.
Qed.

Lemma splitPairsLoop_lengths bound chars :
  forall pairs current e d b,
    Forall (fun p => String.length p <= bound) pairs ->
    String.length current + String.length chars <= bound ->
    Forall (fun p => String.length p <= bound)
      (splitPairsLoop chars pairs current e d b).
Proof.
  induction chars as [| ch rest IH]; intros pairs current e d b Hp Hb.
  - cbn [splitPairsLoop]. destruct (isEmpty (trim current)); [assumption |].
    apply Forall_app. split; [assumption |]. constructor; [| constructor].
    pose proof (trim_length current). simpl in Hb. lia.
  - cbn [splitPairsLoop]. destruct (scanChar ch e d b) as [e' d' b' |].
    + apply IH; [assumption |]. rewrite length_snoc. simpl in Hb. lia.
    + apply IH.
      * apply Forall_app. split; [assumption |]. constructor; [| constructor].
        simpl in Hb. lia.
      * simpl in *. lia.
Qed.

Lemma parsePairs_total pairs :
  forall obj,
    (forall p t, In p pairs -> String.length t <= String.length p ->
                 exists v, rec t = Ok v) ->
    exists v, parsePairs rec pairs obj = Ok v.
Proof.
  induction pairs as [| pr pairs IH]; intros obj Hrec.
  - cbn [parsePairs]. eauto.
  - cbn [parsePairs]. destruct (indexOf ":" pr) as [colonIndex |].
    + destruct (Hrec pr (trim (drop (colonIndex + 1) pr))) as [v ->].
      * now left.
      * pose proof (trim_length (drop (colonIndex + 1) pr)).
        pose proof (length_drop_le (colonIndex + 1) pr). lia.
      * cbn [bind]. apply IH. intros p t Hin. apply Hrec. now right.
    + apply IH. intros p t Hin. apply Hrec. now right.
Qed.

Lemma parseValueBody_total s :
  (forall t, String.length t + 2 <= String.length s -> exists v, rec t = Ok v) ->
  exists v, parseValueBody rec s = Ok v.
Proof.
  intros Hrec. unfold parseValueBody. cbv zeta.
  pose proof (trim_length s) as Hlen.
  destruct (isEmpty (trim s)); [eauto |].
  destruct (trim s =? "[]")%string; [eauto |].
  destruct (trim s =? "()")%string; [eauto |].
  destruct (startsWith "[" (trim s) && endsWith "]" (trim s)) eqn:Ea.
  - apply andb_true_iff in Ea. destruct Ea as [E1 E2].
    pose proof (length_inner _ (endsWith_length _ _ _ E1 E2 ltac:(discriminate))).
    unfold parseArray. destruct (isEmpty (trim (inner (trim s)))); [eauto |].
    apply parseArrayLoop_total. intros t Ht. apply Hrec. simpl in Ht. lia.
  - destruct (startsWith "(" (trim s) && endsWith ")" (trim s)) eqn:Eo; [| eauto].
    apply andb_true_iff in Eo. destruct Eo as [E1 E2].
    pose proof (length_inner _ (endsWith_length _ _ _ E1 E2 ltac:(discriminate))).
    unfold parseInlineObject. destruct (isEmpty (trim (inner (trim s)))); [eauto |].
    apply parsePairs_total. intros p t Hin Ht. apply Hrec.
    pose proof (splitPairsLoop_lengths (String.length (inner (trim s)))
                  (inner (trim s)) [] "" false 0 0 (Forall_nil _)) as Hall.
    rewrite Forall_forall in Hall. specialize (Hall ltac:(simpl; lia) p Hin).
    lia.
Qed.

End Total.

Lemma parseValueF_total fuel :
  forall s, String.length s < fuel -> exists v, parseValueF fuel s = Ok v.
Proof.
  induction fuel as [| fuel IH]; intros s Hs; [lia |].
  cbn [parseValueF]. apply parseValueBody_total.
  intros t Ht. apply IH. lia.
Qed.

Lemma parseValue_ok (s : string) : exists v, parseValue s = Ok v.
Proof. apply parseValueF_total. lia. Qed.

(** X4.  [parseValue] returns a value for every text: it never throws
    and its recursion ends, each nested call being on a shorter text.
    The value is in normal form. *)
Theorem parseValue_total :
  forall s : string, exists v, parseValue s = Ok v /\ wf v.
Proof.
  intros s. destruct (parseValueF_total (S (String.length s)) s) as [v Hv]; [lia |].
  exists v. split; [exact Hv |]. now apply (parseValue_wf s).
Qed.

(** ** [parse] returns or throws *)

Lemma scanNested_lengths chars :
  forall d acc,
    String.length (fst (scanNested chars d acc))
    <= String.length acc + String.length chars
    /\ String.length (snd (scanNested chars d acc)) <= String.length chars.
Proof.
  induction chars as [| c rest IH]; intros d acc; cbn [scanNested].
  - simpl. lia.
  - match goal with |- context [if ?t then _ else _] => destruct t end.
    + destruct (IH (if (c =? "(")%char then (d + 1)%Z
                    else if (c =? ")")%char then (d - 1)%Z else d)
                   (acc ++ str1 c)) as [H1 H2].
      rewrite length_snoc in H1. simpl. lia.
    + simpl. lia.
Qed.

Lemma parseFieldsLoop_returns fuel :
  forall l n chars result current depth,
    String.length chars < fuel ->
    parseFieldsLoop fuel l n chars result current depth <> OutOfFuel.
Proof.
  induction fuel as [| fuel IH]; intros l n chars result current depth Hf;
    [lia |].
  cbn [parseFieldsLoop]. destruct chars as [| ch rest]; [discriminate |].
  cbn [String.length] in Hf.
  destruct (ch =? "(")%char.
  - destruct (depth =? 0)%Z; [| apply IH; lia].
    pose proof (scanNested_lengths rest 1 "") as [L1 L2].
    destruct (scanNested rest 1 "") as [nestedStr rest']. cbn [fst snd] in *.
    simpl in L1.
    destruct (isEmpty nestedStr).
    + cbn [bind]. apply IH. lia.
    + pose proof (IH l n nestedStr [] "" 0%Z ltac:(lia)) as Hn.
      destruct (parseFieldsLoop fuel l n nestedStr [] "" 0) as [fs | e |];
        cbn [bind]; [apply IH; lia | discriminate | contradiction].
  - destruct (ch =? ")")%char.
    + destruct (depth - 1 <? 0)%Z; [discriminate | apply IH; lia].
    + destruct (ch =? ",")%char; [destruct (depth =? 0)%Z |]; apply IH; lia.
Qed.

Lemma parseFields_returns fieldsStr l n : parseFields fieldsStr l n <> OutOfFuel.
Proof.
  unfold parseFields. destruct (isEmpty fieldsStr); [discriminate |].
  apply parseFieldsLoop_returns. lia.
Qed.

Lemma parseValue_returns s : parseValue s <> OutOfFuel.
Proof. destruct (parseValue_ok s) as (v & ->). discriminate. Qed.

Lemma parseFieldValue_returns field :
  forall valueStr l n, parseFieldValue field valueStr l n <> OutOfFuel.
Proof.
  induction field as [nm nested IH] using Field_ind'. intros valueStr l n.
  cbn [parseFieldValue].
  repeat match goal with
         | |- context [if ?c then _ else _] => destruct c
         end;
    try apply parseValue_returns; try discriminate.
  generalize (parseDataValues (inner (trim valueStr))) as vs.
  generalize (@nil (string * value)) as obj.
  induction IH as [| f fs Hf _ IHfs]; intros obj vs; [discriminate |].
  destruct vs as [| x vs]; [discriminate |].
  specialize (Hf x l n).
  destruct (parseFieldValue f x l n); cbn [bind];
    [apply IHfs | discriminate | contradiction].
Qed.

Lemma fillRecord_returns fields :
  forall values l n obj, fillRecord fields values l n obj <> OutOfFuel.
Proof.
  induction fields as [| f fs IH]; intros values l n obj; [discriminate |].
  destruct values as [| x values]; [discriminate |]. cbn [fillRecord].
  pose proof (parseFieldValue_returns f x l n) as Hf.
  destruct (parseFieldValue f x l n); cbn [bind];
    [apply IH | discriminate | contradiction].
Qed.

Lemma parseFieldValue_raises field :
  forall valueStr l n e,
    parseFieldValue field valueStr l n = Throw e ->
    lineNum e = n /\ line e = l /\ knownMessage (message e).
Proof.
  induction field as [nm nested IH] using Field_ind'. intros valueStr l n e.
  cbn [parseFieldValue].
  repeat match goal with
         | |- context [if ?c then _ else _] => destruct c
         end;
    try (intros H; now apply parseValue_no_throw in H); try discriminate.
  { intros H. injection H as <-. cbn [lineNum line message arityError].
    split; [reflexivity |]. split; [reflexivity |]. right. right. do 2 eexists. reflexivity. }
  generalize (parseDataValues (inner (trim valueStr))) as vs.
  generalize (@nil (string * value)) as obj.
  induction IH as [| f fs Hf _ IHfs]; intros obj vs; [discriminate |].
  destruct vs as [| x vs]; [discriminate |].
  specialize (Hf x l n).
  destruct (parseFieldValue f x l n) as [v | e' |]; cbn [bind];
    [apply IHfs | | discriminate].
  intros H. injection H as <-. now apply Hf.
Qed.

Lemma fillRecord_raises fields :
  forall values l n obj e,
    fillRecord fields values l n obj = Throw e ->
    lineNum e = n /\ line e = l /\ knownMessage (message e).
Proof.
  induction fields as [| f fs IH]; intros values l n obj e; [discriminate |].
  destruct values as [| x values]; [discriminate |]. cbn [fillRecord].
  destruct (parseFieldValue f x l n) as [v | e' |] eqn:E; cbn [bind];
    [apply IH | | discriminate].
  intros H. injection H as <-. now apply (parseFieldValue_raises f x).
Qed.

(** The loop over the data lines returns, or throws for one of the lines
    it was given. *)
Lemma parseDataLinesLoop_outcome rest :
  forall i fields count processed result,
    match parseDataLinesLoop rest i fields count processed result with
    | Ok _ => True
    | Throw e =>
        exists j, j < List.length rest
                  /\ lineNum e = i + j + 1 /\ line e = trim (nth j rest "")
                  /\ knownMessage (message e)
    | OutOfFuel => False
    end.
Proof.
  induction rest as [| raw rest IH]; intros i fields count processed result;
    cbn [parseDataLinesLoop]; [exact I |].
  assert (Hshift : forall o : outcome value,
            match o with
            | Ok _ => True
            | Throw e =>
                exists j, j < List.length rest
                          /\ lineNum e = S i + j + 1
                          /\ line e = trim (nth j rest "")
                          /\ knownMessage (message e)
            | OutOfFuel => False
            end ->
            match o with
            | Ok _ => True
            | Throw e =>
                exists j, j < List.length (raw :: rest)
                          /\ lineNum e = i + j + 1
                          /\ line e = trim (nth j (raw :: rest) "")
                          /\ knownMessage (message e)
            | OutOfFuel => False
            end).
  { intros [v | e |]; auto. intros (j & H1 & H2 & H3 & H4).
    exists (S j). cbn [List.length nth]. repeat split; auto; lia. }
  destruct (count <=? processed)%nat; [exact I |]. cbv zeta.
  destruct (isSkipped (trim raw)); [apply Hshift, IH |].
  destruct (List.length fields =? 0)%nat.
  { destruct (parseValue_ok (trim raw)) as (v & ->). exact I. }
  destruct (negb _).
  { exists 0. cbn [List.length nth lineNum line message arityError].
    split; [lia |]. split; [lia |]. split; [reflexivity |].
    right. left. do 2 eexists. reflexivity. }
  pose proof (fillRecord_returns fields (parseDataValues (trim raw)) (trim raw)
                (i + 1) []) as Hret.
  destruct (fillRecord _ _ _ _ _) as [obj | e |] eqn:E; cbn [bind];
    [apply Hshift, IH | | contradiction].
  apply fillRecord_raises in E. destruct E as (E1 & E2 & E3).
  exists 0. cbn [List.length nth]. split; [lia |]. split; [lia |]. auto.
Qed.

Lemma nth_skipn_add {A : Type} (l : list A) k j d :
  nth j (skipn k l) d = nth (k + j) l d.
Proof.
  revert l. induction k as [| k IH]; intros l; [reflexivity |].
  destruct l as [| x l]; [now destruct j |]. apply IH.
Qed.

Lemma parseSection_outcome ls i :
  includes ":" (lineAt ls i) = true ->
  match parseSection ls i with
  | Ok _ => True
  | Throw e =>
      lineNum e = i + 1 /\ line e = trim (nth i ls "")
      /\ message e = "Unmatched closing parenthesis"
  | OutOfFuel => False
  end.
Proof.
  intros Hc. unfold parseSection. fold (lineAt ls i).
  destruct (parseHeader (lineAt ls i) (i + 1)) as [h | e' |] eqn:Eh;
    cbn [bind].
  - pose proof (parseFields_returns (snd h) (lineAt ls i) (i + 1)) as Hr.
    destruct (parseFields _ _ _) as [fs | e |] eqn:Ef; cbn [bind];
      [exact I | | contradiction].
    apply parseFields_throws in Ef. subst e. repeat split.
  - assert (H : includes ":" (lineAt ls i) = false)
      by (apply (proj1 (parseHeader_throws _ (i + 1))); eauto).
    congruence.
  - unfold parseHeader in Eh. destruct (startsWith ":" (lineAt ls i));
      [discriminate |]. destruct (indexOf ":" (lineAt ls i)); discriminate.
Qed.

Lemma parseDataLines_outcome ls k fields n :
  match parseDataLines ls k fields n with
  | Ok _ => True
  | Throw e => exists j, raisedAt ls j e /\ knownMessage (message e)
  | OutOfFuel => False
  end.
Proof.
  unfold parseDataLines.
  pose proof (parseDataLinesLoop_outcome (skipn k ls) k fields n 0 []) as H.
  destruct (parseDataLinesLoop _ _ _ _ _ _) as [v | e |]; auto.
  destruct H as (j & H1 & H2 & H3 & H4). exists (k + j).
  rewrite length_skipn in H1. rewrite nth_skipn_add in H3.
  split; [| assumption]. unfold raisedAt. repeat split; auto; lia.
Qed.

Lemma parseOrtLoop_outcome ls fuel :
  forall i r,
    0 < fuel -> List.length ls < fuel + i ->
    match parseOrtLoop fuel ls i r with
    | Ok _ => True
    | Throw e => exists j, raisedAt ls j e /\ knownMessage (message e)
    | OutOfFuel => False
    end.
Proof.
  induction fuel as [| fuel IH]; intros i r H0 Hf; [lia |].
  cbn [parseOrtLoop].
  destruct (Nat.leb_spec (List.length ls) i) as [Hle | Hlt]; [exact I |].
  cbv zeta. fold (lineAt ls i).
  destruct (isSkipped (lineAt ls i)); [apply IH; lia |].
  destruct (includes ":" (lineAt ls i)) eqn:Ec; [| apply IH; lia].
  pose proof (parseSection_outcome ls i Ec) as Hs.
  destruct (parseSection ls i) as [[[key fields] n] | e |]; cbn [bind];
    [| | contradiction].
  - pose proof (parseDataLines_outcome ls (i + 1) fields n) as Hd.
    destruct key as [key |].
    + destruct (parseDataLines ls (i + 1) fields n) as [values | e |];
        cbn [bind]; [apply IH; lia | exact Hd | contradiction].
    + destruct (parseDataLines ls (i + 1) fields n) as [values | e |];
        cbn [bind]; [| exact Hd | contradiction].
      destruct ((0 <? List.length fields)%nat && (n =? 1)%nat);
        [destruct (asArray values) as [[| x [| y t]] |] |]; exact I.
  - destruct Hs as (H1 & H2 & H3). exists i. split.
    + unfold raisedAt. auto.
    + left. exact H3.
Qed.

(** X5.  [parse] ends on every document: it returns a value, or it
    throws an [OrtParseError].  The error is about a line of the
    document, whose number (from 1) and trimmed text it carries, and its
    message is one of three: an unmatched closing parenthesis in a
    header, a row with the wrong number of values, a tuple with the
    wrong number of nested values. *)
Theorem parse_returns_or_throws :
  forall content : string,
    (exists v, parse content = Ok v)
    \/ (exists e j, parse content = Throw e
                    /\ raisedAt (split LF content) j e
                    /\ knownMessage (message e)).
Proof.
  intros content. unfold parse, parseOrt. cbv zeta.
  pose proof (parseOrtLoop_outcome (split LF content)
                (S (List.length (split LF content))) 0 [] ltac:(lia)
                ltac:(lia)) as H.
  destruct (parseOrtLoop _ _ _ _) as [v | e |].
  - left. eauto.
  - right. destruct H as (j & H1 & H2). eauto.
  - contradiction.
Qed.

(** ** White space around a line *)

Lemma countDataLines_trim rest :
  forall rest' n,
    map trim rest = map trim rest' ->
    countDataLines rest n = countDataLines rest' n.
Proof.
  induction rest as [| raw rest IH]; intros [| raw' rest'] n H;
    try discriminate; [reflexivity |].
  cbn [map] in H. injection H as Hr Hrest.
  cbn [countDataLines]. rewrite Hr.
  destruct (isSkipped (trim raw')); [now apply IH |].
  destruct (includes ":" (trim raw') && isHeader (trim raw')); [reflexivity |].
  now apply IH.
Qed.

Lemma parseDataLinesLoop_trim rest :
  forall rest' i fields count processed result,
    map trim rest = map trim rest' ->
    parseDataLinesLoop rest i fields count processed result
    = parseDataLinesLoop rest' i fields count processed result.
Proof.
  induction rest as [| raw rest IH];
    intros [| raw' rest'] i fields count processed result H;
    try discriminate; [reflexivity |].
  cbn [map] in H. injection H as Hr Hrest.
  cbn [parseDataLinesLoop]. rewrite Hr.
  destruct (count <=? processed)%nat; [reflexivity |]. cbv zeta.
  destruct (isSkipped (trim raw')); [now apply IH |].
  destruct (List.length fields =? 0)%nat; [reflexivity |].
  destruct (negb _); [reflexivity |].
  destruct (fillRecord _ _ _ _ _); cbn [bind]; try reflexivity.
  now apply IH.
Qed.

Lemma lineAt_trim ls ls' i :
  map trim ls = map trim ls' -> lineAt ls i = lineAt ls' i.
Proof.
  intros H. unfold lineAt.
  change (trim (nth i ls "")) with (trim (nth i ls "")).
  rewrite <- (map_nth trim ls "" i), <- (map_nth trim ls' "" i).
  now rewrite H.
Qed.

Lemma skipn_trim ls ls' k :
  map trim ls = map trim ls' -> map trim (skipn k ls) = map trim (skipn k ls').
Proof. intros H. now rewrite <- !skipn_map, H. Qed.

Lemma parseOrtLoop_trim ls ls' :
  map trim ls = map trim ls' ->
  forall fuel i r, parseOrtLoop fuel ls i r = parseOrtLoop fuel ls' i r.
Proof.
  intros H.
  assert (Hlen : List.length ls = List.length ls')
    by (rewrite <- (length_map trim ls), H; apply length_map).
  induction fuel as [| fuel IH]; intros i r; [reflexivity |].
  cbn [parseOrtLoop]. rewrite Hlen.
  destruct (List.length ls' <=? i)%nat; [reflexivity |].
  cbv zeta. fold (lineAt ls i) (lineAt ls' i). rewrite (lineAt_trim _ _ i H).
  destruct (isSkipped (lineAt ls' i)); [apply IH |].
  destruct (includes ":" (lineAt ls' i)); [| apply IH].
  assert (Es : parseSection ls i = parseSection ls' i).
  { unfold parseSection. fold (lineAt ls i) (lineAt ls' i).
    rewrite (lineAt_trim _ _ i H).
    now rewrite (countDataLines_trim _ _ 0 (skipn_trim _ _ (i + 1) H)). }
  rewrite Es.
  destruct (parseSection ls' i) as [[[key fields] n] | e |]; cbn [bind];
    try reflexivity.
  assert (Ed : parseDataLines ls (i + 1) fields n
               = parseDataLines ls' (i + 1) fields n).
  { unfold parseDataLines. apply parseDataLinesLoop_trim.
    now apply skipn_trim. }
  rewrite Ed. destruct key; [| reflexivity].
  destruct (parseDataLines ls' (i + 1) fields n); cbn [bind]; try reflexivity.
  apply IH.
Qed.

(** X6.  White space at the ends of a line never matters: two documents
    with the same number of lines, line by line equal once trimmed, give
    the same result, or the same error. *)
Theorem parse_ignores_indentation :
  forall c1 c2 : string,
    map trim (split LF c1) = map trim (split LF c2) ->
    parse c1 = parse c2.
Proof.
  intros c1 c2 H. unfold parse, parseOrt. cbv zeta.
  assert (Hlen : List.length (split LF c1) = List.length (split LF c2))
    by (rewrite <- (length_map trim (split LF c1)), H; apply length_map).
  rewrite Hlen. now apply parseOrtLoop_trim.
Qed.

Lemma parse_ignores_indentation_witness :
  parse (lines ["  users:id,name:  "; "  1, Ann"; "  2,Bob  "])
  = parse (lines ["users:id,name:"; "1, Ann"; "2,Bob"]).
Proof.
  apply (parse_ignores_indentation
           (lines ["  users:id,name:  "; "  1, Ann"; "  2,Bob  "])
           (lines ["users:id,name:"; "1, Ann"; "2,Bob"])).
  reflexivity.
Defined.

(** ** The shape of the result *)

Lemma parseSection_anonymous ls i fields n :
  parseSection ls i = Ok (None, fields, n) ->
  startsWith ":" (lineAt ls i) = true.
Proof.
  unfold parseSection. fold (lineAt ls i). unfold parseHeader.
  destruct (startsWith ":" (lineAt ls i)); [reflexivity |].
  destruct (indexOf ":" (lineAt ls i)); cbn [bind snd fst]; [| discriminate].
  destruct (parseFields _ _ _); cbn [bind]; discriminate.
Qed.

Lemma parseOrtLoop_object ls :
  (forall l, In l ls -> startsWith ":" (trim l) = false) ->
  forall fuel i r v,
    parseOrtLoop fuel ls i r = Ok v -> isObject v = true.
Proof.
  intros Hno. induction fuel as [| fuel IH]; intros i r v; [discriminate |].
  cbn [parseOrtLoop].
  destruct (Nat.leb_spec (List.length ls) i) as [Hle | Hlt].
  { intros H. injection H as <-. reflexivity. }
  cbv zeta. fold (lineAt ls i).
  destruct (isSkipped (lineAt ls i)); [apply IH |].
  destruct (includes ":" (lineAt ls i)); [| apply IH].
  destruct (parseSection ls i) as [[[key fields] n] | e |] eqn:Es; cbn [bind];
    try discriminate.
  destruct key as [key |].
  - destruct (parseDataLines ls (i + 1) fields n); cbn [bind];
      try discriminate. apply IH.
  - apply parseSection_anonymous in Es. unfold lineAt in Es.
    rewrite Hno in Es; [discriminate |]. now apply nth_In.
Qed.

(** X7.  A document in which no line starts with a colon, once trimmed,
    parses to an object or fails: only an anonymous header can make
    [parse] return an array or a single value. *)
Theorem named_sections_give_an_object :
  forall (content : string) (v : value),
    (forall l, In l (split LF content) -> startsWith ":" (trim l) = false) ->
    parse content = Ok v ->
    exists es, v = VObj es.
Proof.
  intros content v Hno H. unfold parse, parseOrt in H. cbv zeta in H.
  apply (parseOrtLoop_object _ Hno) in H.
  destruct v; try discriminate. eauto.
Qed.

Lemma named_sections_give_an_object_witness :
  exists es, VObj [("a", VNum (Dec 1 0)); ("t", VArr [VObj [("x", VBool true)]])]
             = VObj es.
Proof.
  apply (named_sections_give_an_object (lines ["a:"; "1"; "t:x:"; "true"])).
  - intros l Hl. simpl in Hl.
    repeat (destruct Hl as [<- | Hl]; [reflexivity |]). destruct Hl.
  - reflexivity.
Defined.

(** ** Blank lines and comments around a document *)

Lemma later_bind {A B : Type} (m : outcome A) (k : A -> outcome B) :
  later (bind m k) = bind (later m) (fun x => later (k x)).
Proof. now destruct m. Qed.

Lemma parseFieldsLoop_later fuel :
  forall l n chars result current depth,
    parseFieldsLoop fuel l (S n) chars result current depth
    = later (parseFieldsLoop fuel l n chars result current depth).
Proof.
  induction fuel as [| fuel IH]; intros l n chars result current depth;
    [reflexivity |].
  cbn [parseFieldsLoop]. destruct chars as [| ch rest]; [reflexivity |].
  destruct (ch =? "(")%char.
  - destruct (depth =? 0)%Z; [| apply IH].
    destruct (scanNested rest 1 "") as [nestedStr rest'].
    rewrite later_bind. destruct (isEmpty nestedStr).
    + cbn [later bind]. apply IH.
    + rewrite IH. destruct (parseFieldsLoop fuel l n nestedStr [] "" 0);
        cbn [later bind]; try reflexivity. apply IH.
  - destruct (ch =? ")")%char.
    + destruct (depth - 1 <? 0)%Z; [reflexivity | apply IH].
    + destruct (ch =? ",")%char; [destruct (depth =? 0)%Z |]; apply IH.
Qed.

Lemma parseValue_later s : parseValue s = later (parseValue s).
Proof. destruct (parseValue_ok s) as (v & ->). reflexivity. Qed.

Lemma parseFieldValue_later field :
  forall valueStr l n,
    parseFieldValue field valueStr l (S n)
    = later (parseFieldValue field valueStr l n).
Proof.
  induction field as [nm nested IH] using Field_ind'. intros valueStr l n.
  cbn [parseFieldValue].
  repeat match goal with
         | |- context [if ?c then _ else _] => destruct c
         end;
    try apply parseValue_later; try reflexivity.
  generalize (parseDataValues (inner (trim valueStr))) as vs.
  generalize (@nil (string * value)) as obj.
  induction IH as [| f fs Hf _ IHfs]; intros obj vs; [reflexivity |].
  destruct vs as [| x vs]; [reflexivity |].
  rewrite later_bind, Hf.
  destruct (parseFieldValue f x l n); cbn [later bind]; try reflexivity.
  apply IHfs.
Qed.

Lemma fillRecord_later fields :
  forall values l n obj,
    fillRecord fields values l (S n) obj
    = later (fillRecord fields values l n obj).
Proof.
  induction fields as [| f fs IH]; intros values l n obj; [reflexivity |].
  destruct values as [| x values]; [reflexivity |]. cbn [fillRecord].
  rewrite later_bind, parseFieldValue_later.
  destruct (parseFieldValue f x l n); cbn [later bind]; try reflexivity.
  apply IH.
Qed.

Lemma parseDataLinesLoop_later rest :
  forall i fields count processed result,
    parseDataLinesLoop rest (S i) fields count processed result
    = later (parseDataLinesLoop rest i fields count processed result).
Proof.
  induction rest as [| raw rest IH]; intros i fields count processed result;
    [reflexivity |].
  cbn [parseDataLinesLoop].
  destruct (count <=? processed)%nat; [reflexivity |]. cbv zeta.
  destruct (isSkipped (trim raw)); [apply IH |].
  destruct (List.length fields =? 0)%nat; [apply parseValue_later |].
  destruct (negb _); [reflexivity |].
  rewrite later_bind. change (S i + 1) with (S (i + 1)).
  rewrite fillRecord_later.
  destruct (fillRecord _ _ _ (i + 1) _); cbn [later bind]; try reflexivity.
  apply IH.
Qed.

Lemma parseSection_later c ls i :
  parseSection (c :: ls) (S i) = later (parseSection ls i).
Proof.
  unfold parseSection. cbn [nth]. change (S i + 1) with (S (i + 1)).
  cbn [skipn]. cbv zeta. rewrite !later_bind.
  assert (Eh : parseHeader (trim (nth i ls "")) (S (i + 1))
               = later (parseHeader (trim (nth i ls "")) (i + 1))).
  { unfold parseHeader. destruct (startsWith ":" _); [reflexivity |].
    destruct (indexOf ":" _); reflexivity. }
  rewrite Eh. destruct (parseHeader _ (i + 1)); cbn [later bind];
    try reflexivity.
  unfold parseFields. destruct (isEmpty (snd a)); [reflexivity |].
  rewrite parseFieldsLoop_later.
  destruct (parseFieldsLoop _ _ (i + 1) _ _ _ _); reflexivity.
Qed.

Lemma parseOrtLoop_later c ls fuel :
  forall i r,
    parseOrtLoop fuel (c :: ls) (S i) r = later (parseOrtLoop fuel ls i r).
Proof.
  induction fuel as [| fuel IH]; intros i r; [reflexivity |].
  cbn [parseOrtLoop]. cbn [List.length nth].
  change (S (List.length ls) <=? S i)%nat with (List.length ls <=? i)%nat.
  destruct (List.length ls <=? i)%nat; [reflexivity |]. cbv zeta.
  destruct (isSkipped (trim (nth i ls ""))); [apply IH |].
  destruct (includes ":" (trim (nth i ls ""))); [| apply IH].
  rewrite parseSection_later.
  destruct (parseSection ls i) as [[[key fields] n] | e |]; cbn [later bind];
    try reflexivity.
  assert (Ed : parseDataLines (c :: ls) (S i + 1) fields n
               = later (parseDataLines ls (i + 1) fields n)).
  { unfold parseDataLines. change (S i + 1) with (S (i + 1)). cbn [skipn].
    apply parseDataLinesLoop_later. }
  rewrite Ed.
  destruct (parseDataLines ls (i + 1) fields n) as [values | e |];
    destruct key; cbn [later bind]; try reflexivity.
  - apply IH.
  - destruct ((0 <? List.length fields)%nat && (n =? 1)%nat);
      [destruct (asArray values) as [[| x [| y t]] |] |]; reflexivity.
Qed.

Lemma split_append c a b :
  split c (a ++ String c b) = (split c a ++ split c b)%list.
Proof.
  induction a as [| x a IH]; cbn [append split].
  - now rewrite Ascii.eqb_refl.
  - rewrite IH. destruct (x =? c)%char; [reflexivity |].
    pose proof (split_nonempty c a).
    destruct (split c a); [contradiction | reflexivity].
Qed.

Lemma countDataLines_skipped_end rest c :
  isSkipped (trim c) = true ->
  forall n, countDataLines (rest ++ [c]) n = countDataLines rest n.
Proof.
  intros Hc. induction rest as [| raw rest IH]; intros n;
    cbn [app countDataLines].
  - now rewrite Hc.
  - destruct (isSkipped (trim raw)); [apply IH |].
    destruct (includes ":" (trim raw) && isHeader (trim raw)); [reflexivity |].
    apply IH.
Qed.

Lemma parseDataLinesLoop_skipped_end rest c :
  isSkipped (trim c) = true ->
  forall i fields count processed result,
    parseDataLinesLoop (rest ++ [c]) i fields count processed result
    = parseDataLinesLoop rest i fields count processed result.
Proof.
  intros Hc. induction rest as [| raw rest IH];
    intros i fields count processed result; cbn [app parseDataLinesLoop].
  - rewrite Hc. now destruct (count <=? processed)%nat.
  - destruct (count <=? processed)%nat; [reflexivity |]. cbv zeta.
    destruct (isSkipped (trim raw)); [apply IH |].
    destruct (List.length fields =? 0)%nat; [reflexivity |].
    destruct (negb _); [reflexivity |].
    destruct (fillRecord _ _ _ _ _); cbn [bind]; try reflexivity. apply IH.
Qed.

Lemma parseOrtLoop_step fuel ls i r :
  parseOrtLoop (S fuel) ls i r
  = if (List.length ls <=? i)%nat then Ok (createOrtValue (VObj r))
    else
      let line := trim (nth i ls "") in
      if isSkipped line then parseOrtLoop fuel ls (S i) r
      else if includes ":" line then
        sec <- parseSection ls i ;;
        let '(key, fields, dataLines) := sec in
        match key with
        | Some key =>
            values <- parseDataLines ls (i + 1) fields dataLines ;;
            parseOrtLoop fuel ls (i + (dataLines + 1))
              (objSet key (toNative values) r)
        | None =>
            values <- parseDataLines ls (i + 1) fields dataLines ;;
            if (0 <? List.length fields)%nat && (dataLines =? 1)%nat then
              match asArray values with
              | Some [x] => Ok x
              | _ => Ok values
              end
            else Ok values
        end
      else parseOrtLoop fuel ls (S i) r.
Proof. reflexivity. Qed.

Lemma parseOrtLoop_skipped_end ls c :
  isSkipped (trim c) = true ->
  forall fuel i r,
    0 < fuel -> List.length ls < fuel + i ->
    parseOrtLoop (S fuel) (ls ++ [c]) i r = parseOrtLoop fuel ls i r.
Proof.
  intros Hc. induction fuel as [| fuel IH]; intros i r H0 Hf; [lia |].
  rewrite (parseOrtLoop_step (S fuel)), (parseOrtLoop_step fuel ls).
  rewrite length_app. cbn [List.length].
  destruct (Nat.leb_spec (List.length ls) i) as [Hle | Hlt].
  - destruct (Nat.leb_spec (List.length ls + 1) i) as [Hle' | Hlt'];
      [reflexivity |].
    assert (i = List.length ls) by lia. subst i. cbv zeta.
    rewrite nth_middle, Hc. rewrite parseOrtLoop_step.
    rewrite length_app. cbn [List.length].
    destruct (Nat.leb_spec (List.length ls + 1) (S (List.length ls)));
      [reflexivity | lia].
  - destruct (Nat.leb_spec (List.length ls + 1) i) as [Hle' | _]; [lia |].
    cbv zeta. rewrite app_nth1 by assumption.
    assert (Hskip : skipn (i + 1) (ls ++ [c])
                    = (skipn (i + 1) ls ++ [c])%list).
    { rewrite skipn_app.
      replace (i + 1 - List.length ls) with 0 by lia. reflexivity. }
    assert (Es : parseSection (ls ++ [c]) i = parseSection ls i).
    { unfold parseSection. rewrite app_nth1 by assumption.
      now rewrite Hskip, (countDataLines_skipped_end _ _ Hc). }
    assert (Ed : forall fields n,
               parseDataLines (ls ++ [c]) (i + 1) fields n
               = parseDataLines ls (i + 1) fields n).
    { intros fields n. unfold parseDataLines. rewrite Hskip.
      now apply parseDataLinesLoop_skipped_end. }
    destruct (isSkipped (trim (nth i ls ""))); [apply IH; lia |].
    destruct (includes ":" (trim (nth i ls ""))); [| apply IH; lia].
    rewrite Es.
    destruct (parseSection ls i) as [[[key fields] n] | e |]; cbn [bind];
      try reflexivity.
    rewrite Ed. destruct key; [| reflexivity].
    destruct (parseDataLines ls (i + 1) fields n); cbn [bind];
      try reflexivity.
    apply IH; lia.
Qed.

(** X8.  A blank line or a comment line put before a document or after
    it changes nothing: after it the result is the same, and before it
    the result is the same with the line number of an error one higher. *)
Theorem comment_around_document :
  forall c content : string,
    includes LF c = false -> isSkipped (trim c) = true ->
    parse (c ++ String LF content) = later (parse content)
    /\ parse (content ++ String LF c) = parse content.
Proof.
  intros c content Hlf Hc. unfold parse, parseOrt. cbv zeta. split.
  - rewrite (split_app _ _ _ Hlf). cbn [List.length].
    rewrite parseOrtLoop_step. cbn [List.length Nat.leb nth]. cbv zeta.
    rewrite Hc. apply parseOrtLoop_later.
  - rewrite split_append, (split_none _ _ Hlf).
    rewrite length_app. cbn [List.length].
    replace (List.length (split LF content) + 1)
      with (S (List.length (split LF content))) by lia.
    apply parseOrtLoop_skipped_end; [assumption | lia | lia].
Qed.

Lemma comment_around_document_witness :
  parse ("# users" ++ String LF (lines ["k:a,b:"; "1"]))
  = Throw (mkError 3 "1" "Expected 2 values but got 1")
  /\ parse (lines ["k:a,b:"; "1"] ++ String LF "# users")
     = Throw (mkError 2 "1" "Expected 2 values but got 1").
Proof.
  apply (comment_around_document "# users" (lines ["k:a,b:"; "1"]));
    reflexivity.
Defined.

(** ** The store: what [set] writes, [get] reads *)

Section NormalizeCopy.

Variable fuel : nat.
Hypothesis IH :
  forall h v t,
    Store.reify fuel h v = Some t ->
    exists h' v',
      Store.normalize fuel h v = Some (h', v')
      /\ forall h2,
           (forall l, List.length h <= l < List.length h' ->
                      nth_error h2 l = nth_error h' l) ->
           Store.reify fuel h2 v' = Some (Value.normalize t).

Lemma normalizeItems_copy items h0 :
  forall h acc ts accT,
    extends h0 h ->
    Store.reifyItems (Store.reify fuel h0) items = Some ts ->
    (forall h2,
        (forall l, List.length h0 <= l < List.length h ->
                   nth_error h2 l = nth_error h l) ->
        Store.reifyItems (Store.reify fuel h2) acc = Some accT) ->
    exists h' items',
      Store.normalizeItems (Store.normalize fuel) items h acc = Some (h', items')
      /\ extends h h'
      /\ forall h2,
           (forall l, List.length h0 <= l < List.length h' ->
                      nth_error h2 l = nth_error h' l) ->
           Store.reifyItems (Store.reify fuel h2) items'
           = Some (accT ++ map Value.normalize ts)%list.
Proof.
  induction items as [| v rest IHl]; intros h acc ts accT He Hts Hacc; simpl.
  - simpl in Hts. injection Hts as <-. exists h, acc.
    split; [reflexivity |]. split; [apply extends_refl |].
    intros h2 H2. rewrite app_nil_r. now apply Hacc.
  - simpl in Hts.
    destruct (Store.reify fuel h0 v) as [t0 |] eqn:E0; [| discriminate].
    destruct (Store.reifyItems _ rest) as [ts' |] eqn:E1; [| discriminate].
    injection Hts as <-.
    destruct (IH h v t0 (reify_extends _ _ _ _ _ He E0)) as (h1 & v1 & Hn & Hr).
    rewrite Hn. pose proof (normalize_extends _ _ _ _ _ Hn) as He1.
    pose proof (extends_length _ _ He) as L0.
    pose proof (extends_length _ _ He1) as L1.
    destruct (IHl h1 (acc ++ [v1])%list ts' (accT ++ [Value.normalize t0])%list)
      as (h' & items' & Hi & He' & Hri).
    + eapply extends_trans; eassumption.
    + reflexivity.
    + intros h2 H2. rewrite reifyItems_app.
      rewrite Hacc.
      2:{ intros l Hl. rewrite H2 by lia.
          destruct (nth_error h l) as [c |] eqn:Ec.
          - eapply extends_nth; eassumption.
          - apply nth_error_None in Ec. lia. }
      simpl. rewrite Hr; [reflexivity |].
      intros l Hl. apply H2. lia.
    + exists h', items'. split; [assumption |].
      split; [eapply extends_trans; eassumption |].
      intros h2 H2. rewrite Hri by assumption. simpl.
      now rewrite <- app_assoc.
Qed.

Lemma normalizeProps_copy props h0 :
  forall h result ts resT,
    extends h0 h ->
    Store.reifyProps (Store.reify fuel h0) props = Some ts ->
    (forall h2,
        (forall l, List.length h0 <= l < List.length h ->
                   nth_error h2 l = nth_error h l) ->
        Store.reifyProps (Store.reify fuel h2) result = Some resT) ->
    exists h' result',
      Store.normalizeProps (Store.normalize fuel) props h result
        = Some (h', result')
      /\ extends h h'
      /\ forall h2,
           (forall l, List.length h0 <= l < List.length h' ->
                      nth_error h2 l = nth_error h' l) ->
           Store.reifyProps (Store.reify fuel h2) result'
           = Some (fold_left (fun acc kv => objSet (fst kv) (snd kv) acc)
                     (map (fun kv => (fst kv, Value.normalize (snd kv))) ts)
                     resT).
Proof.
  induction props as [| [k v] rest IHl]; intros h result ts resT He Hts Hres;
    simpl.
  - simpl in Hts. injection Hts as <-. exists h, result.
    split; [reflexivity |]. split; [apply extends_refl |]. exact Hres.
  - simpl in Hts.
    destruct (Store.reify fuel h0 v) as [t0 |] eqn:E0; [| discriminate].
    destruct (Store.reifyProps _ rest) as [ts' |] eqn:E1; [| discriminate].
    injection Hts as <-.
    destruct (IH h v t0 (reify_extends _ _ _ _ _ He E0)) as (h1 & v1 & Hn & Hr).
    rewrite Hn. pose proof (normalize_extends _ _ _ _ _ Hn) as He1.
    pose proof (extends_length _ _ He) as L0.
    pose proof (extends_length _ _ He1) as L1.
    destruct (IHl h1 (objSet k v1 result) ts'
                (objSet k (Value.normalize t0) resT))
      as (h' & result' & Hi & He' & Hri).
    + eapply extends_trans; eassumption.
    + reflexivity.
    + intros h2 H2. apply reifyProps_objSet.
      * apply Hres. intros l Hl. rewrite H2 by lia.
        destruct (nth_error h l) as [c |] eqn:Ec.
        -- eapply extends_nth; eassumption.
        -- apply nth_error_None in Ec. lia.
      * apply Hr. intros l Hl. apply H2. lia.
    + exists h', result'. split; [assumption |].
      split; [eapply extends_trans; eassumption |]. exact Hri.
Qed.

End NormalizeCopy.

(** The copy [normalize] makes lies in the new cells only. *)
Lemma normalize_copy fuel :
  forall h v t,
    Store.reify fuel h v = Some t ->
    exists h' v',
      Store.normalize fuel h v = Some (h', v')
      /\ forall h2,
           (forall l, List.length h <= l < List.length h' ->
                      nth_error h2 l = nth_error h' l) ->
           Store.reify fuel h2 v' = Some (Value.normalize t).
Proof.
  induction fuel as [| fuel IH]; intros h v t;
    destruct v; simpl; try discriminate;
    try (intros H; injection H as <-; eexists _, _; split;
         [reflexivity | intros; reflexivity]).
  destruct (nth_error h l) as [[items | props | payload] |] eqn:El;
    try discriminate.
  - destruct (Store.reifyItems _ items) as [ts |] eqn:Ei; [| discriminate].
    intros H. injection H as <-.
    destruct (normalizeItems_copy fuel IH items h h [] ts []
                (extends_refl h) Ei (fun _ _ => eq_refl))
      as (h' & items' & Hn & He & Hr).
    rewrite Hn. eexists _, _. split; [reflexivity |].
    intros h2 H2. pose proof (extends_length _ _ He) as L.
    rewrite length_app in H2. simpl in H2.
    simpl. rewrite (H2 (List.length h')) by lia.
    rewrite nth_error_app2, Nat.sub_diag by lia. simpl.
    rewrite Hr; [reflexivity |].
    intros l0 Hl0. rewrite H2 by lia. now rewrite nth_error_app1 by lia.
  - destruct (Store.reifyProps _ props) as [ts |] eqn:Ei; [| discriminate].
    intros H. injection H as <-.
    destruct (normalizeProps_copy fuel IH props h h [] ts []
                (extends_refl h) Ei (fun _ _ => eq_refl))
      as (h' & result' & Hn & He & Hr).
    rewrite Hn. eexists _, _. split; [reflexivity |].
    intros h2 H2. pose proof (extends_length _ _ He) as L.
    rewrite length_app in H2. simpl in H2.
    simpl. rewrite (H2 (List.length h')) by lia.
    rewrite nth_error_app2, Nat.sub_diag by lia. simpl.
    rewrite Hr; [reflexivity |].
    intros l0 Hl0. rewrite H2 by lia. now rewrite nth_error_app1 by lia.
Qed.

Lemma objGet_replaceKey {A : Type} k k' (v : A) obj :
  objGet k' (replaceKey k v obj)
  = if (k =? k')%string then (if hasKey k obj then Some v else None)
    else objGet k' obj.
Proof.
  unfold hasKey. induction obj as [| [k0 v0] obj IH]; cbn [replaceKey objGet].
  - now destruct (k =? k')%string.
  - destruct (String.eqb_spec k0 k) as [-> | Hk0].
    + cbn [objGet]. now destruct (k =? k')%string.
    + cbn [objGet]. rewrite IH.
      destruct (String.eqb_spec k k') as [<- | Hkk'].
      * destruct (String.eqb_spec k0 k); [contradiction | reflexivity].
      * reflexivity.
Qed.

Lemma objGet_insertIndex {A : Type} n k k' (v : A) obj :
  hasKey k obj = false ->
  objGet k' (insertIndex n k v obj)
  = if (k =? k')%string then Some v else objGet k' obj.
Proof.
  unfold hasKey.
  induction obj as [| [k0 v0] obj IH]; cbn [insertIndex objGet]; intros Hk.
  - reflexivity.
  - destruct (String.eqb_spec k0 k) as [-> | Hk0]; [discriminate |].
    destruct (arrayIndex k0) as [n0 |]; [destruct (n0 <? n)%N |];
      try reflexivity.
    cbn [objGet]. rewrite (IH Hk).
    destruct (String.eqb_spec k0 k') as [<- | Hk0']; [| reflexivity].
    destruct (String.eqb_spec k k0); [congruence | reflexivity].
Qed.

Lemma objGet_snoc {A : Type} k k' (v : A) obj :
  hasKey k obj = false ->
  objGet k' (obj ++ [(k, v)])%list
  = if (k =? k')%string then Some v else objGet k' obj.
Proof.
  unfold hasKey.
  induction obj as [| [k0 v0] obj IH]; cbn [app objGet]; intros Hk.
  - reflexivity.
  - destruct (String.eqb_spec k0 k) as [-> | Hk0]; [discriminate |].
    rewrite (IH Hk).
    destruct (String.eqb_spec k0 k') as [<- | Hk0']; [| reflexivity].
    destruct (String.eqb_spec k k0); [congruence | reflexivity].
Qed.

(** Reading a property after an assignment. *)
Lemma objGet_objSet {A : Type} k k' (v : A) obj :
  k <> "__proto__" ->
  objGet k' (objSet k v obj)
  = if (k =? k')%string then Some v else objGet k' obj.
Proof.
  intros Hp. unfold objSet. apply String.eqb_neq in Hp. rewrite Hp.
  destruct (hasKey k obj) eqn:Eh.
  - rewrite objGet_replaceKey, Eh. reflexivity.
  - destruct (arrayIndex k); [now apply objGet_insertIndex |].
    now apply objGet_snoc.
Qed.

Lemma nth_error_update {A : Type} (l : list A) i x :
  i < List.length l -> nth_error (Store.update l i x) i = Some x.
Proof.
  revert i. induction l as [| y l IH]; intros [| i] H; simpl in *; try lia.
  - reflexivity.
  - apply IH. lia.
Qed.

Lemma nth_update {A : Type} (l : list A) i j x d :
  nth j (Store.update l i x) d
  = if (i =? j)%nat then (if (i <? List.length l)%nat then x else d)
    else nth j l d.
Proof.
  revert i j. induction l as [| y l IH]; intros i j.
  - destruct i, j; cbn [Store.update nth List.length Nat.eqb Nat.ltb Nat.leb];
      try reflexivity.
    now destruct (i =? j)%nat.
  - destruct i as [| i], j as [| j]; cbn [Store.update nth Nat.eqb];
      try reflexivity.
    rewrite IH. reflexivity.
Qed.

Lemma normalize_idempotent (t : value) :
  Value.normalize (Value.normalize t) = Value.normalize t.
Proof. apply normalize_wf_id, normalize_wf. Qed.

Lemma payloadCell_inv h this o c :
  Store.payloadCell h this = Some (o, c) ->
  nth_error h this = Some (Store.COrt (Store.JRef o))
  /\ nth_error h o = Some c /\ (forall q, c <> Store.COrt q) /\ o <> this.
Proof.
  unfold Store.payloadCell.
  destruct (nth_error h this) as [[| | [| | | | l]] |] eqn:Et; try discriminate.
  destruct (nth_error h l) as [[items | props | q] |] eqn:El; try discriminate;
    intros H; injection H as <- <-;
    (split; [reflexivity |]; split; [assumption |];
     split; [discriminate | intros ->; congruence]).
Qed.

Lemma payloadCell_update h h1 this o c c' :
  Store.payloadCell h this = Some (o, c) -> extends h h1 ->
  (forall q, c' <> Store.COrt q) ->
  Store.payloadCell (Store.update h1 o c') this = Some (o, c').
Proof.
  intros Hp He Hc'. destruct (payloadCell_inv _ _ _ _ Hp) as (Ht & Ho & _ & Hne).
  unfold Store.payloadCell.
  rewrite update_other by assumption.
  rewrite (extends_nth _ _ _ _ He Ht).
  rewrite nth_error_update.
  - destruct c'; try reflexivity. now destruct (Hc' payload).
  - pose proof (extends_length _ _ He).
    assert (o < List.length h) by (apply nth_error_Some; congruence). lia.
Qed.

(** X9.  What [set] stores, [get] reads: after [set(k, x)] has returned,
    for a value [x] that stands for the tree [t], [get(k)] returns an
    [OrtValue] that stands for [t] in normal form; and every other key
    or index holds what it held.  (A property named [__proto__] is never
    created by an assignment.) *)
Theorem set_then_get :
  forall (fuel : nat) (h h' : Store.heap) (this : Store.loc) (k : Store.key)
         (x : Store.jsval) (t : value),
    k <> Store.KStr "__proto__" ->
    Store.reify fuel h x = Some t ->
    Store.set fuel h this k x = Store.Ret h' ->
    (exists h1 sub p,
        Store.get fuel h' this k = Store.Ret (h1, sub)
        /\ nth_error h1 sub = Some (Store.COrt p)
        /\ Store.reify fuel h1 p = Some (Value.normalize t))
    /\ forall k', k' <> k -> Store.stored h' this k' = Store.stored h this k'.
Proof.
  intros fuel h h' this k x t Hk Hx Hset.
  destruct (normalize_copy fuel h x t Hx) as (h1 & v' & Hn & Hcopy).
  pose proof (normalize_extends _ _ _ _ _ Hn) as He.
  pose proof (extends_length _ _ He) as Hlen.
  unfold Store.set in Hset.
  destruct (Store.payloadCell h this) as [[o c] |] eqn:Hp;
    [| destruct k; discriminate].
  destruct (payloadCell_inv _ _ _ _ Hp) as (Ht & Ho & Hc & Hne).
  assert (Hol : o < List.length h) by (apply nth_error_Some; congruence).
  assert (Hread : forall c', Store.reify fuel (Store.update h1 o c') v'
                             = Some (Value.normalize t)).
  { intros c'. apply Hcopy. intros l Hl. apply update_other. lia. }
  assert (Hget : forall c', exists h2 sub p,
             Store.newOrtValue fuel (Store.update h1 o c') v'
             = Store.Ret (h2, sub)
             /\ nth_error h2 sub = Some (Store.COrt p)
             /\ Store.reify fuel h2 p = Some (Value.normalize t)).
  { intros c'.
    destruct (newOrtValue_detached _ _ _ _ (Hread c'))
      as (h2 & sub & p & H1 & _ & H2 & H3 & _).
    rewrite normalize_idempotent in H3. exists h2, sub, p. auto. }
  destruct k as [s | i]; destruct c as [items | props | q];
    try discriminate.
  - (* a string key on an object *)
    rewrite Hn in Hset. injection Hset as <-.
    assert (Hs : s <> "__proto__") by congruence.
    pose proof (payloadCell_update h h1 this o _
                  (Store.CObj (objSet s v' props)) Hp He
                  ltac:(discriminate)) as Hp'.
    split.
    + unfold Store.get. rewrite Hp'.
      rewrite (objGet_objSet s s v' props Hs), String.eqb_refl. apply Hget.
    + intros k' Hk'. unfold Store.stored. rewrite Hp', Hp.
      destruct k' as [s' | j]; [| reflexivity].
      rewrite (objGet_objSet s s' v' props Hs).
      destruct (String.eqb_spec s s'); [congruence | reflexivity].
  - (* an index on an array *)
    destruct (Store.outOfBounds i items) eqn:Eb; [discriminate |].
    rewrite Hn in Hset. injection Hset as <-.
    pose proof (payloadCell_update h h1 this o _
                  (Store.CArr (Store.update items (Z.to_nat i) v')) Hp He
                  ltac:(discriminate)) as Hp'.
    assert (Hb : forall j, Store.outOfBounds j
                             (Store.update items (Z.to_nat i) v')
                           = Store.outOfBounds j items)
      by (intros j; unfold Store.outOfBounds; now rewrite update_length).
    unfold Store.outOfBounds in Eb. apply orb_false_iff in Eb.
    destruct Eb as [Eb1 Eb2]. apply Z.ltb_ge in Eb1. apply Z.leb_gt in Eb2.
    split.
    + unfold Store.get. rewrite Hp', Hb.
      unfold Store.outOfBounds.
      replace ((i <? 0)%Z || (Z.of_nat (List.length items) <=? i)%Z)
        with false
        by (symmetry; apply orb_false_iff; split;
            [now apply Z.ltb_ge | now apply Z.leb_gt]).
      rewrite nth_update, Nat.eqb_refl.
      replace (Z.to_nat i <? List.length items)%nat with true
        by (symmetry; apply Nat.ltb_lt; lia).
      apply Hget.
    + intros k' Hk'. unfold Store.stored. rewrite Hp', Hp.
      destruct k' as [s' | j]; [reflexivity |]. rewrite Hb.
      destruct (Store.outOfBounds j items) eqn:Ej; [reflexivity |].
      rewrite nth_update.
      unfold Store.outOfBounds in Ej. apply orb_false_iff in Ej.
      destruct Ej as [Ej1 Ej2]. apply Z.ltb_ge in Ej1.
      destruct (Nat.eqb_spec (Z.to_nat i) (Z.to_nat j)) as [E | _];
        [| reflexivity].
      exfalso. apply Hk'. f_equal. lia.
Qed.

Lemma set_then_get_witness :
  (exists h1 sub p,
      Store.get 2
        [Store.CObj [("a", Store.JNum (Dec 1 0)); ("b", Store.JStr "v")];
         Store.COrt (Store.JRef 0)] 1 (Store.KStr "b")
      = Store.Ret (h1, sub)
      /\ nth_error h1 sub = Some (Store.COrt p)
      /\ Store.reify 2 h1 p = Some (Value.normalize (VStr "v")))
  /\ forall k', k' <> Store.KStr "b" ->
       Store.stored
         [Store.CObj [("a", Store.JNum (Dec 1 0)); ("b", Store.JStr "v")];
          Store.COrt (Store.JRef 0)] 1 k'
       = Store.stored
           [Store.CObj [("a", Store.JNum (Dec 1 0))];
            Store.COrt (Store.JRef 0)] 1 k'.
Proof.
  apply (set_then_get 2
           [Store.CObj [("a", Store.JNum (Dec 1 0))]; Store.COrt (Store.JRef 0)]
           [Store.CObj [("a", Store.JNum (Dec 1 0)); ("b", Store.JStr "v")];
            Store.COrt (Store.JRef 0)]
           1 (Store.KStr "b") (Store.JStr "v") (VStr "v")).
  - discriminate.
  - reflexivity.
  - reflexivity.
Defined.

(** ** The store: absent keys and bounds *)

(** X10.  [set] with an integer index never changes the length of
    an array: for an integer outside [0, length) it throws "Index out of
    bounds" whatever the value, and when it returns the integer was
    inside [0, length) and the array has the length it had.  (The keys
    of the model are strings and integers; what [set] does with [NaN] or
    a fraction is not stated.) *)
Theorem set_keeps_array_length :
  forall (fuel : nat) (h : Store.heap) (this o : Store.loc) (i : Z)
         (x : Store.jsval) (items : list Store.jsval),
    Store.payloadCell h this = Some (o, Store.CArr items) ->
    (Store.outOfBounds i items = true ->
     Store.set fuel h this (Store.KNum i) x
     = Store.Raise (Store.Error ("Index out of bounds: "
                                 ++ Store.showKey (Store.KNum i))))
    /\ forall h',
         Store.set fuel h this (Store.KNum i) x = Store.Ret h' ->
         (0 <= i < Z.of_nat (List.length items))%Z
         /\ exists items',
              Store.payloadCell h' this = Some (o, Store.CArr items')
              /\ List.length items' = List.length items.
Proof.
  intros fuel h this o i x items Hp. unfold Store.set. rewrite Hp. split.
  - intros ->. reflexivity.
  - intros h'. destruct (Store.outOfBounds i items) eqn:Eb; [discriminate |].
    destruct (Store.normalize fuel h x) as [[h1 v'] |] eqn:Hn; [| discriminate].
    intros H. injection H as <-.
    unfold Store.outOfBounds in Eb. apply orb_false_iff in Eb.
    destruct Eb as [Eb1 Eb2]. apply Z.ltb_ge in Eb1. apply Z.leb_gt in Eb2.
    split; [lia |].
    exists (Store.update items (Z.to_nat i) v'). split.
    + apply (payloadCell_update h h1 this o (Store.CArr items)); auto.
      * eapply normalize_extends; eassumption.
      * discriminate.
    + apply update_length.
Qed.

Lemma set_keeps_array_length_witness :
  (0 <= 1 < Z.of_nat (List.length [Store.JNull; Store.JNull]))%Z
  /\ exists items',
       Store.payloadCell
         [Store.CArr [Store.JNull; Store.JBool true]; Store.COrt (Store.JRef 0)]
         1
       = Some (0, Store.CArr items')
       /\ List.length items' = List.length [Store.JNull; Store.JNull].
Proof.
  apply (proj2 (set_keeps_array_length 1
                  [Store.CArr [Store.JNull; Store.JNull];
                   Store.COrt (Store.JRef 0)]
                  1 0 1 (Store.JBool true) [Store.JNull; Store.JNull]
                  eq_refl)).
  reflexivity.
Defined.

(** ** The store: an [OrtValue] given to the constructor or to [set] *)

Lemma set_keeps_instances fuel h r k x h' a q :
  Store.set fuel h r k x = Store.Ret h' ->
  nth_error h a = Some (Store.COrt q) ->
  nth_error h' a = Some (Store.COrt q).
Proof.
  intros Hset Ha. unfold Store.set in Hset.
  destruct (Store.payloadCell h r) as [[o c] |] eqn:Hp;
    [| destruct k; discriminate].
  destruct (payloadCell_inv _ _ _ _ Hp) as (_ & Ho & Hc & _).
  assert (Hoa : o <> a) by (intros ->; rewrite Ha in Ho; injection Ho as <-;
                            now apply (Hc q)).
  assert (Hup : forall h1 v' c',
             Store.normalize fuel h x = Some (h1, v') ->
             nth_error (Store.update h1 o c') a = Some (Store.COrt q)).
  { intros h1 v' c' Hn. rewrite update_other by assumption.
    eapply extends_nth; [eapply normalize_extends; eassumption | exact Ha]. }
  destruct k as [s | i]; destruct c as [items | props | p]; try discriminate.
  - destruct (Store.normalize fuel h x) as [[h1 v'] |] eqn:Hn; [| discriminate].
    injection Hset as <-. now apply (Hup h1 v').
  - destruct (Store.outOfBounds i items); [discriminate |].
    destruct (Store.normalize fuel h x) as [[h1 v'] |] eqn:Hn; [| discriminate].
    injection Hset as <-. now apply (Hup h1 v').
Qed.

Lemma setAll_keeps_instances calls :
  forall h r a q,
    nth_error h a = Some (Store.COrt q) ->
    nth_error (Store.setAll h r calls) a = Some (Store.COrt q).
Proof.
  induction calls as [| [[fuel k] x] calls IH]; intros h r a q Ha;
    cbn [Store.setAll]; [assumption |].
  destruct (Store.set fuel h r k x) as [h' | e |] eqn:Hset;
    try (now apply IH).
  apply IH. eapply set_keeps_instances; eassumption.
Qed.

Lemma stored_same_payload h a b p k :
  nth_error h a = Some (Store.COrt p) ->
  nth_error h b = Some (Store.COrt p) ->
  Store.stored h a k = Store.stored h b k.
Proof.
  intros Ha Hb. unfold Store.stored, Store.payloadCell. now rewrite Ha, Hb.
Qed.

(** X11.  An [OrtValue] built from an [OrtValue] is no copy: the new
    instance holds the very payload of the old one.  Whatever [set]
    calls are made on either of them, both read the same value under
    every key. *)
Theorem ortvalue_of_ortvalue_shares :
  forall (fuel : nat) (h : Store.heap) (this : Store.loc) (p : Store.jsval),
    nth_error h this = Some (Store.COrt p) ->
    exists h1 copy,
      Store.newOrtValue (S fuel) h (Store.JRef this) = Store.Ret (h1, copy)
      /\ copy <> this
      /\ nth_error h1 copy = Some (Store.COrt p)
      /\ forall (calls calls' : list (nat * Store.key * Store.jsval))
                (k : Store.key),
           let h2 := Store.setAll (Store.setAll h1 copy calls) this calls' in
           Store.stored h2 this k = Store.stored h2 copy k.
Proof.
  intros fuel h this p Ht.
  exists (h ++ [Store.COrt p])%list, (List.length h).
  assert (Hlt : this < List.length h) by (apply nth_error_Some; congruence).
  assert (Hc : nth_error (h ++ [Store.COrt p]) (List.length h)
               = Some (Store.COrt p))
    by now rewrite nth_error_app2, Nat.sub_diag by lia.
  assert (Ht1 : nth_error (h ++ [Store.COrt p]) this = Some (Store.COrt p))
    by now rewrite nth_error_app1.
  split; [| split; [lia | split; [exact Hc |]]].
  - unfold Store.newOrtValue. cbn [Store.normalize]. now rewrite Ht.
  - intros calls calls' k h2. apply (stored_same_payload _ _ _ p);
      unfold h2; now repeat apply setAll_keeps_instances.
Qed.

Lemma ortvalue_of_ortvalue_shares_witness :
  exists h1 copy,
    Store.newOrtValue 1 [Store.CObj []; Store.COrt (Store.JRef 0)]
      (Store.JRef 1) = Store.Ret (h1, copy)
    /\ copy <> 1
    /\ nth_error h1 copy = Some (Store.COrt (Store.JRef 0))
    /\ forall (calls calls' : list (nat * Store.key * Store.jsval))
              (k : Store.key),
         let h2 := Store.setAll (Store.setAll h1 copy calls) 1 calls' in
         Store.stored h2 1 k = Store.stored h2 copy k.
Proof.
  apply (ortvalue_of_ortvalue_shares 0
           [Store.CObj []; Store.COrt (Store.JRef 0)] 1 (Store.JRef 0)).
  reflexivity.
Defined.

Lemma reifyProps_fails (r : Store.jsval -> option value) props k v :
  objGet k props = Some v -> r v = None -> Store.reifyProps r props = None.
Proof.
  induction props as [| [k0 v0] props IH]; cbn [objGet Store.reifyProps];
    [discriminate |].
  destruct (k0 =? k)%string.
  - intros H Hr. injection H as ->. now rewrite Hr.
  - intros H Hr. rewrite (IH H Hr). now destruct (r v0).
Qed.

(** X12.  [set] does not copy an [OrtValue] it is given either: setting
    a key of an object to the object's own [OrtValue] stores a reference
    to the object's payload in that payload.  The value is then cyclic:
    no finite tree stands for it. *)
Theorem set_to_itself_makes_a_cycle :
  forall (fuel : nat) (h : Store.heap) (this o : Store.loc) (s : string)
         (props : list (string * Store.jsval)),
    Store.payloadCell h this = Some (o, Store.CObj props) ->
    s <> "__proto__" ->
    exists h',
      Store.set (S fuel) h this (Store.KStr s) (Store.JRef this) = Store.Ret h'
      /\ Store.stored h' this (Store.KStr s) = Some (Store.JRef o)
      /\ Store.payloadCell h' this
         = Some (o, Store.CObj (objSet s (Store.JRef o) props))
      /\ forall n, Store.reify n h' (Store.JRef o) = None.
Proof.
  intros fuel h this o s props Hp Hs.
  destruct (payloadCell_inv _ _ _ _ Hp) as (Ht & Ho & _ & Hne).
  exists (Store.update h o (Store.CObj (objSet s (Store.JRef o) props))).
  pose proof (payloadCell_update h h this o _
                (Store.CObj (objSet s (Store.JRef o) props)) Hp
                (extends_refl h) ltac:(discriminate)) as Hp'.
  assert (Hget : objGet s (objSet s (Store.JRef o) props)
                 = Some (Store.JRef o))
    by now rewrite objGet_objSet, String.eqb_refl.
  split; [| split; [| split; [exact Hp' |]]].
  - unfold Store.set. rewrite Hp. cbn [Store.normalize]. now rewrite Ht.
  - unfold Store.stored. now rewrite Hp'.
  - assert (Hcell : nth_error
                      (Store.update h o
                         (Store.CObj (objSet s (Store.JRef o) props))) o
                    = Some (Store.CObj (objSet s (Store.JRef o) props))).
    { apply nth_error_update. apply nth_error_Some. congruence. }
    induction n as [| n IH]; [reflexivity |].
    cbn [Store.reify]. rewrite Hcell.
    now rewrite (reifyProps_fails _ _ s (Store.JRef o) Hget IH).
Qed.

Lemma set_to_itself_makes_a_cycle_witness :
  exists h',
    Store.set 1 [Store.CObj []; Store.COrt (Store.JRef 0)] 1
      (Store.KStr "self") (Store.JRef 1) = Store.Ret h'
    /\ Store.stored h' 1 (Store.KStr "self") = Some (Store.JRef 0)
    /\ Store.payloadCell h' 1
       = Some (0, Store.CObj (objSet "self" (Store.JRef 0) []))
    /\ forall n, Store.reify n h' (Store.JRef 0) = None.
Proof.
  apply (set_to_itself_makes_a_cycle 0
           [Store.CObj []; Store.COrt (Store.JRef 0)] 1 0 "self" []).
  - reflexivity.
  - discriminate.
Defined.

(** ** A top-level array of one object *)

(** X13.  A top-level table of exactly one row does not come back as an
    array: [parse (generate [r])] is the row [r] itself, the section of
    an anonymous header with one data line being unwrapped. *)
Theorem single_row_array_is_unwrapped :
  forall r : value,
    table [r] -> parse (generate (VArr [r])) = Ok r.
Proof.
  intros r Ht. pose proof (table_wf _ Ht) as Hwf.
  destruct (table_rows _ Ht) as (first & others & E & Hne & Hp & Hrows).
  unfold parse, generate.
  rewrite (createOrtValue_id (VArr [r])) by now apply wf_arr.
  assert (Etext : generateOrt (VArr [r]) = join (str1 LF) (tableLines "" [r])).
  { unfold generateOrt. cbv zeta.
    rewrite (map_copy_id _ Hwf), (table_uniform _ Ht).
    rewrite <- (table_text "" [r] Ht). rewrite E. reflexivity. }
  assert (Hls : split LF (generateOrt (VArr [r])) = tableLines "" [r]).
  { rewrite Etext. apply split_join; [discriminate |].
    now apply table_noLF. }
  set (h := headerFieldsOf (VObj first)).
  assert (Hline : lineAt (tableLines "" [r]) 0 = String ":" (h ++ ":")).
  { unfold lineAt, tableLines. rewrite E. cbn [nth hd app append]. fold h.
    apply trim_edges; [reflexivity |].
    exists (String ":" h), ":"%char. split; reflexivity. }
  unfold parseOrt. cbv zeta. rewrite Hls.
  rewrite (anonymous_header_returns (tableLines "" [r]) 0 []
             (fieldsOf (VObj first)) [r]).
  - reflexivity.
  - apply reach_start.
  - unfold tableLines. simpl. lia.
  - now rewrite Hline.
  - rewrite Hline. cbn [drop]. rewrite dropFinalColon_snoc.
    now apply parseFields_header.
  - now apply fieldsOf_nonempty.
  - unfold tableLines. cbn [skipn Nat.add].
    rewrite <- (app_nil_r (map rowText [r])).
    rewrite (sectionRows_rows (fieldsOf (VObj first)) [r] [] Hrows
               (fun _ => eq_refl)).
    now rewrite (parseRows_rows _ _ Hrows).
Qed.

Lemma single_row_array_is_unwrapped_witness :
  parse (generate (VArr [VObj [("id", VNum (Dec 7 0)); ("tags", VArr [VStr "a"])]]))
  = Ok (VObj [("id", VNum (Dec 7 0)); ("tags", VArr [VStr "a"])]).
Proof.
  apply (single_row_array_is_unwrapped
           (VObj [("id", VNum (Dec 7 0)); ("tags", VArr [VStr "a"])])).
  split.
  - repeat constructor; discriminate.
  - repeat constructor; simpl; try discriminate; try reflexivity;
      repeat split; try discriminate; try reflexivity;
      repeat constructor; simpl; intuition discriminate.
Defined.

(** ** An array that ends with [null] *)

Lemma parseItems_trailing rec (text : value -> string) xs :
  forall result,
    Forall (fun x => rec (text x) = Ok x /\ wf x) xs ->
    parseItems rec (map text xs ++ [""])%list result
    = Ok (createOrtValue (VArr (result ++ xs))).
Proof.
  induction xs as [| x xs IH]; intros result H.
  - cbn [map app parseItems]. now rewrite app_nil_r.
  - inversion H as [| ? ? [Hx Hw] Hrest]; subst.
    cbn [map app].
    destruct (map text xs ++ [""])%list as [| q rest] eqn:E.
    { destruct (map text xs); discriminate. }
    rewrite parseItems_step, Hx. cbn [bind]. rewrite IH by assumption.
    rewrite (toNative_wf_id x Hw). now rewrite <- app_assoc.
Qed.

(** X14.  An array that ends with [null] loses it on the way through
    the text.  The array [[null]] is written [[]], the text of the empty
    array; after values [xs] the final [null] is written as nothing
    after a comma.  For literal values [xs], [parseValue] reads either
    text back as the array [xs]. *)
Theorem trailing_null_is_dropped :
  forall (xs : list value) (i : bool),
    generateValue (VArr (xs ++ [VNull])) i
    = match xs with
      | [] => "[]"
      | _ :: _ =>
          "[" ++ join "," (map (fun x => generateValue x true) xs) ++ ",]"
      end
    /\ (Forall literal xs ->
        parseValue (generateValue (VArr (xs ++ [VNull])) i) = Ok (VArr xs)).
Proof.
  intros xs i.
  destruct xs as [| x xs]; [split; reflexivity |].
  split.
  { change ((x :: xs) ++ [VNull])%list with (x :: (xs ++ [VNull]))%list.
    rewrite generateValue_arr.
    change (x :: (xs ++ [VNull]))%list with ((x :: xs) ++ [VNull])%list.
    rewrite map_app. cbn [map generateValue].
    rewrite join_snoc by discriminate.
    now rewrite !append_assoc. }
  intros Hall.
  assert (Hw : wf (VArr (x :: xs))).
  { apply wf_arr. revert Hall. apply Forall_impl. apply literal_wf. }
  change ((x :: xs) ++ [VNull])%list with (x :: (xs ++ [VNull]))%list.
  unfold parseValue. rewrite generateValue_arr.
  set (text := fun y => generateValue y true).
  change (x :: (xs ++ [VNull]))%list with ((x :: xs) ++ [VNull])%list.
  rewrite map_app. change (map text [VNull]) with [""].
  set (body := join "," (map text (x :: xs) ++ [""])%list).
  assert (Hbody : body = join "," (map text (x :: xs)) ++ ",").
  { unfold body. now rewrite join_snoc by discriminate. }
  assert (Hlo : lastOK body).
  { rewrite Hbody. now exists (join "," (map text (x :: xs))), ","%char. }
  cbn [parseValueF]. rewrite parseValueBody_array by assumption.
  unfold body. cbn [map app].
  rewrite parseArrayLoop_join.
  2:{ constructor.
      - now apply (text_facts x true (Forall_inv Hall)).
      - apply Forall_app. split.
        + apply Forall_map. apply Forall_forall. intros y Hy.
          rewrite Forall_forall in Hall.
          now apply (text_facts y true (Hall y (or_intror Hy))).
        + constructor; [apply nested_nil | constructor]. }
  change (text x :: (map text xs ++ [""])%list)
    with (map text (x :: xs) ++ [""])%list.
  rewrite (parseItems_trailing _ text (x :: xs) []).
  - cbn [app]. now rewrite createOrtValue_id.
  - apply Forall_forall. intros y Hy. rewrite Forall_forall in Hall.
    split; [| apply literal_wf; auto].
    apply parseValueF_literal; [auto |].
    cbn [String.length]. rewrite length_snoc.
    pose proof (length_join_piece "," (text y)
                  (map text (x :: xs) ++ [""])%list) as L.
    fold body in L. unfold text in L |- *.
    assert (H : In (generateValue y true)
              (map (fun z => generateValue z true) (x :: xs) ++ [""])%list).
    { apply in_or_app. left.
      exact (in_map (fun z => generateValue z true) _ _ Hy). }
    specialize (L H). unfold body, text in L |- *. lia.
Qed.

Lemma trailing_null_is_dropped_witness :
  parseValue (generateValue (VArr ([VBool true; VNull] ++ [VNull])) false)
  = Ok (VArr [VBool true; VNull]).
Proof.
  apply (proj2 (trailing_null_is_dropped [VBool true; VNull] false)).
  repeat constructor.
Defined.

(** ** Wrapping a value twice *)

(** X15.  [createOrtValue] gives a value whose objects have distinct
    keys in property order; wrapping it again or taking [toNative] of it
    changes nothing, so [generate] writes the same text for [x] and for
    [createOrtValue(x)]. *)
Theorem createOrtValue_idempotent :
  forall x : value,
    wf (createOrtValue x)
    /\ createOrtValue (createOrtValue x) = createOrtValue x
    /\ toNative (createOrtValue x) = createOrtValue x
    /\ generate (createOrtValue x) = generate x.
Proof.
  intros x.
  assert (Hw : wf (createOrtValue x)) by apply normalize_wf.
  assert (Hid : createOrtValue (createOrtValue x) = createOrtValue x)
    by now apply createOrtValue_id.
  repeat split; [exact Hw | exact Hid | now apply toNative_wf_id |].
  unfold generate. now rewrite Hid.
Qed.
